(** * wmtiler: the arrangement engine of [src/wmtiler.cpp]

    A shallow embedding of the layout calculator ([distribute], [buildRows],
    [computePositions]), of the per-desktop window order registry
    ([stableOrder], [tileWindows], [moveActiveWindow]), of the tiled-desktop
    policy ([shouldTile], [defaultTiledDesktops]) and of the debounce
    scheduler inside [runDaemon], followed by the properties of the
    specification proved against them. *)

From stdpp Require Import gmap list list_numbers strings.
From Equations Require Import Equations.

Local Open Scope Z_scope.
Set Warnings "-clear-no-such-hyp".

(** ** Machine integers

    The C++ [int] is 32 bits wide.  It is modelled as [Z]; every arithmetic
    operation of the source is written with the two's complement wrap-around
    of the target made explicit.  [size_t] is 64 bits wide and unsigned. *)
Module Int.

Definition min_int : Z := - 2 ^ 31.
Definition max_int : Z := 2 ^ 31 - 1.

Definition in_range (z : Z) : Prop := min_int <= z <= max_int.

Definition wrap (z : Z) : Z := (z + 2 ^ 31) mod 2 ^ 32 - 2 ^ 31.

Definition add (a b : Z) : Z := wrap (a + b).
Definition sub (a b : Z) : Z := wrap (a - b).
Definition mul (a b : Z) : Z := wrap (a * b).
(** [/] on [int] truncates toward zero. *)
Definition div (a b : Z) : Z := wrap (a ÷ b).

(** [static_cast<int>] of a [size_t]. *)
Definition of_size (s : Z) : Z := wrap s.

End Int.

Module SizeT.

Definition wrap (z : Z) : Z := z mod 2 ^ 64.
Definition sub (a b : Z) : Z := wrap (a - b).
(** [v.size()] of a vector. *)
Definition size {A} (v : list A) : Z := wrap (Z.of_nat (length v)).

End SizeT.

(** ** Data model *)

(** [Window] is an X11 resource identifier ([unsigned long]); desktops are
    numbered by [unsigned long] as well.  Only equality is used on them. *)
Abbreviation Window := N.
Abbreviation Desktop := N.

Record DesktopLayout := mkLayout {
  marginLeft : Z;
  marginRight : Z;
  marginTop : Z;
  marginBottom : Z;
  gap : Z
}.

Record Rect := mkRect {
  x : Z;
  y : Z;
  width : Z;
  height : Z
}.

(** ** Layout calculator *)

(** [distribute]: the loop [for (i = 0; i < slots; ++i) push_back(...)]
    visits [i = 0 .. slots-1] in order. *)
Definition distribute (total slots : Z) : list Z :=
  if bool_decide (slots <= 0) then []
  else
    let base := Int.div total slots in
    let remainder := Int.sub total (Int.mul base slots) in
    (λ i, Int.add base (if bool_decide (i < remainder) then 1 else 0))
      <$> seqZ 0 slots.

(** Columns of the next row inside the [while] loop of [buildRows]. *)
Definition nextCols (remaining : Z) : Z :=
  if bool_decide (3 <= remaining) then 3 else remaining.

(** The [while (remaining > 0)] loop of [buildRows]. *)
Equations? buildRows_loop (remaining : Z) (rows : list Z) : list Z
  by wf (Z.to_nat remaining) lt :=
  buildRows_loop remaining rows with decide (0 < remaining) := {
    | left _ := buildRows_loop (Int.sub remaining (nextCols remaining))
                               (rows ++ [nextCols remaining]);
    | right _ := rows }.
Proof.
  unfold Int.sub, Int.wrap, nextCols.
  case_bool_decide.
  - assert (remaining - 3 < 2 ^ 31 ∨ 2 ^ 31 <= remaining - 3) as [?|?] by lia.
    + rewrite Z.mod_small by lia. lia.
    + pose proof (Z.mod_pos_bound (remaining - 3 + 2 ^ 31) (2 ^ 32)). lia.
  - replace (remaining - remaining) with 0 by lia.
    change ((0 + 2 ^ 31) mod 2 ^ 32 - 2 ^ 31) with 0. lia.
Qed.

Definition buildRows (count : Z) : list Z :=
  match count with
  | 1 => [1]
  | 2 => [2]
  | 3 => [3]
  | 4 => [2; 2]
  | 5 => [2; 3]
  | 6 => [3; 3]
  | _ => buildRows_loop count []
  end.

(** The inner loop of [computePositions]: one [Rect] per column width; it
    leaves through [break] when [--remaining == 0].  Returns the grown
    [result] and the new [remaining]. *)
Fixpoint emitRow (widths : list Z) (layout : DesktopLayout) (y0 h : Z)
    (x0 remaining : Z) (result : list Rect) : list Rect * Z :=
  match widths with
  | [] => (result, remaining)
  | w :: widths' =>
      let result' := result ++ [mkRect x0 y0 w h] in
      let x1 := Int.add x0 (Int.add w (gap layout)) in
      let remaining' := Int.sub remaining 1 in
      if bool_decide (remaining' = 0) then (result', remaining')
      else emitRow widths' layout y0 h x1 remaining' result'
  end.

(** The outer loop of [computePositions], entered at row [rowIdx] with
    [rows] the rows from [rowIdx] on.  [rowHeights[rowIdx]] is read from the
    whole vector of row heights; it has one entry per row, so the index is
    always in range in the source (the default of the lookup is never used). *)
Fixpoint emitRows (rows : list Z) (rowHeights : list Z) (rowIdx : nat)
    (layout : DesktopLayout) (usableWidth : Z)
    (remaining y0 : Z) (result : list Rect) : list Rect :=
  match rows with
  | [] => result
  | r :: rows' =>
      if bool_decide (0 < remaining) then
        let cols := Z.min r remaining in
        let rowWidth := Int.sub usableWidth (Int.mul (gap layout) (Int.sub cols 1)) in
        let rowWidth := if bool_decide (rowWidth < 0) then 0 else rowWidth in
        let widths := distribute rowWidth cols in
        let h := rowHeights !!! rowIdx in
        let '(result', remaining') :=
          emitRow widths layout y0 h (marginLeft layout) remaining result in
        emitRows rows' rowHeights (S rowIdx) layout usableWidth
                 remaining' (Int.add y0 (Int.add h (gap layout))) result'
      else result
  end.

Definition computePositions (count screenW screenH : Z) (layout : DesktopLayout)
    : list Rect :=
  if bool_decide (count <= 0) then []
  else
    let rows := buildRows count in
    let usableWidth :=
      Z.max 0 (Int.sub (Int.sub screenW (marginLeft layout)) (marginRight layout)) in
    let totalVertical :=
      Z.max 0 (Int.sub (Int.sub screenH (marginTop layout)) (marginBottom layout)) in
    let usableHeight :=
      Int.sub totalVertical
              (Int.mul (gap layout) (Int.of_size (SizeT.sub (SizeT.size rows) 1))) in
    let usableHeight := if bool_decide (usableHeight < 0) then 0 else usableHeight in
    let rowHeights := distribute usableHeight (Int.of_size (SizeT.size rows)) in
    emitRows rows rowHeights 0%nat layout usableWidth count (marginTop layout) [].

(** ** Window order registry *)

(** [g_windowOrder]: the stored order of every desktop that has one. *)
Abbreviation Registry := (gmap N (list N)).

(** One of the two [for] loops of [stableOrder]: every window of [wins] that
    [remaining.erase] finds (and removes) is pushed on [result]. *)
Fixpoint eraseAndPush (wins : list Window) (remaining : gset Window)
    (result : list Window) : gset Window * list Window :=
  match wins with
  | [] => (remaining, result)
  | win :: wins' =>
      if decide (win ∈ remaining)
      then eraseAndPush wins' (remaining ∖ {[win]}) (result ++ [win])
      else eraseAndPush wins' remaining result
  end.

(** [stableOrder].  [g_windowOrder[desktop]] creates an empty entry when the
    desktop has none, so the previous order of a fresh desktop is empty; the
    assignment [stored = result] writes the entry. *)
Definition stableOrder (desktop : Desktop) (current : list Window)
    (reg : Registry) : list Window * Registry :=
  let stored := default [] (reg !! desktop) in
  let remaining : gset Window := list_to_set current in
  let '(remaining, result) := eraseAndPush stored remaining [] in
  let '(remaining, result) := eraseAndPush current remaining result in
  (result, <[desktop := result]> reg).

(** The geometry requests sent to the X server, in order: the window that is
    unmaximized, undecorated and configured, and its rectangle. *)
Abbreviation Applied := (list (N * Rect)).

(** [tileWindows].  [windows] is what [collectWindows] returns for the
    desktop; the screen size is what the display reports. *)
Definition tileWindows (screenW screenH : Z) (desktop : Desktop)
    (layout : DesktopLayout) (windows : list Window) (reg : Registry)
    : Registry * Applied :=
  match windows with
  | [] => (delete desktop reg, [])
  | _ :: _ =>
      let '(ordered, reg') := stableOrder desktop windows reg in
      let positions :=
        computePositions (Int.of_size (SizeT.size ordered)) screenW screenH layout in
      (reg', zip ordered positions)
  end.

(** ** Configuration *)

Record Config := mkConfig {
  defaults : DesktopLayout;
  tiledDefaults : DesktopLayout;
  hasTiledDefaults : bool;
  perDesktop : gmap N DesktopLayout;
  tiledDesktops : gset N;
  debounce : Z
}.

Definition layoutForDesktop (cfg : Config) (desktop : Desktop) : DesktopLayout :=
  match perDesktop cfg !! desktop with
  | Some l => l
  | None => if hasTiledDefaults cfg then tiledDefaults cfg else defaults cfg
  end.

Definition shouldTile (desktop : Desktop) (cfg : Config) : bool :=
  bool_decide (tiledDesktops cfg = ∅) || bool_decide (desktop ∈ tiledDesktops cfg).

(** The loop [for (desk = 1; desk < total; ++desk) result.insert(desk)],
    with [n] the iterations still to run. *)
Fixpoint insertDesktops (n : nat) (desk : N) (result : gset N) : gset N :=
  match n with
  | O => result
  | S n' => insertDesktops n' (N.succ desk) ({[desk]} ∪ result)
  end.

(** [defaultTiledDesktops].  [total] is [_NET_NUMBER_OF_DESKTOPS] as read by
    [getCardinal], absent when the property cannot be read. *)
Definition defaultTiledDesktops (total : option N) : gset N :=
  match total with
  | None => {[0%N]}
  | Some t =>
      if bool_decide (t ≤ 1)%N then {[0%N]}
      else insertDesktops (N.to_nat (t - 1)) 1%N ∅
  end.

(** The configuration [main] runs with: an empty [tiledDesktops] is replaced
    by the default set before any desktop is looked at. *)
Definition startupConfig (cfg : Config) (total : option N) : Config :=
  if bool_decide (tiledDesktops cfg = ∅)
  then mkConfig (defaults cfg) (tiledDefaults cfg) (hasTiledDefaults cfg)
                (perDesktop cfg) (defaultTiledDesktops total) (debounce cfg)
  else cfg.

(** ** Reordering *)

(** [std::iter_swap] on the elements at positions [i] and [j]. *)
Definition iter_swap (i j : nat) (l : list Window) : list Window :=
  match l !! i, l !! j with
  | Some a, Some b => <[j := a]> (<[i := b]> l)
  | _, _ => l
  end.

(** [moveActiveWindow].  [windows] is the first [collectWindows] result,
    [active] what [getActiveWindow] returns, and [windows'] the result of
    the [collectWindows] call made by the nested [tileWindows]. *)
Definition moveActiveWindow (screenW screenH : Z) (desktop : Desktop)
    (cfg : Config) (forward : bool)
    (windows : list Window) (active : option Window) (windows' : list Window)
    (reg : Registry) : bool * Registry * Applied :=
  match windows with
  | [] => (false, delete desktop reg, [])
  | _ :: _ =>
      let '(ordered, reg1) := stableOrder desktop windows reg in
      match active with
      | None => (false, reg1, [])
      | Some a =>
          match list_find (λ w, w = a) ordered with
          | None => (false, reg1, [])
          | Some (i, _) =>
              let retile (ordered' : list Window) :=
                let '(reg3, out) :=
                  tileWindows screenW screenH desktop
                              (layoutForDesktop cfg desktop) windows'
                              (<[desktop := ordered']> reg1) in
                (true, reg3, out) in
              if forward then
                if bool_decide (S i = length ordered) then (false, reg1, [])
                else retile (iter_swap i (S i) ordered)
              else
                if bool_decide (i = 0%nat) then (false, reg1, [])
                else retile (iter_swap i (Nat.pred i) ordered)
          end
      end
  end.

(** The registries the program can hold between two operations: it starts
    empty and is only changed by [tileWindows] and [moveActiveWindow]. *)
Inductive reachable : Registry → Prop :=
  | reachable_start : reachable ∅
  | reachable_tile screenW screenH desktop layout windows reg :
      reachable reg →
      reachable (tileWindows screenW screenH desktop layout windows reg).1
  | reachable_move screenW screenH desktop cfg forward windows active windows' reg :
      reachable reg →
      reachable (moveActiveWindow screenW screenH desktop cfg forward
                                  windows active windows' reg).1.2.

(** ** Debounce scheduler of [runDaemon] *)

Inductive XEventType :=
  | PropertyNotify | CreateNotify | DestroyNotify | ConfigureNotify | OtherEvent.

(** An event taken by [XNextEvent], with the value [steady_clock::now()] has
    while it is handled. *)
Abbreviation XEvent := (XEventType * Z)%type.

Definition isStructural (ty : XEventType) : bool :=
  match ty with
  | PropertyNotify | CreateNotify | DestroyNotify | ConfigureNotify => true
  | OtherEvent => false
  end.

(** The [switch (event.type)] of the event loop, acting on [schedule]. *)
Definition handleEvent (cfg : Config) (schedule : option Z) (ev : XEvent)
    : option Z :=
  match ev.1 with
  | PropertyNotify | CreateNotify | DestroyNotify | ConfigureNotify =>
      Some (ev.2 + debounce cfg)
  | OtherEvent => schedule
  end.

(** One iteration of the [while (!g_interrupted)] loop, as far as [schedule]
    is concerned: the pending events, then the clock read by the check. *)
Record Tick := mkTick {
  tick_events : list XEvent;
  tick_now : Z
}.

(** Returns the new [schedule] and whether the iteration recomputes the
    layout of the current desktop. *)
Definition daemonTick (cfg : Config) (schedule : option Z) (tk : Tick)
    : option Z * bool :=
  let schedule := foldl (handleEvent cfg) schedule (tick_events tk) in
  match schedule with
  | Some due =>
      if bool_decide (due <= tick_now tk) then (None, true) else (schedule, false)
  | None => (None, false)
  end.

(** The loop over successive iterations; collects the clock values of the
    iterations that recompute. *)
Fixpoint runDaemon_loop (cfg : Config) (schedule : option Z) (ticks : list Tick)
    : option Z * list Z :=
  match ticks with
  | [] => (schedule, [])
  | tk :: ticks' =>
      let '(schedule', fired) := daemonTick cfg schedule tk in
      let '(final, recomputes) := runDaemon_loop cfg schedule' ticks' in
      (final, if fired then tick_now tk :: recomputes else recomputes)
  end.

(** ** Gated operations of the control loop *)

(** [getCardinal]: the first item of a CARDINAL property, absent when the
    property cannot be read or is empty. *)
Definition getCardinal (prop : option (list N)) : option N :=
  match prop with
  | None => None
  | Some [] => None
  | Some (v :: _) => Some v
  end.

(** [currentDesktop], from the [_NET_CURRENT_DESKTOP] property. *)
Definition currentDesktop (prop : option (list N)) : Desktop :=
  match getCardinal prop with
  | None => 0%N
  | Some d => d
  end.

(** [runOnce], also the body of the debounced recompute in [runDaemon]:
    [desktop] is what [currentDesktop] returns. *)
Definition runOnce (screenW screenH : Z) (cfg : Config) (desktop : Desktop)
    (windows : list Window) (reg : Registry) : Registry * Applied :=
  if negb (shouldTile desktop cfg) then (reg, [])
  else tileWindows screenW screenH desktop (layoutForDesktop cfg desktop)
                   windows reg.

(** ** Command channel *)

Inductive CommandType := MoveLeft | MoveRight.

Record PendingCommand := mkPending { type : CommandType }.

(** [g_commandQueue], oldest command first. *)
Abbreviation CommandQueue := (list PendingCommand).

Definition pushCommand (ty : CommandType) (queue : CommandQueue) : CommandQueue :=
  queue ++ [mkPending ty].

(** [pullCommands]: the commands taken out, and the queue left behind. *)
Definition pullCommands (queue : CommandQueue) : list PendingCommand * CommandQueue :=
  (queue, []).

(** [std::isspace] on an [unsigned char]; the program never changes the
    locale, so this is the "C" locale: space and the controls 9 to 13. *)
Definition isspace (c : Ascii.ascii) : bool :=
  let n := Ascii.nat_of_ascii c in
  (n =? 32)%nat || ((9 <=? n)%nat && (n <=? 13)%nat).

(** First loop of [trim]: the final value of [start]. *)
Fixpoint trimStart (text : list Ascii.ascii) : nat :=
  match text with
  | [] => 0%nat
  | c :: rest => if isspace c then S (trimStart rest) else 0%nat
  end.

(** Second loop of [trim]: the final value of [end], from the value [e]. *)
Fixpoint trimEnd (text : list Ascii.ascii) (start e : nat) : nat :=
  match e with
  | O => O
  | S e' =>
      if bool_decide (start < S e')%nat
         && match text !! e' with Some c => isspace c | None => false end
      then trimEnd text start e'
      else S e'
  end.

(** [trim]; [substr(start, end - start)] is [take] after [drop]. *)
Definition trim (text : list Ascii.ascii) : list Ascii.ascii :=
  let start := trimStart text in
  let e := trimEnd text start (length text) in
  take (e - start) (drop start text).

Definition parseCommandString (text : list Ascii.ascii) : option CommandType :=
  if decide (text = String.list_ascii_of_string "move-left") then Some MoveLeft
  else if decide (text = String.list_ascii_of_string "move-right") then Some MoveRight
  else None.

(** The [std::string] built from the NUL-terminated [buffer]: the bytes
    before the first NUL. *)
Fixpoint c_str (buffer : list Ascii.ascii) : list Ascii.ascii :=
  match buffer with
  | [] => []
  | c :: rest => if decide (c = Ascii.zero) then [] else c :: c_str rest
  end.

(** One accepted connection of [commandListenerLoop]: [data] is what [read]
    returned (at most 127 bytes; nothing when it failed or met the end). *)
Definition commandListenerStep (data : list Ascii.ascii) (queue : CommandQueue)
    : CommandQueue :=
  match data with
  | [] => queue
  | _ :: _ =>
      match parseCommandString (trim (c_str data)) with
      | Some parsed => pushCommand parsed queue
      | None => queue
      end
  end.

(** The token [parseArgs] stores in [commandToSend] for [--move-left] and
    [--move-right], and the payload [sendIpcCommand] writes for it. *)
Definition commandToSend (ty : CommandType) : list Ascii.ascii :=
  match ty with
  | MoveLeft => String.list_ascii_of_string "move-left"
  | MoveRight => String.list_ascii_of_string "move-right"
  end.

Definition sendIpcCommand_payload (token : list Ascii.ascii) : list Ascii.ascii :=
  token ++ [Ascii.ascii_of_nat 10].

(** What the X server answers while one command is handled. *)
Record Observed := mkObserved {
  obs_desktop : Desktop;
  obs_windows : list Window;
  obs_active : option Window;
  obs_windows' : list Window
}.

(** The body of the loop of [processPendingCommands] for one command. *)
Definition processCommand (screenW screenH : Z) (cfg : Config)
    (cmd : PendingCommand) (obs : Observed) (reg : Registry)
    : Registry * Applied :=
  let desktop := obs_desktop obs in
  if negb (shouldTile desktop cfg) then (reg, [])
  else
    let forward := match type cmd with MoveLeft => false | MoveRight => true end in
    let r := moveActiveWindow screenW screenH desktop cfg forward
                              (obs_windows obs) (obs_active obs)
                              (obs_windows' obs) reg in
    (r.1.2, r.2).

(** [processPendingCommands] on the drained commands, each with what is
    observed while it is handled; the requests sent are collected in order. *)
Fixpoint processPendingCommands (screenW screenH : Z) (cfg : Config)
    (commands : list (PendingCommand * Observed)) (reg : Registry)
    : Registry * Applied :=
  match commands with
  | [] => (reg, [])
  | (cmd, obs) :: commands' =>
      let '(reg1, out1) := processCommand screenW screenH cfg cmd obs reg in
      let '(reg2, out2) :=
        processPendingCommands screenW screenH cfg commands' reg1 in
      (reg2, out1 ++ out2)
  end.

(** The registries of a run of the program under configuration [cfg]:
    every change goes through [runOnce] (at startup and at each debounced
    recompute) or through a drained command. *)
Inductive daemonReachable (cfg : Config) : Registry → Prop :=
  | daemon_start : daemonReachable cfg ∅
  | daemon_recompute screenW screenH desktop windows reg :
      daemonReachable cfg reg →
      daemonReachable cfg (runOnce screenW screenH cfg desktop windows reg).1
  | daemon_command screenW screenH cmd obs reg :
      daemonReachable cfg reg →
      daemonReachable cfg (processCommand screenW screenH cfg cmd obs reg).1.

(** ** Window collection *)

Inductive MapState := IsUnmapped | IsUnviewable | IsViewable.

(** What the X server answers about one window: [isDockOrDesktop], the
    [_NET_WM_DESKTOP] property, and the [map_state] of its attributes
    (absent when [XGetWindowAttributes] fails). *)
Record WindowState := mkWindowState {
  ws_dockOrDesktop : bool;
  ws_desktopProp : option (list N);
  ws_mapState : option MapState
}.

Definition kDesktopSticky : N := 0xFFFFFFFF%N.

Definition getWindowDesktop (prop : option (list N)) : option N :=
  match prop with
  | None => None
  | Some [] => None
  | Some (desktop :: _) =>
      if decide (desktop = kDesktopSticky) then None else Some desktop
  end.

(** [collectWindows] over [clientList], the [_NET_CLIENT_LIST_STACKING]
    list ([list] in the source). *)
Fixpoint collectWindows (server : Window → WindowState) (desktop : Desktop)
    (clientList : list Window) : list Window :=
  match clientList with
  | [] => []
  | win :: rest =>
      let filtered := collectWindows server desktop rest in
      if ws_dockOrDesktop (server win) then filtered
      else
        match getWindowDesktop (ws_desktopProp (server win)) with
        | Some winDesktop =>
            if decide (winDesktop = desktop) then
              match ws_mapState (server win) with
              | None => filtered
              | Some IsViewable => win :: filtered
              | Some _ => filtered
              end
            else filtered
        | None => filtered
        end
  end.

(** ** Option parsing *)

Definition comma : Ascii.ascii := Ascii.ascii_of_nat 44.
Definition colon : Ascii.ascii := Ascii.ascii_of_nat 58.

(** A [std::stringstream] being read: the characters not yet extracted, or
    [None] once [eofbit] or [failbit] is set and nothing more can be
    extracted. *)
Abbreviation Stream := (option (list Ascii.ascii)).

(** The characters [std::getline(ss, token, ',')] extracts from a stream
    that still has some: the token, and the stream after it.  The delimiter
    is extracted and dropped; meeting the end of the input sets [eofbit]. *)
Fixpoint getline_chars (l : list Ascii.ascii) : list Ascii.ascii * Stream :=
  match l with
  | [] => ([], None)
  | c :: l' =>
      if decide (c = comma) then ([], Some l')
      else let '(token, ss) := getline_chars l' in (c :: token, ss)
  end.

(** [std::getline(ss, token, ',')]: it fails ([None]) on a stream that is
    no longer good and on one with nothing left to extract. *)
Definition getline (ss : Stream) : option (list Ascii.ascii * Stream) :=
  match ss with
  | None => None
  | Some [] => None
  | Some (c :: l) => Some (getline_chars (c :: l))
  end.

(** The two exceptions of [parseLayoutSpec]. *)
Inductive LayoutError :=
  | InvalidValue (token : list Ascii.ascii)
  | WrongFieldCount.

Section parsing.

(** [std::stoi] and [std::stoul] belong to the C++ library; they are taken
    as parameters, [None] standing for the exception thrown on a text they
    reject. *)
Variable stoi : list Ascii.ascii → option Z.
Variable stoul : list Ascii.ascii → option N.

(** [std::replace(normalized.begin(), normalized.end(), ':', ',')]. *)
Definition replaceColons (spec : list Ascii.ascii) : list Ascii.ascii :=
  (λ c, if decide (c = colon) then comma else c) <$> spec.

(** The loop [while (idx < 5 && std::getline(ss, token, ','))] of
    [parseLayoutSpec], with [n] standing for [5 - idx] and [values] for the
    entries filled so far. *)
Fixpoint readValues (n : nat) (ss : Stream) (values : list Z)
    : LayoutError + (list Z * Stream) :=
  match n with
  | O => inr (values, ss)
  | S n' =>
      match getline ss with
      | None => inr (values, None)
      | Some (token, ss') =>
          match stoi token with
          | None => inl (InvalidValue token)
          | Some v => readValues n' ss' (values ++ [v])
          end
      end
  end.

Definition parseLayoutSpec (spec : list Ascii.ascii)
    : LayoutError + DesktopLayout :=
  match readValues 5 (Some (replaceColons spec)) [] with
  | inl e => inl e
  | inr ([v0; v1; v2; v3; v4], ss) =>
      match getline ss with
      | Some _ => inl WrongFieldCount
      | None => inr {| marginTop := v0; marginRight := v1; marginBottom := v2;
                       marginLeft := v3; gap := v4 |}
      end
  | inr _ => inl WrongFieldCount
  end.

(** The loop [while (std::getline(ss, token, ','))] of [parseDesktopList];
    every turn extracts at least one character, so [fuel] larger than the
    number of characters left does not run out. *)
Fixpoint parseDesktopList_loop (fuel : nat) (ss : Stream) (result : gset N)
    : gset N :=
  match fuel with
  | O => result
  | S fuel' =>
      match getline ss with
      | None => result
      | Some (token, ss') =>
          if decide (token = []) then parseDesktopList_loop fuel' ss' result
          else
            match stoul token with
            | Some desktop =>
                parseDesktopList_loop fuel' ss' ({[desktop]} ∪ result)
            | None => parseDesktopList_loop fuel' ss' result
            end
      end
  end.

Definition parseDesktopList (value : list Ascii.ascii) : gset N :=
  parseDesktopList_loop (S (length value)) (Some value) ∅.

End parsing.

(** ** Command line *)

(** The source's [Config] holds, next to the fields the tiling code reads
    ([Config] above), four fields that only [parseArgs], [main] and the
    command channel use. [Options] is the whole structure. *)
Record Options := mkOptions {
  tiling : Config;
  daemon : bool;
  commandSocket : string;
  sendCommand : bool;
  opt_commandToSend : list Ascii.ascii
}.

(** A default-constructed [Config]. *)
Definition defaultOptions : Options :=
  {| tiling := mkConfig (mkLayout 0 0 0 0 0) (mkLayout 0 0 0 0 0) false ∅ ∅ 200;
     daemon := false;
     commandSocket := "/tmp/wmtiler.sock";
     sendCommand := false;
     opt_commandToSend := [] |}.

(** Assignments to single fields. *)
Definition set_marginLeft (v : Z) (l : DesktopLayout) : DesktopLayout :=
  mkLayout v (marginRight l) (marginTop l) (marginBottom l) (gap l).
Definition set_marginRight (v : Z) (l : DesktopLayout) : DesktopLayout :=
  mkLayout (marginLeft l) v (marginTop l) (marginBottom l) (gap l).
Definition set_marginTop (v : Z) (l : DesktopLayout) : DesktopLayout :=
  mkLayout (marginLeft l) (marginRight l) v (marginBottom l) (gap l).
Definition set_marginBottom (v : Z) (l : DesktopLayout) : DesktopLayout :=
  mkLayout (marginLeft l) (marginRight l) (marginTop l) v (gap l).
Definition set_gap (v : Z) (l : DesktopLayout) : DesktopLayout :=
  mkLayout (marginLeft l) (marginRight l) (marginTop l) (marginBottom l) v.

Definition set_defaults (f : DesktopLayout → DesktopLayout) (c : Config) : Config :=
  mkConfig (f (defaults c)) (tiledDefaults c) (hasTiledDefaults c)
           (perDesktop c) (tiledDesktops c) (debounce c).
Definition set_tiledDefaults (l : DesktopLayout) (c : Config) : Config :=
  mkConfig (defaults c) l true (perDesktop c) (tiledDesktops c) (debounce c).
Definition set_perDesktop (desk : N) (l : DesktopLayout) (c : Config) : Config :=
  mkConfig (defaults c) (tiledDefaults c) (hasTiledDefaults c)
           (<[desk := l]> (perDesktop c)) (tiledDesktops c) (debounce c).
Definition set_tiledDesktops (desktops : gset N) (c : Config) : Config :=
  mkConfig (defaults c) (tiledDefaults c) (hasTiledDefaults c)
           (perDesktop c) desktops (debounce c).

Definition set_tiling (f : Config → Config) (o : Options) : Options :=
  mkOptions (f (tiling o)) (daemon o) (commandSocket o) (sendCommand o)
            (opt_commandToSend o).
Definition set_daemon (o : Options) : Options :=
  mkOptions (tiling o) true (commandSocket o) (sendCommand o)
            (opt_commandToSend o).
Definition set_commandSocket (path : string) (o : Options) : Options :=
  mkOptions (tiling o) (daemon o) path (sendCommand o) (opt_commandToSend o).
Definition set_commandToSend (token : string) (o : Options) : Options :=
  mkOptions (tiling o) (daemon o) (commandSocket o) true
            (String.list_ascii_of_string token).

(** What leaves [parseArgs] other than by [return]: an exception ([fail]'s
    [std::runtime_error], the one of [parseLayoutSpec], the one of
    [std::stoul]) or [std::exit]. *)
Inductive Thrown :=
| RuntimeError (msg : string)
| LayoutSpecError (e : LayoutError)
| StoulError (text : list Ascii.ascii).

Inductive ArgsResult :=
| Parsed (cfg : Options)
| Throws (e : Thrown)
| Exits (code : Z).

(** [std::string::find] of one character, [npos] as [None]. *)
Fixpoint find_char (c : Ascii.ascii) (text : list Ascii.ascii) : option nat :=
  match text with
  | [] => None
  | a :: text' => if decide (a = c) then Some O else S <$> find_char c text'
  end.

Section command_line.
Variable stoi : list Ascii.ascii → option Z.
Variable stoul : list Ascii.ascii → option N.

(** [parseIntArg(value, out)]: the returned flag and the value [out] holds
    afterwards. A null [value] is [None]. *)
Definition parseIntArg (value : option string) (out : Z) : bool * Z :=
  match value with
  | None => (false, out)
  | Some text =>
      match stoi (String.list_ascii_of_string text) with
      | Some v => (true, v)
      | None => (false, out)
      end
  end.

(** The loop of [parseArgs] over [argv[i]], [argv[i+1]], ...: [args] are the
    arguments not yet read. *)
Fixpoint parseArgs_loop (args : list string) (cfg : Options) : ArgsResult :=
  match args with
  | [] => Parsed cfg
  | arg :: rest =>
      if decide (arg = "--daemon") then parseArgs_loop rest (set_daemon cfg)
      else if decide (arg = "--tile-desktops") then
        match rest with
        | [] => Throws (RuntimeError "--tile-desktops expects a comma-separated list")
        | value :: rest' =>
            parseArgs_loop rest'
              (set_tiling (set_tiledDesktops
                 (parseDesktopList stoul (String.list_ascii_of_string value))) cfg)
        end
      else if decide (arg = "--margin-x") then
        match rest with
        | [] => Throws (RuntimeError "Invalid value for --margin-x")
        | value :: rest' =>
            match parseIntArg (Some value) 0 with
            | (true, v) =>
                parseArgs_loop rest'
                  (set_tiling (set_defaults
                     (λ l, set_marginRight v (set_marginLeft v l))) cfg)
            | (false, _) => Throws (RuntimeError "Invalid value for --margin-x")
            end
        end
      else if decide (arg = "--margin-left") then
        match rest with
        | [] => Throws (RuntimeError "Invalid value for --margin-left")
        | value :: rest' =>
            match parseIntArg (Some value) (marginLeft (defaults (tiling cfg))) with
            | (true, v) =>
                parseArgs_loop rest' (set_tiling (set_defaults (set_marginLeft v)) cfg)
            | (false, _) => Throws (RuntimeError "Invalid value for --margin-left")
            end
        end
      else if decide (arg = "--margin-right") then
        match rest with
        | [] => Throws (RuntimeError "Invalid value for --margin-right")
        | value :: rest' =>
            match parseIntArg (Some value) (marginRight (defaults (tiling cfg))) with
            | (true, v) =>
                parseArgs_loop rest' (set_tiling (set_defaults (set_marginRight v)) cfg)
            | (false, _) => Throws (RuntimeError "Invalid value for --margin-right")
            end
        end
      else if decide (arg = "--margin-top") then
        match rest with
        | [] => Throws (RuntimeError "Invalid value for --margin-top")
        | value :: rest' =>
            match parseIntArg (Some value) (marginTop (defaults (tiling cfg))) with
            | (true, v) =>
                parseArgs_loop rest' (set_tiling (set_defaults (set_marginTop v)) cfg)
            | (false, _) => Throws (RuntimeError "Invalid value for --margin-top")
            end
        end
      else if decide (arg = "--margin-bottom") then
        match rest with
        | [] => Throws (RuntimeError "Invalid value for --margin-bottom")
        | value :: rest' =>
            match parseIntArg (Some value) (marginBottom (defaults (tiling cfg))) with
            | (true, v) =>
                parseArgs_loop rest' (set_tiling (set_defaults (set_marginBottom v)) cfg)
            | (false, _) => Throws (RuntimeError "Invalid value for --margin-bottom")
            end
        end
      else if decide (arg = "--gap") then
        match rest with
        | [] => Throws (RuntimeError "Invalid value for --gap")
        | value :: rest' =>
            match parseIntArg (Some value) (gap (defaults (tiling cfg))) with
            | (true, v) =>
                parseArgs_loop rest' (set_tiling (set_defaults (set_gap v)) cfg)
            | (false, _) => Throws (RuntimeError "Invalid value for --gap")
            end
        end
      else if decide (arg = "--desktop-default-config") then
        match rest with
        | [] => Throws (RuntimeError
                          "--desktop-default-config expects top,right,bottom,left,gap")
        | value :: rest' =>
            match parseLayoutSpec stoi (String.list_ascii_of_string value) with
            | inr layout =>
                parseArgs_loop rest' (set_tiling (set_tiledDefaults layout) cfg)
            | inl e => Throws (LayoutSpecError e)
            end
        end
      else if decide (arg = "--command-socket") then
        match rest with
        | [] => Throws (RuntimeError "--command-socket expects a path")
        | value :: rest' => parseArgs_loop rest' (set_commandSocket value cfg)
        end
      else if decide (arg = "--move-left") then
        parseArgs_loop rest (set_commandToSend "move-left" cfg)
      else if decide (arg = "--move-right") then
        parseArgs_loop rest (set_commandToSend "move-right" cfg)
      else if decide (arg = "--desktop-config") then
        match rest with
        | [] => Throws (RuntimeError
                          "--desktop-config expects N:top,right,bottom,left,gap")
        | value :: rest' =>
            let value := String.list_ascii_of_string value in
            match find_char colon value with
            | None => Throws (RuntimeError
                        "Format for --desktop-config is N:top,right,bottom,left,gap")
            | Some pos =>
                let deskStr := take pos value in
                let layoutStr := drop (S pos) value in
                match stoul deskStr with
                | None => Throws (StoulError deskStr)
                | Some desk =>
                    match parseLayoutSpec stoi layoutStr with
                    | inr layout =>
                        parseArgs_loop rest' (set_tiling (set_perDesktop desk layout) cfg)
                    | inl e => Throws (LayoutSpecError e)
                    end
                end
            end
        end
      else if decide (arg = "--help" ∨ arg = "-h") then Exits 0
      else Exits 1
  end.

(** [parseArgs(argc, argv)]: the loop starts behind [argv[0]]. *)
Definition parseArgs (argv : list string) : ArgsResult :=
  parseArgs_loop (tail argv) defaultOptions.

(** What [main] goes on to do with the arguments: hand the command to
    [sendIpcCommand] (whose result decides between the codes 0 and 1), run
    the daemon or tile once (and return 0 afterwards), or end at once with a
    code. [display] says whether [XOpenDisplay] gave a connection, [total]
    is the desktop count [defaultTiledDesktops] reads. *)
Inductive MainStep :=
| SendIpc (socket : string) (token : list Ascii.ascii)
| StartDaemon (cfg : Config)
| StartOnce (cfg : Config)
| Return (code : Z).

Definition main (argv : list string) (display : bool) (total : option N)
    : MainStep :=
  match parseArgs argv with
  | Exits code => Return code
  | Throws _ => Return 1
  | Parsed cfg =>
      if sendCommand cfg then
        if daemon cfg then Return 1
        else SendIpc (commandSocket cfg) (opt_commandToSend cfg)
      else if negb display then Return 1
      else
        let cfg' := startupConfig (tiling cfg) total in
        if daemon cfg then StartDaemon cfg' else StartOnce cfg'
  end.

End command_line.

(** * Vocabulary of the properties *)

(** Sum of a list of integers. *)
Definition sumZ (l : list Z) : Z := foldr Z.add 0 l.

(** Rows of three, then the windows left over. *)
Definition rowsOfThree (count : Z) : list Z :=
  replicate (Z.to_nat (count `div` 3)) 3
  ++ (if bool_decide (count `mod` 3 = 0) then [] else [count `mod` 3]).

(** The first occurrences of a list, in order. *)
Fixpoint firsts (l : list Window) : list Window :=
  match l with
  | [] => []
  | w :: l' => w :: filter (λ v, v ≠ w) (firsts l')
  end.

(** The tail of [moveActiveWindow] after a swap: the new order is stored
    and the desktop is tiled again. *)
Definition storeAndRetile (screenW screenH : Z) (desktop : Desktop) (cfg : Config)
    (windows' : list Window) (ordered' : list Window) (reg1 : Registry)
    : bool * Registry * Applied :=
  let r := tileWindows screenW screenH desktop (layoutForDesktop cfg desktop)
                       windows' (<[desktop := ordered']> reg1) in
  (true, r.1, r.2).

(** The order [moveActiveWindow] works on, and the registry holding it:
    the desktop is reconciled against the observed windows first (its entry
    is erased when none is observed). *)
Definition reconciled (desktop : Desktop) (windows : list Window)
    (reg : Registry) : list Window * Registry :=
  match windows with
  | [] => ([], delete desktop reg)
  | _ :: _ => stableOrder desktop windows reg
  end.

(** Every stored order is duplicate-free and non-empty. *)
Definition wellFormed (reg : Registry) : Prop :=
  ∀ g o, reg !! g = Some o → NoDup o ∧ o ≠ [].

(** The clock value of the last structural event of a batch, if any. *)
Definition lastNotification (events : list XEvent) : option Z :=
  snd <$> last (filter (λ ev, isStructural ev.1) events).

(** The clock value of the first iteration whose check is at or after
    [due]. *)
Definition firstDue (due : Z) (ticks : list Tick) : option Z :=
  head (filter (λ c, due <= c) (tick_now <$> ticks)).

(** Iterations that see no structural event. *)
Definition quietTick (tk : Tick) : Prop :=
  lastNotification (tick_events tk) = None.

(** Iterations inside the debounce interval [d] that starts at [lo]: their
    structural events are not older than [lo] and their check comes before
    [lo + d]. *)
Definition burstTick (d lo : Z) (tk : Tick) : Prop :=
  tick_now tk < lo + d
  ∧ Forall (λ ev : XEvent, isStructural ev.1 → lo <= ev.2) (tick_events tk).

(** A pending due time that was set at or after [lo]. *)
Definition pendingSince (d lo : Z) (s : option Z) : Prop :=
  ∀ due, s = Some due → lo + d <= due.

(** [emitRow] without its counter: one rectangle per width, left to
    right. *)
Fixpoint rowRects (layout : DesktopLayout) (y0 h x0 : Z) (widths : list Z)
    : list Rect :=
  match widths with
  | [] => []
  | w :: widths' =>
      mkRect x0 y0 w h
      :: rowRects layout y0 h (Int.add x0 (Int.add w (gap layout))) widths'
  end.

(** The column widths [computePositions] gives a row of [cols] columns. *)
Definition rowWidths (layout : DesktopLayout) (usableWidth cols : Z) : list Z :=
  let rowWidth := Int.sub usableWidth (Int.mul (gap layout) (Int.sub cols 1)) in
  distribute (if bool_decide (rowWidth < 0) then 0 else rowWidth) cols.

(** [emitRows] without its counter: the rows one below the other. *)
Fixpoint gridRects (layout : DesktopLayout) (usableWidth : Z)
    (rowHeights : list Z) (rowIdx : nat) (y0 : Z) (rows : list Z) : list Rect :=
  match rows with
  | [] => []
  | r :: rows' =>
      rowRects layout y0 (rowHeights !!! rowIdx) (marginLeft layout)
               (rowWidths layout usableWidth r)
      ++ gridRects layout usableWidth rowHeights (S rowIdx)
                   (Int.add y0 (Int.add (rowHeights !!! rowIdx) (gap layout)))
                   rows'
  end.

(** The usable width and the row heights computed by [computePositions]. *)
Definition usableWidthOf (screenW : Z) (layout : DesktopLayout) : Z :=
  Z.max 0 (Int.sub (Int.sub screenW (marginLeft layout)) (marginRight layout)).

Definition rowHeightsOf (screenH : Z) (layout : DesktopLayout) (rows : list Z)
    : list Z :=
  let totalVertical :=
    Z.max 0 (Int.sub (Int.sub screenH (marginTop layout)) (marginBottom layout)) in
  let usableHeight :=
    Int.sub totalVertical
            (Int.mul (gap layout) (Int.of_size (SizeT.sub (SizeT.size rows) 1))) in
  distribute (if bool_decide (usableHeight < 0) then 0 else usableHeight)
             (Int.of_size (SizeT.size rows)).

(** A layout whose margins and gaps leave room on the screen: nothing is
    negative, two gaps fit beside the side margins, the gaps between the
    [(count + 2) / 3] rows fit between the top and bottom margins, and the
    screen size plus one gap is an [int]. *)
Record fits (count screenW screenH : Z) (layout : DesktopLayout) : Prop := {
  fits_count : 0 < count <= Int.max_int;
  fits_left : 0 <= marginLeft layout;
  fits_right : 0 <= marginRight layout;
  fits_top : 0 <= marginTop layout;
  fits_bottom : 0 <= marginBottom layout;
  fits_gap : 0 <= gap layout;
  fits_width : marginLeft layout + marginRight layout + 2 * gap layout <= screenW;
  fits_height :
    marginTop layout + marginBottom layout
    + gap layout * ((count + 2) `div` 3 - 1) <= screenH;
  fits_screenW : screenW + gap layout <= Int.max_int;
  fits_screenH : screenH + gap layout <= Int.max_int
}.

(** The rectangle lies between the margins of the screen. *)
Definition insideMargins (screenW screenH : Z) (layout : DesktopLayout)
    (r : Rect) : Prop :=
  marginLeft layout <= x r
  ∧ x r + width r <= screenW - marginRight layout
  ∧ marginTop layout <= y r
  ∧ y r + height r <= screenH - marginBottom layout.

(** [b] comes after [a] in the grid: further right in the same row or in a
    lower row, at least one gap away. *)
Definition placedAfter (layout : DesktopLayout) (a b : Rect) : Prop :=
  (y a = y b ∧ height a = height b ∧ x a + width a + gap layout <= x b)
  ∨ y a + height a + gap layout <= y b.

(** [b] is the rectangle emitted right after [a]: the next column of the
    same row, exactly one gap to the right; or the first column of the next
    row, exactly one gap below, [a] ending at the right margin. *)
Definition follows (screenW : Z) (layout : DesktopLayout) (a b : Rect) : Prop :=
  (y b = y a ∧ height b = height a ∧ x b = x a + width a + gap layout)
  ∨ (x a + width a = screenW - marginRight layout
     ∧ x b = marginLeft layout
     ∧ y b = y a + height a + gap layout).

(** [R] holds between every element and the next one. *)
Definition chained {A} (R : A → A → Prop) (l : list A) : Prop :=
  ∀ i a b, l !! i = Some a → l !! S i = Some b → R a b.

(** Sample configuration. *)
Definition layout0 : DesktopLayout := mkLayout 0 0 0 0 0.

Definition config0 : Config := mkConfig layout0 layout0 false ∅ ∅ 200.

(** A configuration that tiles desktops 1 and 2. *)
Definition config12 : Config :=
  mkConfig layout0 layout0 false ∅ {[1%N; 2%N]} 200.

(** The iterations of the control loop that take a structural event. *)
Definition notifiedTicks (ticks : list Tick) : list Tick :=
  filter (λ tk, is_Some (lastNotification (tick_events tk))) ticks.

(** A message the listener takes for the command [ty]: its bytes up to the
    first NUL are the command's token with whitespace around it. *)
Definition messageFor (data : list Ascii.ascii) (ty : CommandType) : Prop :=
  ∃ ws1 ws2,
    Forall (λ c, isspace c) ws1 ∧ Forall (λ c, isspace c) ws2
    ∧ c_str data = ws1 ++ commandToSend ty ++ ws2.

(** A window [collectWindows] keeps for [desktop]: not a dock or desktop
    window, on that desktop (and the desktop number is not the sticky
    marker), with readable attributes that say it is viewable. *)
Definition eligible (server : Window → WindowState) (desktop : Desktop)
    (w : Window) : Prop :=
  ws_dockOrDesktop (server w) = false
  ∧ (∃ others, ws_desktopProp (server w) = Some (desktop :: others))
  ∧ desktop ≠ kDesktopSticky
  ∧ ws_mapState (server w) = Some IsViewable.

(** A sample X server: window 10 is a viewable window of desktop 1,
    window 11 a dock, window 12 is on desktop 2, window 13 is sticky,
    window 14 is unmapped, and nothing can be read about the others. *)
Definition sampleServer (w : Window) : WindowState :=
  if decide (w = 10%N) then mkWindowState false (Some [1%N]) (Some IsViewable)
  else if decide (w = 11%N) then mkWindowState true (Some [1%N]) (Some IsViewable)
  else if decide (w = 12%N) then mkWindowState false (Some [2%N]) (Some IsViewable)
  else if decide (w = 13%N)
       then mkWindowState false (Some [kDesktopSticky]) (Some IsViewable)
  else if decide (w = 14%N) then mkWindowState false (Some [1%N]) (Some IsUnmapped)
  else mkWindowState false None None.

(** The fields of a comma-separated text, as successive [std::getline]
    calls return them: an empty piece after the last comma is no field. *)
Fixpoint fieldsOf (l : list Ascii.ascii) : list (list Ascii.ascii) :=
  match l with
  | [] => []
  | c :: l' =>
      if decide (c = comma) then [] :: fieldsOf l'
      else match fieldsOf l' with
           | [] => [[c]]
           | f :: fs => (c :: f) :: fs
           end
  end.

(** The fields a stream still holds. *)
Definition streamFields (ss : Stream) : list (list Ascii.ascii) :=
  match ss with
  | None => []
  | Some l => fieldsOf l
  end.

(** Fields written one after the other with commas between them. *)
Fixpoint joinFields (fields : list (list Ascii.ascii)) : list Ascii.ascii :=
  match fields with
  | [] => []
  | [f] => f
  | f :: fields' => f ++ comma :: joinFields fields'
  end.

(** A sample number parser for one- and two-digit texts. *)
Definition digitValue (c : Ascii.ascii) : option Z :=
  let n := Ascii.nat_of_ascii c in
  if bool_decide (48 <= n <= 57)%nat then Some (Z.of_nat n - 48) else None.

Definition sampleStoi (text : list Ascii.ascii) : option Z :=
  match text with
  | [c] => digitValue c
  | [c1; c2] =>
      match digitValue c1, digitValue c2 with
      | Some a, Some b => Some (10 * a + b)
      | _, _ => None
      end
  | _ => None
  end.

Definition sampleStoul (text : list Ascii.ascii) : option N :=
  Z.to_N <$> sampleStoi text.

(** The number of [std::getline] calls a stream can still answer is below
    this size. *)
Definition streamSize (ss : Stream) : nat :=
  match ss with
  | None => 0
  | Some l => S (length l)
  end.

(** A separator of a layout specification. *)
Definition isSeparator (c : Ascii.ascii) : Prop := c = comma ∨ c = colon.

(** A text that holds no separator. *)
Definition plainToken (f : list Ascii.ascii) : Prop :=
  (comma ∉ f) ∧ (colon ∉ f).

(** * Properties *)

(** ** Machine integers *)

Lemma wrap_in_range (z : Z) : Int.in_range z → Int.wrap z = z.
Proof.
  unfold Int.in_range, Int.min_int, Int.max_int, Int.wrap. intros Hz.
  rewrite Z.mod_small; lia.
Qed.

Lemma sumZ_app (l k : list Z) : sumZ (l ++ k) = sumZ l + sumZ k.
Proof. induction l as [|a l IH]; simpl; lia. Qed.

Lemma sumZ_replicate (n : nat) (a : Z) : sumZ (replicate n a) = Z.of_nat n * a.
Proof. induction n as [|n IH]; simpl; lia. Qed.

(** ** distribute *)

Lemma distribute_empty (total slots : Z) : slots <= 0 → distribute total slots = [].
Proof. intros H. unfold distribute. by rewrite bool_decide_eq_true_2. Qed.

(** On a non-negative total no operation of [distribute] overflows. *)
Lemma distribute_nonneg (total slots : Z) :
  0 <= total <= Int.max_int → 0 < slots <= Int.max_int →
  distribute total slots =
    (λ i, total `div` slots + (if bool_decide (i < total `mod` slots) then 1 else 0))
      <$> seqZ 0 slots.
Proof.
  unfold Int.max_int. intros Ht Hs. unfold distribute.
  rewrite bool_decide_eq_false_2 by lia.
  pose proof (Z.div_mod total slots ltac:(lia)) as Hdm.
  pose proof (Z.mod_pos_bound total slots ltac:(lia)) as Hmod.
  assert (0 <= total `div` slots) as Hq0 by (apply Z.div_pos; lia).
  assert (slots * (total `div` slots) <= total) as Hmul by lia.
  assert (total `div` slots <= total) as Hq1 by nia.
  assert (Int.div total slots = total `div` slots) as ->.
  { unfold Int.div. rewrite Z.quot_div_nonneg by lia.
    apply wrap_in_range. unfold Int.in_range, Int.min_int, Int.max_int. lia. }
  assert (Int.mul (total `div` slots) slots = total `div` slots * slots) as ->.
  { apply wrap_in_range. unfold Int.in_range, Int.min_int, Int.max_int. lia. }
  assert (Int.sub total (total `div` slots * slots) = total `mod` slots) as ->.
  { unfold Int.sub. rewrite wrap_in_range;
      unfold Int.in_range, Int.min_int, Int.max_int; lia. }
  apply list_fmap_ext. intros i j Hj%lookup_seqZ.
  apply wrap_in_range. unfold Int.in_range, Int.min_int, Int.max_int.
  case_bool_decide; [nia | lia].
Qed.

Lemma sumZ_distribute_prefix (q r : Z) (n : nat) :
  0 <= r →
  sumZ ((λ i, q + (if bool_decide (i < r) then 1 else 0)) <$> seqZ 0 (Z.of_nat n))
  = q * Z.of_nat n + Z.min r (Z.of_nat n).
Proof.
  intros Hr. induction n as [|n IH].
  - simpl. lia.
  - rewrite seqZ_S, fmap_app, sumZ_app, IH. simpl.
    case_bool_decide; lia.
Qed.

(** ** buildRows *)

Lemma sub_small (a b : Z) : 0 <= b <= a → a <= Int.max_int → Int.sub a b = a - b.
Proof.
  intros ? ?. apply wrap_in_range.
  unfold Int.in_range, Int.min_int, Int.max_int in *. lia.
Qed.

Lemma buildRows_loop_spec (remaining : Z) (rows : list Z) :
  0 <= remaining <= Int.max_int →
  buildRows_loop remaining rows = rows ++ rowsOfThree remaining.
Proof.
  intros [H0 Hmax]. generalize H0. revert rows Hmax.
  pattern remaining. apply Z_lt_induction; [|lia].
  clear remaining H0. intros n IH rows Hmax Hn.
  rewrite buildRows_loop_equation_1.
  destruct (decide (0 < n)) as [Hpos|Hneg]; cbn [buildRows_loop_unfold_clause_1].
  - unfold nextCols. case_bool_decide as H3.
    + rewrite sub_small by lia. rewrite IH by lia.
      rewrite <- app_assoc. f_equal. unfold rowsOfThree.
      assert (n `div` 3 = (n - 3) `div` 3 + 1) as ->.
      { rewrite <- (Z.div_add (n - 3) 1 3) by lia. f_equal. lia. }
      assert (n `mod` 3 = (n - 3) `mod` 3) as ->.
      { rewrite <- (Z.mod_add (n - 3) 1 3) by lia. f_equal. lia. }
      assert (0 <= (n - 3) `div` 3) by (apply Z.div_pos; lia).
      rewrite Z2Nat.inj_add, Nat.add_1_r, replicate_S by lia.
      reflexivity.
    + rewrite sub_small by lia. rewrite IH by lia.
      rewrite <- app_assoc. f_equal. unfold rowsOfThree.
      rewrite Z.sub_diag. rewrite (Z.div_small n), (Z.mod_small n) by lia.
      simpl. rewrite bool_decide_eq_false_2 by lia. reflexivity.
  - assert (n = 0) as -> by lia. unfold rowsOfThree. simpl.
    by rewrite app_nil_r.
Qed.

Lemma buildRows_default (count : Z) :
  count < 1 ∨ 6 < count → buildRows count = buildRows_loop count [].
Proof.
  intros H. unfold buildRows.
  destruct count as [|p|p]; try reflexivity.
  destruct p as [[[]|[]|]|[[]|[]|]|]; try reflexivity; lia.
Qed.

Lemma sumZ_rowsOfThree (n : Z) : 0 <= n → sumZ (rowsOfThree n) = n.
Proof.
  intros Hn. unfold rowsOfThree. rewrite sumZ_app, sumZ_replicate.
  assert (0 <= n `div` 3) by (apply Z.div_pos; lia).
  rewrite Z2Nat.id by lia.
  pose proof (Z.div_mod n 3 ltac:(lia)).
  case_bool_decide; simpl; lia.
Qed.

(** ** stableOrder *)

Lemma elem_of_firsts (l : list Window) (w : Window) : w ∈ firsts l ↔ w ∈ l.
Proof.
  induction l as [|a l IH]; simpl; [done|].
  rewrite !elem_of_cons, list_elem_of_filter, IH.
  destruct (decide (w = a)); naive_solver.
Qed.

Lemma NoDup_firsts (l : list Window) : NoDup (firsts l).
Proof.
  induction l as [|a l IH]; simpl; constructor.
  - rewrite list_elem_of_filter. naive_solver.
  - by apply NoDup_filter.
Qed.

Lemma filter_all (P : Window → Prop) `{!∀ w, Decision (P w)} (l : list Window) :
  (∀ w, w ∈ l → P w) → filter P l = l.
Proof.
  induction l as [|a l IH]; intros Hall; [done|].
  rewrite filter_cons_True by (apply Hall; left).
  f_equal. apply IH. intros w Hw. apply Hall. by right.
Qed.

Lemma filter_none (P : Window → Prop) `{!∀ w, Decision (P w)} (l : list Window) :
  (∀ w, w ∈ l → ¬ P w) → filter P l = [].
Proof.
  induction l as [|a l IH]; intros Hall; [done|].
  rewrite filter_cons_False by (apply Hall; left).
  apply IH. intros w Hw. apply Hall. by right.
Qed.

Lemma filter_ext_in (P Q : Window → Prop)
    `{!∀ w, Decision (P w), !∀ w, Decision (Q w)} (l : list Window) :
  (∀ w, w ∈ l → P w ↔ Q w) → filter P l = filter Q l.
Proof.
  induction l as [|a l IH]; intros Hall; [done|].
  assert (filter P l = filter Q l) as Hl.
  { apply IH. intros w Hw. apply Hall. by right. }
  destruct (decide (P a)) as [Ha|Ha].
  - rewrite !filter_cons_True; [by rewrite Hl | by apply Hall; [left|] | done].
  - rewrite !filter_cons_False; [done | | done].
    intros HQ. apply Ha, Hall; [left | done].
Qed.

Lemma firsts_NoDup (l : list Window) : NoDup l → firsts l = l.
Proof.
  induction 1 as [|a l Ha Hl IH]; simpl; [done|].
  rewrite IH. f_equal. apply filter_all. intros w Hw ->. done.
Qed.

Lemma filter_firsts (P : Window → Prop) `{!∀ w, Decision (P w)} (l : list Window) :
  filter P (firsts l) = firsts (filter P l).
Proof.
  induction l as [|a l IH]; simpl; [done|].
  destruct (decide (P a)) as [Ha|Ha].
  - rewrite !filter_cons_True by done. simpl. f_equal.
    rewrite <- IH, !list_filter_filter.
    apply list_filter_iff. naive_solver.
  - rewrite !filter_cons_False by done.
    rewrite <- IH, list_filter_filter.
    apply list_filter_iff. intros w. split; [naive_solver|].
    intros Hw. split; [done|]. by intros ->.
Qed.

(** What one loop of [stableOrder] computes. *)
Lemma eraseAndPush_spec (wins : list Window) (remaining : gset Window)
    (result : list Window) :
  eraseAndPush wins remaining result =
    (remaining ∖ list_to_set wins,
     result ++ firsts (filter (λ w, w ∈ remaining) wins)).
Proof.
  revert remaining result.
  induction wins as [|win wins IH]; intros remaining result; simpl.
  - rewrite app_nil_r. f_equal. set_solver.
  - destruct (decide (win ∈ remaining)) as [Hin|Hin].
    + rewrite IH, filter_cons_True by done. simpl.
      rewrite <- app_assoc. simpl. f_equal; [set_solver|].
      do 2 f_equal. rewrite filter_firsts, list_filter_filter. f_equal.
      apply list_filter_iff. set_solver.
    + rewrite IH, filter_cons_False by done. f_equal. set_solver.
Qed.

(** The order [stableOrder] returns, for any stored order and any observed
    list: the first occurrences of the stored windows that are observed,
    then the first occurrences of the observed windows that are not stored. *)
Lemma stableOrder_result (desktop : Desktop) (current : list Window)
    (reg : Registry) :
  (stableOrder desktop current reg).1 =
    firsts (filter (λ w, w ∈ current) (default [] (reg !! desktop)))
    ++ firsts (filter (λ w, w ∉ default [] (reg !! desktop)) current).
Proof.
  unfold stableOrder. rewrite !eraseAndPush_spec. simpl. f_equal.
  - f_equal. apply list_filter_iff. intros w. apply elem_of_list_to_set.
  - f_equal. apply filter_ext_in. intros w Hw.
    rewrite elem_of_difference, !elem_of_list_to_set. naive_solver.
Qed.

Lemma stableOrder_registry (desktop : Desktop) (current : list Window)
    (reg : Registry) :
  (stableOrder desktop current reg).2 =
    <[desktop := (stableOrder desktop current reg).1]> reg.
Proof. unfold stableOrder. rewrite !eraseAndPush_spec. reflexivity. Qed.

Lemma stableOrder_NoDup (desktop : Desktop) (current : list Window)
    (reg : Registry) :
  NoDup (stableOrder desktop current reg).1.
Proof.
  rewrite stableOrder_result. apply NoDup_app. split_and!.
  - apply NoDup_firsts.
  - intros w. rewrite !elem_of_firsts, !list_elem_of_filter. naive_solver.
  - apply NoDup_firsts.
Qed.

Lemma stableOrder_elem_of (desktop : Desktop) (current : list Window)
    (reg : Registry) (w : Window) :
  w ∈ (stableOrder desktop current reg).1 ↔ w ∈ current.
Proof.
  rewrite stableOrder_result, elem_of_app, !elem_of_firsts, !list_elem_of_filter.
  destruct (decide (w ∈ default [] (reg !! desktop))); naive_solver.
Qed.

(** With duplicate-free lists the first occurrences are the lists themselves. *)
Lemma stableOrder_NoDup_result (desktop : Desktop) (current : list Window)
    (reg : Registry) :
  NoDup (default [] (reg !! desktop)) → NoDup current →
  (stableOrder desktop current reg).1 =
    filter (λ w, w ∈ current) (default [] (reg !! desktop))
    ++ filter (λ w, w ∉ default [] (reg !! desktop)) current.
Proof.
  intros Hs Hc. rewrite stableOrder_result.
  rewrite !firsts_NoDup by (by apply NoDup_filter). reflexivity.
Qed.

(** Reconciling an order against the windows it already holds changes
    nothing. *)
Lemma stableOrder_same_members (desktop : Desktop) (current order : list Window)
    (reg : Registry) :
  reg !! desktop = Some order → NoDup order →
  (∀ w, w ∈ current ↔ w ∈ order) →
  stableOrder desktop current reg = (order, reg).
Proof.
  intros Hreg Hnd Hmem.
  rewrite (surjective_pairing (stableOrder desktop current reg)).
  rewrite stableOrder_registry, stableOrder_result, Hreg. simpl.
  rewrite filter_all by (intros w Hw; by apply Hmem).
  rewrite filter_none by (intros w Hw; rewrite <- Hmem; tauto).
  simpl. rewrite app_nil_r, firsts_NoDup by done.
  by rewrite insert_id.
Qed.

(** ** Reordering *)

Lemma iter_swap_forward (pre post : list Window) (a b : Window) :
  iter_swap (length pre) (S (length pre)) (pre ++ a :: b :: post)
  = pre ++ b :: a :: post.
Proof.
  unfold iter_swap.
  rewrite list_lookup_middle by done.
  rewrite (lookup_app_r pre) by lia.
  replace (S (length pre) - length pre)%nat with 1%nat by lia. simpl.
  rewrite !insert_app_r_alt by lia.
  replace (S (length pre) - length pre)%nat with 1%nat by lia.
  by rewrite Nat.sub_diag.
Qed.

Lemma iter_swap_backward (pre post : list Window) (a b : Window) :
  iter_swap (S (length pre)) (length pre) (pre ++ b :: a :: post)
  = pre ++ a :: b :: post.
Proof.
  unfold iter_swap.
  rewrite (list_lookup_middle pre (a :: post) b (length pre)) by done.
  rewrite (lookup_app_r pre) by lia.
  replace (S (length pre) - length pre)%nat with 1%nat by lia. simpl.
  rewrite !insert_app_r_alt by lia.
  replace (S (length pre) - length pre)%nat with 1%nat by lia.
  by rewrite Nat.sub_diag.
Qed.

(** [std::find] stops at the first occurrence. *)
Lemma find_first (pre rest : list Window) (a : Window) :
  a ∉ pre → list_find (λ w, w = a) (pre ++ a :: rest) = Some (length pre, a).
Proof.
  intros Hpre. apply list_find_Some. split_and!.
  - by apply list_lookup_middle.
  - done.
  - intros j v Hj Hlt ->. apply Hpre.
    rewrite lookup_app_l in Hj by done. by eapply list_elem_of_lookup_2.
Qed.

Lemma find_absent (l : list Window) (a : Window) :
  a ∉ l → list_find (λ w, w = a) l = None.
Proof.
  intros Ha. apply list_find_None. apply Forall_forall. by intros w Hw ->.
Qed.

Section move.
Variables (screenW screenH : Z) (desktop : Desktop) (cfg : Config).
Variables (w0 : Window) (ws : list Window) (a : Window).
Variables (windows' : list Window) (reg : Registry).

Let ordered := (stableOrder desktop (w0 :: ws) reg).1.
Let reg1 := (stableOrder desktop (w0 :: ws) reg).2.
Let move forward :=
  moveActiveWindow screenW screenH desktop cfg forward (w0 :: ws) (Some a)
                   windows' reg.

Lemma moveActiveWindow_unfold (forward : bool) :
  move forward =
    match list_find (λ w, w = a) ordered with
    | None => (false, reg1, [])
    | Some (i, _) =>
        if forward then
          if bool_decide (S i = length ordered) then (false, reg1, [])
          else storeAndRetile screenW screenH desktop cfg windows'
                              (iter_swap i (S i) ordered) reg1
        else
          if bool_decide (i = 0%nat) then (false, reg1, [])
          else storeAndRetile screenW screenH desktop cfg windows'
                              (iter_swap i (Nat.pred i) ordered) reg1
    end.
Proof.
  subst move ordered reg1. unfold moveActiveWindow, storeAndRetile.
  destruct (stableOrder desktop (w0 :: ws) reg) as [o r1]. simpl.
  destruct (list_find (λ w, w = a) o) as [[i v]|]; [|done].
  destruct forward; case_bool_decide; try done;
    by destruct (tileWindows _ _ _ _ _ _).
Qed.

Lemma move_absent (forward : bool) :
  a ∉ ordered → move forward = (false, reg1, []).
Proof.
  intros Ha. rewrite moveActiveWindow_unfold. by rewrite find_absent.
Qed.

Lemma move_first_backward (post : list Window) :
  ordered = a :: post → move false = (false, reg1, []).
Proof.
  intros Ho. rewrite moveActiveWindow_unfold, Ho.
  change (a :: post) with ([] ++ a :: post).
  by rewrite (find_first [] post a (not_elem_of_nil a)).
Qed.

Lemma move_last_forward (pre : list Window) :
  ordered = pre ++ [a] → a ∉ pre → move true = (false, reg1, []).
Proof.
  intros Ho Hpre. rewrite moveActiveWindow_unfold, Ho.
  rewrite find_first by done.
  rewrite bool_decide_eq_true_2; [done|].
  rewrite length_app. simpl. lia.
Qed.

Lemma move_swap_forward (pre post : list Window) (b : Window) :
  ordered = pre ++ a :: b :: post → a ∉ pre →
  move true = storeAndRetile screenW screenH desktop cfg windows'
                             (pre ++ b :: a :: post) reg1.
Proof.
  intros Ho Hpre. rewrite moveActiveWindow_unfold, Ho.
  rewrite find_first by done.
  rewrite bool_decide_eq_false_2 by (rewrite length_app; simpl; lia).
  by rewrite iter_swap_forward.
Qed.

Lemma move_swap_backward (pre post : list Window) (b : Window) :
  ordered = pre ++ b :: a :: post → a ∉ pre → a ≠ b →
  move false = storeAndRetile screenW screenH desktop cfg windows'
                              (pre ++ a :: b :: post) reg1.
Proof.
  intros Ho Hpre Hab. rewrite moveActiveWindow_unfold, Ho.
  replace (pre ++ b :: a :: post) with ((pre ++ [b]) ++ a :: post)
    by (by rewrite <- app_assoc).
  rewrite find_first by (rewrite elem_of_app, list_elem_of_singleton; tauto).
  rewrite length_app, Nat.add_1_r.
  rewrite bool_decide_eq_false_2 by done. simpl.
  rewrite <- app_assoc. simpl. by rewrite iter_swap_backward.
Qed.

End move.

Lemma adjacent_split (l : list Window) (i : nat) (a b : Window) :
  l !! i = Some a → l !! S i = Some b →
  ∃ pre post, l = pre ++ a :: b :: post ∧ length pre = i.
Proof.
  intros Ha Hb. exists (take i l), (drop (S (S i)) l). split.
  - rewrite <- (drop_S l b (S i)), <- (drop_S l a i) by done.
    by rewrite take_drop.
  - apply lookup_lt_Some in Ha. rewrite length_take. lia.
Qed.

Lemma iter_swap_adjacent_perm (l : list Window) (i : nat) :
  iter_swap i (S i) l ≡ₚ l ∧ iter_swap (S i) i l ≡ₚ l.
Proof.
  destruct (l !! i) as [a|] eqn:Ha; [|by unfold iter_swap; rewrite Ha; destruct (l !! S i)].
  destruct (l !! S i) as [b|] eqn:Hb; [|by unfold iter_swap; rewrite Ha, Hb].
  destruct (adjacent_split l i a b Ha Hb) as (pre & post & -> & <-).
  rewrite iter_swap_forward, iter_swap_backward.
  split; apply Permutation_app_head, perm_swap.
Qed.

(** ** The registry between two operations *)

Lemma wellFormed_empty : wellFormed ∅.
Proof. intros g o Hg. by rewrite lookup_empty in Hg. Qed.

Lemma wellFormed_delete (desktop : Desktop) (reg : Registry) :
  wellFormed reg → wellFormed (delete desktop reg).
Proof.
  intros Hreg g o Hg. apply lookup_delete_Some in Hg as [_ Hg].
  exact (Hreg g o Hg).
Qed.

Lemma wellFormed_insert (desktop : Desktop) (order : list Window) (reg : Registry) :
  NoDup order → order ≠ [] → wellFormed reg →
  wellFormed (<[desktop := order]> reg).
Proof.
  intros Hnd Hne Hreg g o Hg.
  apply lookup_insert_Some in Hg as [[_ <-]|[_ Hg]]; [done|exact (Hreg g o Hg)].
Qed.

Lemma stableOrder_nonempty (desktop : Desktop) (w0 : Window) (ws : list Window)
    (reg : Registry) :
  (stableOrder desktop (w0 :: ws) reg).1 ≠ [].
Proof.
  intros Hnil.
  assert (w0 ∈ (stableOrder desktop (w0 :: ws) reg).1) as Hin
    by (apply stableOrder_elem_of; left).
  rewrite Hnil in Hin. by apply not_elem_of_nil in Hin.
Qed.

Lemma stableOrder_wellFormed (desktop : Desktop) (w0 : Window) (ws : list Window)
    (reg : Registry) :
  wellFormed reg → wellFormed (stableOrder desktop (w0 :: ws) reg).2.
Proof.
  intros Hreg. rewrite stableOrder_registry.
  apply wellFormed_insert; [apply stableOrder_NoDup|apply stableOrder_nonempty|done].
Qed.

Lemma tileWindows_registry (screenW screenH : Z) (desktop : Desktop)
    (layout : DesktopLayout) (windows : list Window) (reg : Registry) :
  (tileWindows screenW screenH desktop layout windows reg).1 =
    match windows with
    | [] => delete desktop reg
    | _ :: _ => (stableOrder desktop windows reg).2
    end.
Proof.
  unfold tileWindows. destruct windows as [|w0 ws]; [done|].
  by destruct (stableOrder desktop (w0 :: ws) reg).
Qed.

Lemma tileWindows_wellFormed (screenW screenH : Z) (desktop : Desktop)
    (layout : DesktopLayout) (windows : list Window) (reg : Registry) :
  wellFormed reg →
  wellFormed (tileWindows screenW screenH desktop layout windows reg).1.
Proof.
  intros Hreg. rewrite tileWindows_registry. destruct windows as [|w0 ws].
  - by apply wellFormed_delete.
  - by apply stableOrder_wellFormed.
Qed.

Lemma moveActiveWindow_wellFormed (screenW screenH : Z) (desktop : Desktop)
    (cfg : Config) (forward : bool) (windows : list Window)
    (active : option Window) (windows' : list Window) (reg : Registry) :
  wellFormed reg →
  wellFormed (moveActiveWindow screenW screenH desktop cfg forward
                               windows active windows' reg).1.2.
Proof.
  intros Hreg. destruct windows as [|w0 ws]; [by apply wellFormed_delete|].
  pose proof (stableOrder_wellFormed desktop w0 ws reg Hreg) as Hreg1.
  destruct active as [a|]; cycle 1.
  { unfold moveActiveWindow. by destruct (stableOrder desktop (w0 :: ws) reg). }
  rewrite moveActiveWindow_unfold.
  destruct (list_find _ _) as [[i v]|]; [|done].
  assert (∀ o, o ≡ₚ (stableOrder desktop (w0 :: ws) reg).1 →
            wellFormed (storeAndRetile screenW screenH desktop cfg windows' o
                          (stableOrder desktop (w0 :: ws) reg).2).1.2) as Hswap.
  { intros o Ho. unfold storeAndRetile. simpl.
    apply tileWindows_wellFormed, wellFormed_insert; [| |done].
    - rewrite Ho. apply stableOrder_NoDup.
    - intros ->. apply Permutation_nil_l in Ho.
      by eapply stableOrder_nonempty. }
  destruct forward; case_bool_decide; try done; apply Hswap.
  - apply iter_swap_adjacent_perm.
  - destruct i as [|i]; [done|]. apply iter_swap_adjacent_perm.
Qed.

Lemma reachable_wellFormed (reg : Registry) : reachable reg → wellFormed reg.
Proof.
  induction 1 as [| | ].
  - apply wellFormed_empty.
  - by apply tileWindows_wellFormed.
  - by apply moveActiveWindow_wellFormed.
Qed.

(** * The claims of the specification *)

(** C1.  Reconciliation keeps what is stored, then appends what is new.
    For every desktop, every order the program has stored for it (the
    registry is one the program can hold), and every duplicate-free observed
    list, [stableOrder] returns the stored windows that are still observed,
    in their stored order, followed by the observed windows that are not
    stored, in observed order, and stores that result as the desktop's new
    order.  With [A; B] stored, observing [A; B; C] gives [A; B; C]; with
    [A; B; C] stored, observing [A; C] gives [A; C]. *)
Theorem stableOrder_keeps_then_appends (desktop : Desktop)
    (current : list Window) (reg : Registry) :
  reachable reg → NoDup current →
  let stored := default [] (reg !! desktop) in
  let order :=
    filter (λ w, w ∈ current) stored ++ filter (λ w, w ∉ stored) current in
  stableOrder desktop current reg = (order, <[desktop := order]> reg)
  ∧ (∀ A B C, stored = [A; B] → current = [A; B; C] → order = [A; B; C])
  ∧ (∀ A B C, stored = [A; B; C] → current = [A; C] → order = [A; C]).
Proof.
  intros Hreach Hcur stored order.
  assert (NoDup stored) as Hst.
  { subst stored. destruct (reg !! desktop) as [o|] eqn:Ho; simpl.
    - by destruct (reachable_wellFormed reg Hreach desktop o Ho).
    - constructor. }
  split_and!.
  - rewrite (surjective_pairing (stableOrder desktop current reg)).
    rewrite stableOrder_registry, stableOrder_NoDup_result by done. done.
  - intros A B C HAB HABC. subst order. rewrite HAB, HABC in *.
    apply NoDup_cons in Hcur as [HA Hcur]. apply NoDup_cons in Hcur as [HB _].
    rewrite filter_all by set_solver.
    rewrite (filter_cons_False _ A), (filter_cons_False _ B) by set_solver.
    rewrite filter_cons_True by set_solver. done.
  - intros A B C HABC HAC. subst order. rewrite HABC, HAC in *.
    apply NoDup_cons in Hst as [HA Hst]. apply NoDup_cons in Hst as [HB _].
    rewrite (filter_cons_True _ A), (filter_cons_False _ B) by set_solver.
    rewrite filter_cons_True by set_solver.
    rewrite (filter_none _ [A; C]) by set_solver. done.
Qed.

Lemma stableOrder_keeps_then_appends_witness :
  stableOrder 1%N [10; 30; 40]%N {[1%N := [30; 20; 10]%N]}
  = ([30; 10; 40]%N, {[1%N := [30; 10; 40]%N]}).
Proof.
  assert (reachable {[1%N := [30; 20; 10]%N]}) as Hreach.
  { exact (reachable_tile 0 0 1%N layout0 [30; 20; 10]%N ∅ reachable_start). }
  assert (NoDup [10; 30; 40]%N) as Hnd
    by (apply (bool_decide_unpack _); by vm_compute).
  exact (proj1 (stableOrder_keeps_then_appends 1%N [10; 30; 40]%N
                  {[1%N := [30; 20; 10]%N]} Hreach Hnd)).
Defined.

(** C2, as amended.  [distribute] returns the empty sequence whenever
    [slots <= 0], for every total.  For every total that is not negative
    (the only totals [computePositions] passes, since it clamps them at
    zero) and every [slots > 0] it returns exactly [slots] non-negative
    integers, element [i] being [total / slots] plus one when
    [i < total mod slots], and they sum to [total].
    [distribute 10 3 = [4; 3; 3]] and [distribute 0 3 = [0; 0; 0]]. *)
Theorem distribute_spec (total slots : Z) :
  (slots <= 0 → distribute total slots = [])
  ∧ (0 <= total <= Int.max_int → 0 < slots <= Int.max_int →
     length (distribute total slots) = Z.to_nat slots
     ∧ (∀ i : nat, Z.of_nat i < slots →
          distribute total slots !! i =
            Some (total `div` slots
                  + (if bool_decide (Z.of_nat i < total `mod` slots) then 1 else 0)))
     ∧ Forall (λ v, 0 <= v) (distribute total slots)
     ∧ sumZ (distribute total slots) = total)
  ∧ distribute 10 3 = [4; 3; 3]
  ∧ distribute 0 3 = [0; 0; 0].
Proof.
  split_and!; [apply distribute_empty| |done|done].
  intros Ht Hs. rewrite distribute_nonneg by done.
  pose proof (Z.div_mod total slots ltac:(lia)) as Hdm.
  pose proof (Z.mod_pos_bound total slots ltac:(lia)) as Hmod.
  assert (0 <= total `div` slots) as Hq by (apply Z.div_pos; lia).
  split_and!.
  - by rewrite length_fmap, length_seqZ.
  - intros i Hi. rewrite list_lookup_fmap, lookup_seqZ_lt by done. done.
  - apply Forall_fmap, Forall_seqZ. intros i Hi. simpl. case_bool_decide; lia.
  - pose proof (sumZ_distribute_prefix (total `div` slots) (total `mod` slots)
                  (Z.to_nat slots) ltac:(lia)) as Hsum.
    rewrite Z2Nat.id in Hsum by lia. rewrite Hsum. lia.
Qed.

Lemma distribute_spec_witness :
  length (distribute 1888 3) = 3%nat
  ∧ distribute 1888 3 !! 0%nat = Some 630
  ∧ sumZ (distribute 1888 3) = 1888.
Proof.
  destruct (distribute_spec 1888 3) as (_ & H & _).
  destruct H as (Hlen & Hith & _ & Hsum); [unfold Int.max_int; lia..|].
  split_and!; [exact Hlen|exact (Hith 0%nat eq_refl)|exact Hsum].
Defined.

(** C2 as stated fails on a negative total: [distribute (-1) 2] is [[0; 0]],
    which sums to [0], and [distribute (-4) 2] has negative elements. *)
Lemma distribute_negative_total :
  distribute (-1) 2 = [0; 0]
  ∧ sumZ (distribute (-1) 2) ≠ -1
  ∧ distribute (-4) 2 = [-2; -2].
Proof. split_and!; [reflexivity|by vm_compute|reflexivity]. Qed.

(** C3.  The two layouts of the specification: four windows on a
    1920x1080 screen without margins, and five windows with margins and gap
    of 8 pixels. *)
Theorem computePositions_examples :
  computePositions 4 1920 1080 (mkLayout 0 0 0 0 0)
  = [mkRect 0 0 960 540; mkRect 960 0 960 540;
     mkRect 0 540 960 540; mkRect 960 540 960 540]
  ∧ computePositions 5 1920 1080 (mkLayout 8 8 8 8 8)
  = [mkRect 8 8 948 528; mkRect 964 8 948 528;
     mkRect 8 544 630 528; mkRect 646 544 629 528; mkRect 1283 544 629 528].
Proof. split; vm_compute; reflexivity. Qed.

(** C5.  [buildRows] on the counts 1 to 6, and on 7; for every larger
    count (an [int]) it is rows of three while at least three windows
    remain, then a last row with the windows left over, if any; and the
    rows of every positive count add up to the count. *)
Theorem buildRows_spec :
  buildRows 1 = [1] ∧ buildRows 2 = [2] ∧ buildRows 3 = [3]
  ∧ buildRows 4 = [2; 2] ∧ buildRows 5 = [2; 3] ∧ buildRows 6 = [3; 3]
  ∧ buildRows 7 = [3; 3; 1]
  ∧ (∀ count, 6 < count <= Int.max_int →
       buildRows count =
         replicate (Z.to_nat (count `div` 3)) 3
         ++ (if bool_decide (count `mod` 3 = 0) then [] else [count `mod` 3]))
  ∧ (∀ n, 0 < n <= Int.max_int → sumZ (buildRows n) = n).
Proof.
  split_and!; try reflexivity.
  - intros count Hc.
    rewrite buildRows_default, buildRows_loop_spec by lia. done.
  - intros n Hn.
    destruct (decide (6 < n)) as [Hbig|Hsmall].
    + rewrite buildRows_default, buildRows_loop_spec by lia.
      simpl. apply sumZ_rowsOfThree. lia.
    + assert (n = 1 ∨ n = 2 ∨ n = 3 ∨ n = 4 ∨ n = 5 ∨ n = 6)
        as [->|[->|[->|[->|[->| ->]]]]] by lia; reflexivity.
Qed.

Lemma buildRows_spec_witness :
  buildRows 11 = [3; 3; 3; 2] ∧ sumZ (buildRows 11) = 11.
Proof.
  destruct buildRows_spec as (_ & _ & _ & _ & _ & _ & _ & Hbig & Hsum).
  split.
  - exact (Hbig 11 ltac:(unfold Int.max_int; lia)).
  - exact (Hsum 11 ltac:(unfold Int.max_int; lia)).
Defined.

(** C8.  Reconciling twice against the same observed list returns and
    stores the same order both times, and tiling twice with the same
    observed windows, screen and layout sends the same rectangles to the
    same windows.  The second pass may even see the windows enumerated in
    another order, as long as they are the same windows. *)
Theorem recompute_idempotent (screenW screenH : Z) (desktop : Desktop)
    (layout : DesktopLayout) (M : list Window) (reg : Registry) :
  let r1 := stableOrder desktop M reg in
  let t1 := tileWindows screenW screenH desktop layout M reg in
  stableOrder desktop M r1.2 = r1
  ∧ tileWindows screenW screenH desktop layout M t1.1 = t1
  ∧ (∀ M', (∀ w, w ∈ M' ↔ w ∈ M) →
       stableOrder desktop M' r1.2 = r1
       ∧ tileWindows screenW screenH desktop layout M' t1.1 = t1).
Proof.
  intros r1 t1.
  assert (∀ M', (∀ w, w ∈ M' ↔ w ∈ M) → stableOrder desktop M' r1.2 = r1)
    as Hstable.
  { intros M' HM'. subst r1.
    rewrite (surjective_pairing (stableOrder desktop M reg)) at 2.
    rewrite stableOrder_registry.
    apply stableOrder_same_members.
    - apply lookup_insert_eq.
    - apply stableOrder_NoDup.
    - intros w. rewrite stableOrder_elem_of. apply HM'. }
  assert (∀ M', (∀ w, w ∈ M' ↔ w ∈ M) →
            tileWindows screenW screenH desktop layout M' t1.1 = t1) as Htile.
  { intros M' HM'. subst t1. rewrite tileWindows_registry.
    destruct M as [|w0 ws].
    - destruct M' as [|w' ws'].
      + unfold tileWindows. by rewrite delete_delete_eq.
      + exfalso. eapply not_elem_of_nil, HM'. left.
    - destruct M' as [|w' ws'].
      { exfalso. eapply not_elem_of_nil, HM'. left. }
      unfold tileWindows at 1. fold r1. rewrite (Hstable _ HM').
      subst r1. unfold tileWindows.
      by destruct (stableOrder desktop (w0 :: ws) reg). }
  split_and!; [by apply Hstable|by apply Htile|].
  intros M' HM'. split; [by apply Hstable|by apply Htile].
Qed.

Lemma recompute_idempotent_witness :
  let t1 := tileWindows 1920 1080 2%N layout0 [7; 5]%N {[2%N := [5; 9]%N]} in
  tileWindows 1920 1080 2%N layout0 [5; 7]%N t1.1 = t1.
Proof.
  assert (∀ w : Window, w ∈ [5; 7]%N ↔ w ∈ [7; 5]%N) as Hsame
    by (intros w; rewrite !elem_of_cons; tauto).
  exact (proj2 (proj2 (proj2 (recompute_idempotent 1920 1080 2%N layout0
                                [7; 5]%N {[2%N := [5; 9]%N]}))
                 [5; 7]%N Hsame)).
Defined.

(** C10.  Whatever is stored and whatever is observed, duplicates
    included, the order [stableOrder] returns and stores holds every window
    at most once and only observed windows (in fact every observed window):
    it consists of the first occurrences of the stored windows that are
    observed, then the first occurrences of the observed windows that are
    not stored. *)
Theorem stableOrder_unique_observed (desktop : Desktop) (current : list Window)
    (reg : Registry) :
  let stored := default [] (reg !! desktop) in
  let result := (stableOrder desktop current reg).1 in
  NoDup result
  ∧ (∀ w, w ∈ result → w ∈ current)
  ∧ (∀ w, w ∈ current → w ∈ result)
  ∧ result = firsts (filter (λ w, w ∈ current) stored)
             ++ firsts (filter (λ w, w ∉ stored) current)
  ∧ (stableOrder desktop current reg).2 !! desktop = Some result.
Proof.
  intros stored result. split_and!.
  - apply stableOrder_NoDup.
  - intros w. apply stableOrder_elem_of.
  - intros w. apply stableOrder_elem_of.
  - apply stableOrder_result.
  - rewrite stableOrder_registry. apply lookup_insert_eq.
Qed.

Example stableOrder_duplicates :
  (stableOrder 3%N [4; 6; 4; 8; 6]%N {[3%N := [8; 8; 1]%N]}).1 = [8; 4; 6]%N.
Proof. vm_compute. reflexivity. Qed.

(** ** Moving the active window *)

(** C4.  [moveActiveWindow] on the desktop's current order, which is the
    stored order reconciled against the observed windows.  A window that is
    not in it, the first window moved toward the start and the last window
    moved toward the end give a no-op: the function returns [false], sends
    nothing, and the current order stays stored as it is.  Otherwise the
    window is swapped with its neighbour in the direction asked, the new
    order is stored, the desktop is tiled again from it and the function
    returns [true]; when the windows observed by that tiling are the same,
    the new order is what the registry holds afterwards and what a further
    reconciliation returns.  A stored order that already holds exactly the
    observed windows is the current order. *)
Theorem moveActiveWindow_spec (screenW screenH : Z) (desktop : Desktop)
    (cfg : Config) (forward : bool) (windows : list Window) (a : Window)
    (windows' : list Window) (reg : Registry) :
  let ordered := (reconciled desktop windows reg).1 in
  let reg1 := (reconciled desktop windows reg).2 in
  let result :=
    moveActiveWindow screenW screenH desktop cfg forward windows (Some a)
                     windows' reg in
  let noOp :=
    result = (false, reg1, [])
    ∧ (windows ≠ [] → reg1 !! desktop = Some ordered) in
  let swapTo (swapped : list Window) :=
    result = storeAndRetile screenW screenH desktop cfg windows' swapped reg1
    ∧ result.1.1 = true
    ∧ ((∀ w, w ∈ windows' ↔ w ∈ windows) →
       result.1.2 !! desktop = Some swapped
       ∧ (stableOrder desktop windows' result.1.2).1 = swapped) in
  (a ∉ ordered → noOp)
  ∧ (∀ post, forward = false → ordered = a :: post → noOp)
  ∧ (∀ pre, forward = true → ordered = pre ++ [a] → noOp)
  ∧ (∀ pre b post, forward = true → ordered = pre ++ a :: b :: post →
       swapTo (pre ++ b :: a :: post))
  ∧ (∀ pre b post, forward = false → ordered = pre ++ b :: a :: post →
       swapTo (pre ++ a :: b :: post))
  ∧ (∀ o, windows ≠ [] → reg !! desktop = Some o → NoDup o →
       (∀ w, w ∈ windows ↔ w ∈ o) → ordered = o ∧ reg1 = reg).
Proof.
  destruct windows as [|w0 ws].
  { (* nothing observed: the entry is erased, nothing else can happen *)
    cbv zeta. simpl. split_and!; try done.
    all: intros pre b post _ Hpre; by destruct pre. }
  intros ordered reg1 result noOp swapTo.
  assert (NoDup ordered) as Hnd by apply stableOrder_NoDup.
  assert (reg1 !! desktop = Some ordered) as Hstored.
  { subst reg1 ordered. simpl. rewrite stableOrder_registry.
    apply lookup_insert_eq. }
  assert (∀ swapped, swapped ≡ₚ ordered →
            result = storeAndRetile screenW screenH desktop cfg windows'
                                    swapped reg1 →
            swapTo swapped) as Hswap.
  { intros swapped Hperm Hres. subst swapTo. simpl.
    split; [done|]. rewrite Hres. split; [done|]. intros Hsame.
    assert (stableOrder desktop windows' (<[desktop := swapped]> reg1)
            = (swapped, <[desktop := swapped]> reg1)) as Hfix.
    { apply stableOrder_same_members.
      - apply lookup_insert_eq.
      - by rewrite Hperm.
      - intros w. rewrite Hsame, Hperm. subst ordered. simpl.
        by rewrite stableOrder_elem_of. }
    unfold storeAndRetile. simpl. rewrite tileWindows_registry.
    destruct windows' as [|w' ws'].
    { exfalso. eapply not_elem_of_nil, Hsame. left. }
    rewrite Hfix. simpl. rewrite Hfix. split; [apply lookup_insert_eq|done]. }
  split_and!.
  - intros Ha. split; [|done]. by apply move_absent.
  - intros post -> Ho. split; [|done]. by eapply move_first_backward.
  - intros pre -> Ho. split; [|done]. eapply move_last_forward; [done|].
    fold ordered in Ho. rewrite Ho in Hnd.
    apply NoDup_app in Hnd as (_ & Hdisj & _). intros Hin.
    apply (Hdisj a Hin). left.
  - intros pre b post -> Ho. apply Hswap.
    + rewrite Ho. apply Permutation_app_head, perm_swap.
    + apply move_swap_forward; [done|].
      rewrite Ho in Hnd. apply NoDup_app in Hnd as (_ & Hdisj & _).
      intros Hin. apply (Hdisj a Hin). left.
  - intros pre b post -> Ho. apply Hswap.
    + rewrite Ho. apply Permutation_app_head, perm_swap.
    + rewrite Ho in Hnd. apply NoDup_app in Hnd as (_ & Hdisj & Hnd).
      apply NoDup_cons in Hnd as [Hba _].
      apply move_swap_backward; [done| |].
      * intros Hin. apply (Hdisj a Hin). right. left.
      * intros ->. apply Hba. left.
  - intros o _ Ho Hndo Hsame. subst ordered reg1. simpl.
    by rewrite (stableOrder_same_members desktop (w0 :: ws) o reg).
Qed.

Lemma moveActiveWindow_spec_witness :
  let result :=
    moveActiveWindow 1920 1080 1%N config0 true [30; 20; 10]%N (Some 20%N)
                     [20; 30; 10]%N {[1%N := [10; 20; 30]%N]} in
  result.1.1 = true ∧ result.1.2 !! 1%N = Some [10; 30; 20]%N.
Proof.
  destruct (moveActiveWindow_spec 1920 1080 1%N config0 true [30; 20; 10]%N
              20%N [20; 30; 10]%N {[1%N := [10; 20; 30]%N]})
    as (_ & _ & _ & Hforward & _).
  destruct (Hforward [10%N] 30%N [] eq_refl) as (_ & Htrue & Hkept).
  { vm_compute. reflexivity. }
  destruct Hkept as [Hstored _].
  { intros w. rewrite !elem_of_cons. tauto. }
  split; [exact Htrue|exact Hstored].
Defined.

(** ** Tiled desktops *)

Lemma elem_of_insertDesktops (n : nat) (desk g : N) (result : gset N) :
  g ∈ insertDesktops n desk result
  ↔ g ∈ result ∨ (desk ≤ g < desk + N.of_nat n)%N.
Proof.
  revert desk result. induction n as [|n IH]; intros desk result; simpl.
  - split; [by left|]. intros [?|?]; [done|lia].
  - rewrite IH, elem_of_union, elem_of_singleton. split.
    + intros [[Heq|Hin]|Hr].
      * right. subst. lia.
      * left. exact Hin.
      * right. lia.
    + intros [Hin|Hr].
      * left. right. exact Hin.
      * destruct (decide (g = desk)) as [Heq|Hne].
        -- left. left. exact Heq.
        -- right. lia.
Qed.

Lemma elem_of_defaultTiledDesktops (total : option N) (g : N) :
  g ∈ defaultTiledDesktops total ↔
    match total with
    | Some t => if bool_decide (1 < t)%N then (1 ≤ g < t)%N else g = 0%N
    | None => g = 0%N
    end.
Proof.
  unfold defaultTiledDesktops. destruct total as [t|].
  - repeat case_bool_decide; try lia.
    + apply elem_of_singleton.
    + rewrite elem_of_insertDesktops, elem_of_empty. split.
      * intros [[]|?]. lia.
      * intros ?. right. lia.
  - apply elem_of_singleton.
Qed.

(** C6, as amended.  With an empty configured set, startup installs the
    default set, and afterwards a desktop is tiled exactly when it belongs to
    it: when the window manager reports more than one desktop, the desktops
    [1 .. total-1], that is every desktop other than desktop 0; when it
    reports one desktop or none, or does not report the number, desktop 0
    alone. *)
Theorem startup_tiled_desktops (cfg : Config) (total : option N) (g : Desktop) :
  tiledDesktops cfg = ∅ →
  shouldTile g (startupConfig cfg total) = true ↔
    match total with
    | Some t => if bool_decide (1 < t)%N then (1 ≤ g < t)%N else g = 0%N
    | None => g = 0%N
    end.
Proof.
  intros Hempty. unfold startupConfig.
  rewrite bool_decide_eq_true_2 by done. unfold shouldTile. simpl.
  rewrite <- elem_of_defaultTiledDesktops.
  rewrite orb_true_iff, !bool_decide_eq_true. split; [|by right].
  intros [Hnone|?]; [|done].
  exfalso. pose proof (elem_of_defaultTiledDesktops total) as Hdef.
  rewrite Hnone in Hdef.
  destruct total as [t|].
  - case_bool_decide.
    + apply (not_elem_of_empty (C:=gset N) 1%N), Hdef. lia.
    + by apply (not_elem_of_empty (C:=gset N) 0%N), Hdef.
  - by apply (not_elem_of_empty (C:=gset N) 0%N), Hdef.
Qed.

Lemma startup_tiled_desktops_witness :
  shouldTile 2%N (startupConfig config0 (Some 4%N)) = true.
Proof.
  apply (startup_tiled_desktops config0 (Some 4%N) 2%N eq_refl).
  simpl. lia.
Defined.

(** C6 as stated fails: with an empty configured set and a single desktop
    (or an unreadable desktop count) desktop 0 is tiled, and the eligibility
    test alone accepts desktop 0 on an empty set. *)
Lemma desktop_0_tiled_on_single_desktop :
  tiledDesktops config0 = ∅
  ∧ shouldTile 0%N (startupConfig config0 (Some 1%N)) = true
  ∧ shouldTile 0%N (startupConfig config0 None) = true
  ∧ shouldTile 0%N config0 = true.
Proof. split_and!; reflexivity. Qed.

(** C7.  Tiling or moving on a desktop whose observed window list is empty
    leaves no entry for it in the registry, also when it is the tiling
    nested in a successful move that observes no window; and no registry the
    program can hold has an empty order in it. *)
Theorem empty_desktop_has_no_order :
  (∀ screenW screenH desktop layout reg,
     (tileWindows screenW screenH desktop layout [] reg).1 !! desktop = None)
  ∧ (∀ screenW screenH desktop cfg forward active windows' reg,
       (moveActiveWindow screenW screenH desktop cfg forward [] active
                         windows' reg).1.2 !! desktop = None)
  ∧ (∀ screenW screenH desktop cfg forward windows active reg,
       let result := moveActiveWindow screenW screenH desktop cfg forward
                                      windows active [] reg in
       result.1.1 = true → result.1.2 !! desktop = None)
  ∧ (∀ reg, reachable reg → ∀ g o, reg !! g = Some o → o ≠ []).
Proof.
  split_and!.
  - intros. simpl. apply lookup_delete_eq.
  - intros. simpl. apply lookup_delete_eq.
  - intros screenW screenH desktop cfg forward windows active reg result.
    subst result. destruct windows as [|w0 ws]; [done|].
    destruct active as [a|]; cycle 1.
    { unfold moveActiveWindow. by destruct (stableOrder desktop (w0 :: ws) reg). }
    rewrite moveActiveWindow_unfold.
    destruct (list_find _ _) as [[i v]|]; [|done].
    destruct forward; case_bool_decide; try done;
      intros _; unfold storeAndRetile; simpl; apply lookup_delete_eq.
  - intros reg Hreach g o Hg.
    by destruct (reachable_wellFormed reg Hreach g o Hg).
Qed.

Lemma empty_desktop_has_no_order_witness :
  reachable {[1%N := [30; 20; 10]%N]} ∧ [30; 20; 10]%N ≠ @nil Window.
Proof.
  destruct empty_desktop_has_no_order as (_ & _ & _ & Hnonempty).
  assert (reachable {[1%N := [30; 20; 10]%N]}) as Hreach.
  { exact (reachable_tile 0 0 1%N layout0 [30; 20; 10]%N ∅ reachable_start). }
  split; [exact Hreach|].
  exact (Hnonempty _ Hreach 1%N [30; 20; 10]%N eq_refl).
Defined.

(** ** Debounce *)

Section debounce.
Variable cfg : Config.
Let d := debounce cfg.

Lemma handleEvent_structural (s : option Z) (ev : XEvent) :
  isStructural ev.1 → handleEvent cfg s ev = Some (ev.2 + d).
Proof. unfold handleEvent. by destruct ev.1. Qed.

Lemma handleEvent_other (s : option Z) (ev : XEvent) :
  ¬ isStructural ev.1 → handleEvent cfg s ev = s.
Proof. unfold handleEvent. destruct ev.1; simpl; tauto. Qed.

(** After a batch of events the due time comes from its last structural
    event; a batch without one leaves [schedule] as it was. *)
Lemma foldl_handleEvent (s : option Z) (events : list XEvent) :
  foldl (handleEvent cfg) s events =
    match lastNotification events with
    | Some t => Some (t + d)
    | None => s
    end.
Proof.
  unfold lastNotification.
  induction events as [|ev events IH] using rev_ind; [done|].
  rewrite foldl_app, filter_app. simpl.
  destruct (decide (isStructural ev.1)) as [Hev|Hev].
  - rewrite handleEvent_structural by done.
    rewrite (filter_cons_True _ ev), filter_nil by done. by rewrite last_snoc.
  - rewrite handleEvent_other by done.
    rewrite (filter_cons_False _ ev), filter_nil by done. by rewrite app_nil_r.
Qed.

Lemma lastNotification_elem_of (events : list XEvent) (t : Z) :
  lastNotification events = Some t →
  ∃ ev, ev ∈ events ∧ isStructural ev.1 ∧ ev.2 = t.
Proof.
  unfold lastNotification. intros Hlast.
  destruct (last _) as [ev|] eqn:Hev; [|done].
  simpl in Hlast. injection Hlast as <-.
  apply last_Some_elem_of, list_elem_of_filter in Hev as [? ?].
  by exists ev.
Qed.

Lemma runDaemon_loop_app (s : option Z) (ticks1 ticks2 : list Tick) :
  runDaemon_loop cfg s (ticks1 ++ ticks2) =
    let r1 := runDaemon_loop cfg s ticks1 in
    let r2 := runDaemon_loop cfg r1.1 ticks2 in
    (r2.1, r1.2 ++ r2.2).
Proof.
  revert s. induction ticks1 as [|tk ticks1 IH]; intros s; simpl.
  - by destruct (runDaemon_loop cfg s ticks2).
  - destruct (daemonTick cfg s tk) as [s' fired]. rewrite IH.
    destruct (runDaemon_loop cfg s' ticks1) as [s1 r1]. simpl.
    destruct (runDaemon_loop cfg s1 ticks2) as [s2 r2]. simpl.
    by destruct fired.
Qed.

Lemma runDaemon_loop_idle (quiet : list Tick) :
  Forall quietTick quiet → runDaemon_loop cfg None quiet = (None, []).
Proof.
  induction 1 as [|tk quiet Htk _ IH]; simpl; [done|].
  unfold daemonTick. rewrite foldl_handleEvent, Htk. by rewrite IH.
Qed.

Lemma runDaemon_loop_pending (due : Z) (quiet : list Tick) :
  Forall quietTick quiet →
  runDaemon_loop cfg (Some due) quiet =
    match firstDue due quiet with
    | Some c => (None, [c])
    | None => (Some due, [])
    end.
Proof.
  unfold firstDue.
  induction 1 as [|tk quiet Htk Hquiet IH]; simpl; [done|].
  unfold daemonTick. rewrite foldl_handleEvent, Htk.
  case_bool_decide as Hdue.
  - rewrite filter_cons_True by done. simpl.
    by rewrite runDaemon_loop_idle.
  - rewrite filter_cons_False by done. rewrite IH.
    by destruct (head _).
Qed.

Lemma runDaemon_loop_burst (lo : Z) (s : option Z) (burst : list Tick) :
  pendingSince d lo s → Forall (burstTick d lo) burst →
  (runDaemon_loop cfg s burst).2 = []
  ∧ pendingSince d lo (runDaemon_loop cfg s burst).1.
Proof.
  intros Hs Hburst. revert s Hs.
  induction Hburst as [|tk burst [Hnow Hevs] _ IH]; intros s Hs; simpl; [done|].
  unfold daemonTick. rewrite foldl_handleEvent.
  assert (pendingSince d lo
            match lastNotification (tick_events tk) with
            | Some t => Some (t + d)
            | None => s
            end) as Hs'.
  { destruct (lastNotification (tick_events tk)) as [t|] eqn:Ht; [|done].
    apply lastNotification_elem_of in Ht as (ev & Hin & Hstr & <-).
    rewrite Forall_forall in Hevs. specialize (Hevs ev Hin Hstr).
    intros due [= <-]. lia. }
  destruct (match lastNotification (tick_events tk) with
            | Some t => Some (t + d)
            | None => s
            end) as [due|].
  - specialize (Hs' due eq_refl).
    rewrite bool_decide_eq_false_2 by lia.
    destruct (IH (Some due)) as [Hnil Hpend]; [by intros ? [= <-]|].
    destruct (runDaemon_loop cfg (Some due) burst). by simpl in *.
  - destruct (IH None) as [Hnil Hpend]; [done|].
    destruct (runDaemon_loop cfg None burst). by simpl in *.
Qed.

End debounce.

(** C9.  Debounce coalescing, with [d] the configured debounce interval.  Handling a
    structural event sets the due time to its clock value plus [d],
    whatever was pending.  An iteration recomputes exactly when, after its
    events, a due time is pending and its check is at or after it, and it
    then clears the due time; otherwise the due time stays pending.  So a
    burst of notifications inside one interval (iterations [burst], whose
    checks all come before [lo + d] and whose notifications are not older
    than [lo], then the iteration [last] that takes the last notification,
    at [tN]), followed by iterations without notification, gives no
    recompute until the first check at or after [tN + d], one recompute at
    that check, and none after it. *)
Theorem debounce_coalescing (cfg : Config) (lo tN : Z) (s0 : option Z)
    (burst : list Tick) (last : Tick) (quiet : list Tick) :
  let d := debounce cfg in
  (∀ s ty t, isStructural ty = true → handleEvent cfg s (ty, t) = Some (t + d))
  ∧ (∀ s tk, (daemonTick cfg s tk).2 = true ↔
       ∃ due, foldl (handleEvent cfg) s (tick_events tk) = Some due
              ∧ due <= tick_now tk)
  ∧ (∀ s tk, (daemonTick cfg s tk).2 = true → (daemonTick cfg s tk).1 = None)
  ∧ (∀ s tk, (daemonTick cfg s tk).2 = false →
       (daemonTick cfg s tk).1 = foldl (handleEvent cfg) s (tick_events tk))
  ∧ (pendingSince d lo s0 →
     Forall (burstTick d lo) burst →
     lastNotification (tick_events last) = Some tN →
     Forall quietTick quiet →
     runDaemon_loop cfg s0 (burst ++ last :: quiet) =
       match firstDue (tN + d) (last :: quiet) with
       | Some c => (None, [c])
       | None => (Some (tN + d), [])
       end).
Proof.
  intros d. split_and!.
  - intros s ty t Hty. apply handleEvent_structural. simpl. by rewrite Hty.
  - intros s tk. unfold daemonTick.
    destruct (foldl _ _ _) as [due|]; [|naive_solver].
    case_bool_decide; simpl; naive_solver.
  - intros s tk. unfold daemonTick.
    destruct (foldl _ _ _) as [due|]; [|done]. by case_bool_decide.
  - intros s tk. unfold daemonTick.
    destruct (foldl _ _ _) as [due|]; [|done]. by case_bool_decide.
  - intros Hs0 Hburst Hlast Hquiet.
    rewrite runDaemon_loop_app.
    destruct (runDaemon_loop_burst cfg lo s0 burst Hs0 Hburst) as [Hnone _].
    cbv zeta. destruct (runDaemon_loop cfg s0 burst) as [s1 r1].
    simpl in Hnone. subst r1. simpl.
    unfold daemonTick. rewrite foldl_handleEvent, Hlast.
    unfold firstDue. simpl.
    case_bool_decide as Hdue.
    + rewrite filter_cons_True by done. simpl.
      by rewrite runDaemon_loop_idle.
    + rewrite filter_cons_False by done.
      rewrite runDaemon_loop_pending by done. unfold firstDue.
      by destruct (head _).
Qed.

Lemma debounce_coalescing_witness :
  runDaemon_loop config0 (Some 1180)
    ([mkTick [(CreateNotify, 1000); (ConfigureNotify, 1010)] 1020;
      mkTick [] 1070;
      mkTick [(PropertyNotify, 1100); (OtherEvent, 1105)] 1120]
     ++ mkTick [(ConfigureNotify, 1150)] 1170
     :: [mkTick [] 1220; mkTick [(OtherEvent, 1270)] 1270; mkTick [] 1320;
         mkTick [] 1370; mkTick [] 1420])
  = (None, [1370]).
Proof.
  destruct (debounce_coalescing config0 980 1150 (Some 1180)
              [mkTick [(CreateNotify, 1000); (ConfigureNotify, 1010)] 1020;
               mkTick [] 1070;
               mkTick [(PropertyNotify, 1100); (OtherEvent, 1105)] 1120]
              (mkTick [(ConfigureNotify, 1150)] 1170)
              [mkTick [] 1220; mkTick [(OtherEvent, 1270)] 1270; mkTick [] 1320;
               mkTick [] 1370; mkTick [] 1420])
    as (_ & _ & _ & _ & Hburst).
  change (debounce config0) with 200 in Hburst.
  apply Hburst.
  - intros due [= <-]. lia.
  - repeat constructor; simpl; try lia; intros; lia.
  - reflexivity.
  - repeat constructor.
Defined.


(** * Further properties of the code *)

(** ** Layout calculator *)

Lemma wrap_range (z : Z) : Int.in_range (Int.wrap z).
Proof.
  unfold Int.in_range, Int.min_int, Int.max_int, Int.wrap.
  pose proof (Z.mod_pos_bound (z + 2 ^ 31) (2 ^ 32)). lia.
Qed.

Lemma length_distribute (total slots : Z) :
  length (distribute total slots) = Z.to_nat slots.
Proof.
  unfold distribute. case_bool_decide.
  - simpl. lia.
  - by rewrite length_fmap, length_seqZ.
Qed.

Lemma distribute_Forall_nonneg (total slots : Z) :
  0 <= total <= Int.max_int → slots <= Int.max_int →
  Forall (λ v, 0 <= v) (distribute total slots).
Proof.
  intros Ht Hs. destruct (decide (slots <= 0)) as [Hle|Hgt].
  - by rewrite distribute_empty.
  - rewrite distribute_nonneg by lia.
    pose proof (Z.mod_pos_bound total slots ltac:(lia)).
    assert (0 <= total `div` slots) by (apply Z.div_pos; lia).
    apply Forall_fmap, Forall_seqZ. intros i Hi. simpl. case_bool_decide; lia.
Qed.

Lemma sumZ_distribute (total slots : Z) :
  0 <= total <= Int.max_int → 0 < slots <= Int.max_int →
  sumZ (distribute total slots) = total.
Proof.
  intros Ht Hs. rewrite distribute_nonneg by done.
  pose proof (Z.div_mod total slots ltac:(lia)) as Hdm.
  pose proof (Z.mod_pos_bound total slots ltac:(lia)) as Hmod.
  pose proof (sumZ_distribute_prefix (total `div` slots) (total `mod` slots)
                (Z.to_nat slots) ltac:(lia)) as Hsum.
  rewrite Z2Nat.id in Hsum by lia. rewrite Hsum. lia.
Qed.

Lemma sumZ_nonneg (l : list Z) : Forall (λ v, 0 <= v) l → 0 <= sumZ l.
Proof. induction 1; simpl; lia. Qed.

Lemma length_le_sumZ (rows : list Z) :
  Forall (λ r, 1 <= r) rows → Z.of_nat (length rows) <= sumZ rows.
Proof. induction 1; simpl; lia. Qed.

(** The rows of [buildRows]: between one and three columns each, adding up
    to the count, as few rows as three columns allow. *)
Lemma buildRows_rows (count : Z) :
  0 < count <= Int.max_int →
  Forall (λ r, 1 <= r <= 3) (buildRows count)
  ∧ sumZ (buildRows count) = count
  ∧ Z.of_nat (length (buildRows count)) = (count + 2) `div` 3.
Proof.
  intros Hc. destruct (decide (6 < count)) as [Hbig|Hsmall].
  - rewrite buildRows_default, buildRows_loop_spec by lia. simpl.
    pose proof (Z.div_mod count 3 ltac:(lia)) as Hdm.
    pose proof (Z.mod_pos_bound count 3 ltac:(lia)) as Hmod.
    assert (0 <= count `div` 3) by (apply Z.div_pos; lia).
    split_and!.
    + unfold rowsOfThree. apply Forall_app. split.
      * apply Forall_replicate. lia.
      * case_bool_decide; [constructor|]. repeat constructor; lia.
    + apply sumZ_rowsOfThree. lia.
    + unfold rowsOfThree. rewrite length_app, length_replicate.
      case_bool_decide as Hm; simpl.
      * rewrite Nat2Z.inj_add, Z2Nat.id by lia. simpl.
        apply (Z.div_unique _ _ _ 2); lia.
      * rewrite Nat2Z.inj_add, Z2Nat.id by lia. simpl.
        apply (Z.div_unique _ _ _ (count `mod` 3 - 1)); lia.
  - assert (count = 1 ∨ count = 2 ∨ count = 3 ∨ count = 4 ∨ count = 5 ∨ count = 6)
      as [->|[->|[->|[->|[->| ->]]]]] by lia;
      (split_and!; [repeat constructor; lia|reflexivity|reflexivity]).
Qed.

Lemma emitRow_rowRects (widths : list Z) (layout : DesktopLayout)
    (y0 h x0 remaining : Z) (result : list Rect) :
  Z.of_nat (length widths) <= remaining <= Int.max_int →
  emitRow widths layout y0 h x0 remaining result
  = (result ++ rowRects layout y0 h x0 widths,
     remaining - Z.of_nat (length widths)).
Proof.
  revert x0 remaining result.
  induction widths as [|w widths IH]; intros x0 remaining result Hrem; simpl.
  - rewrite app_nil_r. f_equal. lia.
  - simpl in Hrem. rewrite sub_small by lia. case_bool_decide as Hlast.
    + destruct widths as [|w' widths]; [|simpl in Hrem; lia].
      simpl; f_equal; lia.
    + rewrite IH by lia. rewrite <- app_assoc. simpl; f_equal; lia.
Qed.

Lemma length_rowWidths (layout : DesktopLayout) (usableWidth cols : Z) :
  length (rowWidths layout usableWidth cols) = Z.to_nat cols.
Proof. unfold rowWidths. apply length_distribute. Qed.

Lemma emitRows_gridRects (rows rowHeights : list Z) (rowIdx : nat)
    (layout : DesktopLayout) (usableWidth remaining y0 : Z) (result : list Rect) :
  Forall (λ r, 1 <= r) rows → sumZ rows = remaining →
  remaining <= Int.max_int →
  emitRows rows rowHeights rowIdx layout usableWidth remaining y0 result
  = result ++ gridRects layout usableWidth rowHeights rowIdx y0 rows.
Proof.
  intros Hrows. revert rowIdx remaining y0 result.
  induction Hrows as [|r rows Hr Hrows IH];
    intros rowIdx remaining y0 result Hsum Hmax; simpl.
  - by rewrite app_nil_r.
  - simpl in Hsum. pose proof (length_le_sumZ rows Hrows) as Hlen.
    rewrite bool_decide_eq_true_2 by lia.
    rewrite Z.min_l by lia. fold (rowWidths layout usableWidth r).
    rewrite emitRow_rowRects by (rewrite length_rowWidths; lia).
    rewrite length_rowWidths, IH by lia. by rewrite <- app_assoc.
Qed.

(** [computePositions] is the grid of [buildRows], whatever the sizes. *)
Lemma computePositions_gridRects (count screenW screenH : Z)
    (layout : DesktopLayout) :
  0 < count <= Int.max_int →
  computePositions count screenW screenH layout
  = gridRects layout (usableWidthOf screenW layout)
              (rowHeightsOf screenH layout (buildRows count)) 0
              (marginTop layout) (buildRows count).
Proof.
  intros Hc. unfold computePositions.
  rewrite bool_decide_eq_false_2 by lia.
  destruct (buildRows_rows count Hc) as (Hrows & Hsum & _).
  fold (usableWidthOf screenW layout).
  fold (rowHeightsOf screenH layout (buildRows count)).
  rewrite emitRows_gridRects; [done| |done|lia].
  eapply Forall_impl; [exact Hrows|]. simpl. lia.
Qed.

Lemma length_rowRects (layout : DesktopLayout) (y0 h x0 : Z) (widths : list Z) :
  length (rowRects layout y0 h x0 widths) = length widths.
Proof.
  revert x0. induction widths as [|w widths IH]; intros x0; simpl; [done|].
  by rewrite IH.
Qed.

Lemma length_gridRects (layout : DesktopLayout) (usableWidth : Z)
    (rowHeights : list Z) (rowIdx : nat) (y0 : Z) (rows : list Z) :
  Forall (λ r, 1 <= r) rows →
  Z.of_nat (length (gridRects layout usableWidth rowHeights rowIdx y0 rows))
  = sumZ rows.
Proof.
  intros Hrows. revert rowIdx y0.
  induction Hrows as [|r rows Hr Hrows IH]; intros rowIdx y0; simpl; [done|].
  rewrite length_app, length_rowRects, length_rowWidths, Nat2Z.inj_add, IH.
  lia.
Qed.

(** X1.  [computePositions] returns one rectangle per window: exactly
    [count] rectangles for every positive [count], whatever the screen size
    and the layout, and none for a [count] that is not positive. *)
Theorem computePositions_length (count screenW screenH : Z)
    (layout : DesktopLayout) :
  count <= Int.max_int →
  length (computePositions count screenW screenH layout) = Z.to_nat count.
Proof.
  intros Hmax. destruct (decide (count <= 0)) as [Hle|Hpos].
  - unfold computePositions. rewrite bool_decide_eq_true_2 by done. simpl. lia.
  - rewrite computePositions_gridRects by lia.
    destruct (buildRows_rows count ltac:(lia)) as (Hrows & Hsum & _).
    apply Nat2Z.inj. rewrite length_gridRects, Hsum; [lia|].
    eapply Forall_impl; [exact Hrows|]. simpl. lia.
Qed.

Lemma computePositions_length_witness :
  length (computePositions 8 1280 720 (mkLayout 4 4 30 4 6)) = 8%nat.
Proof.
  apply (computePositions_length 8 1280 720 (mkLayout 4 4 30 4 6)).
  unfold Int.max_int. lia.
Defined.

Lemma rowWidths_nonneg (layout : DesktopLayout) (usableWidth cols : Z) :
  cols <= Int.max_int → Forall (λ v, 0 <= v) (rowWidths layout usableWidth cols).
Proof.
  intros Hc. unfold rowWidths. apply distribute_Forall_nonneg; [|done].
  set (v := Int.sub usableWidth _).
  assert (Int.in_range v) as Hr by apply wrap_range. clearbody v.
  unfold Int.in_range, Int.min_int, Int.max_int in *.
  case_bool_decide; lia.
Qed.

Lemma rowHeightsOf_nonneg (screenH : Z) (layout : DesktopLayout) (rows : list Z) :
  Forall (λ v, 0 <= v) (rowHeightsOf screenH layout rows).
Proof.
  unfold rowHeightsOf. apply distribute_Forall_nonneg.
  - set (v := Int.sub (Z.max 0 _) _).
    assert (Int.in_range v) as Hr by apply wrap_range. clearbody v.
    unfold Int.in_range, Int.min_int, Int.max_int in *.
    case_bool_decide; lia.
  - pose proof (wrap_range (SizeT.size rows)) as Hr.
    unfold Int.in_range in Hr. unfold Int.of_size. lia.
Qed.

Lemma lookup_total_nonneg (l : list Z) (i : nat) :
  Forall (λ v, 0 <= v) l → 0 <= l !!! i.
Proof.
  intros Hl. rewrite list_lookup_total_alt.
  destruct (l !! i) as [v|] eqn:Hv; simpl.
  - by apply (Forall_lookup_1 _ _ _ _ Hl Hv).
  - done.
Qed.

Lemma rowRects_sizes (layout : DesktopLayout) (y0 h x0 : Z) (widths : list Z) :
  0 <= h → Forall (λ v, 0 <= v) widths →
  Forall (λ r, 0 <= width r ∧ 0 <= height r) (rowRects layout y0 h x0 widths).
Proof.
  intros Hh Hw. revert x0.
  induction Hw as [|w widths Hw0 Hw IH]; intros x0; simpl; constructor; auto.
Qed.

(** X2.  No rectangle of [computePositions] has a negative width or
    height, for any screen size and any layout, margins that exceed the
    screen or overflow included: both usable sizes are clamped at zero
    before they are distributed. *)
Theorem computePositions_sizes_nonneg (count screenW screenH : Z)
    (layout : DesktopLayout) :
  count <= Int.max_int →
  Forall (λ r, 0 <= width r ∧ 0 <= height r)
         (computePositions count screenW screenH layout).
Proof.
  intros Hmax. destruct (decide (count <= 0)) as [Hle|Hpos].
  { unfold computePositions. by rewrite bool_decide_eq_true_2. }
  rewrite computePositions_gridRects by lia.
  destruct (buildRows_rows count ltac:(lia)) as (Hrows & _ & _).
  generalize (rowHeightsOf_nonneg screenH layout (buildRows count)).
  generalize (rowHeightsOf screenH layout (buildRows count)) as rowHeights.
  generalize (marginTop layout) as y0. generalize 0%nat as rowIdx.
  induction Hrows as [|r rows Hr Hrows IH]; intros rowIdx y0 rowHeights Hh;
    simpl; [done|].
  apply Forall_app. split; [|by apply IH].
  apply rowRects_sizes; [by apply lookup_total_nonneg|].
  apply rowWidths_nonneg. unfold Int.max_int. lia.
Qed.

Lemma computePositions_sizes_nonneg_witness :
  Forall (λ r, 0 <= width r ∧ 0 <= height r)
         (computePositions 5 100 80 (mkLayout 90 90 70 70 40)).
Proof.
  apply computePositions_sizes_nonneg. unfold Int.max_int. lia.
Defined.

(** X3.  [buildRows] never makes an empty row nor a row of more than three
    columns, and it uses as few rows as three columns per row allow:
    [(count + 2) / 3], the count divided by three and rounded up. *)
Theorem buildRows_shape (count : Z) :
  0 < count <= Int.max_int →
  Forall (λ r, 1 <= r <= 3) (buildRows count)
  ∧ Z.of_nat (length (buildRows count)) = (count + 2) `div` 3.
Proof.
  intros Hc. destruct (buildRows_rows count Hc) as (Hrows & _ & Hlen).
  by split.
Qed.

Lemma buildRows_shape_witness :
  Forall (λ r, 1 <= r <= 3) (buildRows 100)
  ∧ Z.of_nat (length (buildRows 100)) = 34.
Proof.
  apply (buildRows_shape 100). unfold Int.max_int. lia.
Defined.

Lemma ForallOrdPairs_app {A} (R : A → A → Prop) (l k : list A) :
  ForallOrdPairs R l → ForallOrdPairs R k →
  (∀ a b, a ∈ l → b ∈ k → R a b) →
  ForallOrdPairs R (l ++ k).
Proof.
  intros Hl Hk Hlk. induction Hl as [|a l Ha Hl IH]; simpl; [done|].
  constructor.
  - apply Forall_app. split; [done|].
    apply Forall_forall. intros b Hb. apply Hlk; [left|done].
  - apply IH. intros a' b Ha' Hb. apply Hlk; [by right|done].
Qed.

Lemma ForallOrdPairs_lookup {A} (R : A → A → Prop) (l : list A) :
  ForallOrdPairs R l →
  ∀ i j a b, (i < j)%nat → l !! i = Some a → l !! j = Some b → R a b.
Proof.
  induction 1 as [|c l Hc Hl IH]; intros i j a b Hij Ha Hb; [done|].
  destruct j as [|j]; [lia|]. simpl in Hb.
  destruct i as [|i]; simpl in Ha.
  - injection Ha as ->. rewrite Forall_forall in Hc.
    apply Hc. by eapply list_elem_of_lookup_2.
  - apply (IH i j); [lia|done|done].
Qed.

Lemma add_small (a b : Z) :
  Int.min_int <= a + b <= Int.max_int → Int.add a b = a + b.
Proof. intros H. by apply wrap_in_range. Qed.

(** The rectangles of one row, when the row fits in an [int]. *)
Lemma rowRects_geometry (layout : DesktopLayout) (y0 h x0 : Z) (widths : list Z) :
  0 <= gap layout → Forall (λ v, 0 <= v) widths → 0 <= x0 →
  x0 + sumZ widths + gap layout * Z.of_nat (length widths) <= Int.max_int →
  Forall (λ r, y r = y0 ∧ height r = h ∧ x0 <= x r
               ∧ x r + width r + gap layout
                 <= x0 + sumZ widths + gap layout * Z.of_nat (length widths))
         (rowRects layout y0 h x0 widths)
  ∧ ForallOrdPairs (placedAfter layout) (rowRects layout y0 h x0 widths).
Proof.
  intros Hgap Hw. revert x0.
  induction Hw as [|w widths Hw0 Hw IH]; intros x0 Hx0 Hmax; simpl.
  { split; constructor. }
  pose proof (sumZ_nonneg widths Hw) as Hsum.
  assert (0 <= gap layout * Z.of_nat (length widths)) as Hgl by nia.
  simpl in Hmax. rewrite Nat2Z.inj_succ in *.
  assert (Int.add x0 (Int.add w (gap layout)) = x0 + w + gap layout) as ->.
  { unfold Int.min_int, Int.max_int in *.
    rewrite (add_small w) by (unfold Int.min_int, Int.max_int; lia).
    rewrite add_small by (unfold Int.min_int, Int.max_int; lia). lia. }
  destruct (IH (x0 + w + gap layout)) as [Hall Hord]; [lia|lia|].
  split.
  - constructor; [simpl; split_and!; lia|].
    eapply Forall_impl; [exact Hall|]. simpl. intros r (?&?&?&?).
    split_and!; lia.
  - constructor; [|done].
    eapply Forall_impl; [exact Hall|]. simpl. intros r (?&?&?&?).
    left. simpl. split_and!; [done|done|lia].
Qed.

Lemma rowWidths_fits (layout : DesktopLayout) (usableWidth cols : Z) :
  0 <= gap layout → 1 <= cols <= 3 →
  2 * gap layout <= usableWidth <= Int.max_int →
  Forall (λ v, 0 <= v) (rowWidths layout usableWidth cols)
  ∧ sumZ (rowWidths layout usableWidth cols)
    = usableWidth - gap layout * (cols - 1).
Proof.
  intros Hgap Hcols Hu. split.
  { apply rowWidths_nonneg. unfold Int.max_int. lia. }
  unfold rowWidths, Int.max_int in *.
  rewrite (sub_small cols 1) by (unfold Int.max_int; lia).
  assert (0 <= gap layout * (cols - 1) <= usableWidth) as Hg by nia.
  assert (Int.mul (gap layout) (cols - 1) = gap layout * (cols - 1)) as ->.
  { apply wrap_in_range. unfold Int.in_range, Int.min_int, Int.max_int. lia. }
  rewrite sub_small by (unfold Int.max_int; lia).
  rewrite bool_decide_eq_false_2 by lia.
  apply sumZ_distribute; unfold Int.max_int; lia.
Qed.

(** The rectangles of the rows from [rowIdx] on, when they fit. *)
Lemma gridRects_geometry (layout : DesktopLayout) (usableWidth : Z)
    (rowHeights : list Z) (rowIdx : nat) (y0 : Z) (rows : list Z) :
  0 <= gap layout → 0 <= marginLeft layout →
  2 * gap layout <= usableWidth →
  marginLeft layout + usableWidth + gap layout <= Int.max_int →
  Forall (λ r, 1 <= r <= 3) rows →
  Forall (λ v, 0 <= v) rowHeights →
  length rowHeights = (rowIdx + length rows)%nat →
  0 <= y0 →
  y0 + sumZ (drop rowIdx rowHeights) + gap layout * Z.of_nat (length rows)
    <= Int.max_int →
  Forall (λ r, marginLeft layout <= x r
               ∧ x r + width r <= marginLeft layout + usableWidth
               ∧ y0 <= y r
               ∧ y r + height r + gap layout
                 <= y0 + sumZ (drop rowIdx rowHeights)
                    + gap layout * Z.of_nat (length rows))
         (gridRects layout usableWidth rowHeights rowIdx y0 rows)
  ∧ ForallOrdPairs (placedAfter layout)
                   (gridRects layout usableWidth rowHeights rowIdx y0 rows).
Proof.
  intros Hgap Hleft Hu Hxmax Hrows Hh. revert rowIdx y0.
  induction Hrows as [|r rows Hr Hrows IH]; intros rowIdx y0 Hlen Hy0 Hymax; simpl.
  { split; constructor. }
  simpl in Hlen, Hymax. rewrite Nat2Z.inj_succ in Hymax.
  destruct (lookup_lt_is_Some_2 rowHeights rowIdx ltac:(lia)) as [h Hlookup].
  rewrite (list_lookup_total_correct _ _ _ Hlookup).
  rewrite (drop_S _ _ _ Hlookup) in *. simpl in *.
  assert (0 <= h) as Hh0 by (by apply (Forall_lookup_1 _ _ _ _ Hh Hlookup)).
  assert (0 <= sumZ (drop (S rowIdx) rowHeights)) as Hrest
    by (apply sumZ_nonneg; by apply Forall_drop).
  assert (0 <= gap layout * Z.of_nat (length rows)) as Hgl by nia.
  assert (Int.add y0 (Int.add h (gap layout)) = y0 + h + gap layout) as ->.
  { rewrite (add_small h) by (unfold Int.min_int, Int.max_int in *; lia).
    rewrite add_small by (unfold Int.min_int, Int.max_int in *; lia). lia. }
  destruct (rowWidths_fits layout usableWidth r Hgap Hr) as [Hw Hwsum].
  { unfold Int.max_int in *. lia. }
  destruct (rowRects_geometry layout y0 h (marginLeft layout)
              (rowWidths layout usableWidth r) Hgap Hw Hleft) as [Hrow Hroword].
  { rewrite Hwsum, length_rowWidths, Z2Nat.id by lia. lia. }
  rewrite Hwsum, length_rowWidths, Z2Nat.id in Hrow by lia.
  destruct (IH (S rowIdx) (y0 + h + gap layout)) as [Hrest_all Hrest_ord];
    [lia|lia|lia|].
  split.
  - apply Forall_app. split.
    + eapply Forall_impl; [exact Hrow|]. simpl. intros a (?&?&?&?).
      split_and!; lia.
    + eapply Forall_impl; [exact Hrest_all|]. simpl. intros a (?&?&?&?).
      split_and!; lia.
  - apply ForallOrdPairs_app.
    + done.
    + done.
    + intros a b Ha Hb. right.
      rewrite Forall_forall in Hrow, Hrest_all.
      destruct (Hrow a Ha) as (?&?&?&?).
      destruct (Hrest_all b Hb) as (?&?&?&?). lia.
Qed.

Lemma usableWidthOf_fits (count screenW screenH : Z) (layout : DesktopLayout) :
  fits count screenW screenH layout →
  usableWidthOf screenW layout
  = screenW - marginLeft layout - marginRight layout.
Proof.
  intros []. unfold usableWidthOf, Int.max_int in *.
  rewrite (sub_small screenW) by (unfold Int.max_int; lia).
  rewrite sub_small by (unfold Int.max_int; lia). lia.
Qed.

Lemma rowHeightsOf_fits (count screenW screenH : Z) (layout : DesktopLayout) :
  fits count screenW screenH layout →
  length (rowHeightsOf screenH layout (buildRows count))
  = length (buildRows count)
  ∧ sumZ (rowHeightsOf screenH layout (buildRows count))
    = screenH - marginTop layout - marginBottom layout
      - gap layout * ((count + 2) `div` 3 - 1).
Proof.
  intros []. destruct (buildRows_rows count) as (Hrows & Hsum & Hlen); [done|].
  assert (Forall (λ r, 1 <= r) (buildRows count)) as Hrows1
    by (eapply Forall_impl; [exact Hrows|]; simpl; lia).
  pose proof (length_le_sumZ _ Hrows1) as Hle.
  assert (1 <= (count + 2) `div` 3) as HR
    by (apply Z.div_le_lower_bound; lia).
  unfold rowHeightsOf, SizeT.size, SizeT.sub, SizeT.wrap, Int.of_size.
  rewrite Hlen. unfold Int.max_int in *.
  rewrite (Z.mod_small ((count + 2) `div` 3)) by lia.
  rewrite (Z.mod_small ((count + 2) `div` 3 - 1)) by lia.
  rewrite !wrap_in_range
    by (unfold Int.in_range, Int.min_int, Int.max_int; lia).
  assert (0 <= gap layout * ((count + 2) `div` 3 - 1)) as Hg by nia.
  assert (Int.mul (gap layout) ((count + 2) `div` 3 - 1)
          = gap layout * ((count + 2) `div` 3 - 1)) as ->.
  { apply wrap_in_range. unfold Int.in_range, Int.min_int, Int.max_int. lia. }
  rewrite (sub_small screenH) by (unfold Int.max_int; lia).
  rewrite (sub_small (screenH - marginTop layout))
    by (unfold Int.max_int; lia).
  rewrite Z.max_r by lia.
  rewrite sub_small by (unfold Int.max_int; lia).
  rewrite bool_decide_eq_false_2 by lia. split.
  - rewrite length_distribute. lia.
  - apply sumZ_distribute; unfold Int.max_int; lia.
Qed.

(** X4.  On a layout that fits the screen, every rectangle of
    [computePositions] lies between the margins, and every rectangle is
    placed after the ones before it: in the same row, of the same height and
    at least one gap to the right, or in a lower row at least one gap below.
    So the rectangles never overlap and never cover a margin. *)
Theorem computePositions_geometry (count screenW screenH : Z)
    (layout : DesktopLayout) :
  fits count screenW screenH layout →
  let rects := computePositions count screenW screenH layout in
  Forall (insideMargins screenW screenH layout) rects
  ∧ (∀ i j a b, (i < j)%nat → rects !! i = Some a → rects !! j = Some b →
       placedAfter layout a b).
Proof.
  intros Hfits rects. subst rects.
  pose proof (usableWidthOf_fits _ _ _ _ Hfits) as Hwidth.
  destruct (rowHeightsOf_fits _ _ _ _ Hfits) as [Hlen Hsum].
  destruct Hfits.
  destruct (buildRows_rows count) as (Hrows & _ & HR); [done|].
  rewrite computePositions_gridRects by done.
  assert (2 * gap layout <= usableWidthOf screenW layout) as H1 by lia.
  assert (marginLeft layout + usableWidthOf screenW layout + gap layout
          <= Int.max_int) as H2 by lia.
  assert (marginTop layout
          + sumZ (drop 0 (rowHeightsOf screenH layout (buildRows count)))
          + gap layout * Z.of_nat (length (buildRows count))
          <= Int.max_int) as H3 by (rewrite drop_0, Hsum, HR; lia).
  destruct (gridRects_geometry layout (usableWidthOf screenW layout)
              (rowHeightsOf screenH layout (buildRows count)) 0
              (marginTop layout) (buildRows count)
              fits_gap0 fits_left0 H1 H2 Hrows
              (rowHeightsOf_nonneg screenH layout (buildRows count))
              Hlen fits_top0 H3) as [Hall Hord].
  rewrite drop_0, Hsum, HR in Hall. split.
  - eapply Forall_impl; [exact Hall|]. simpl. intros r (?&?&?&?).
    unfold insideMargins. split_and!; lia.
  - by apply ForallOrdPairs_lookup.
Qed.

Lemma computePositions_geometry_witness :
  Forall (insideMargins 1920 1080 (mkLayout 8 8 8 40 8))
         (computePositions 8 1920 1080 (mkLayout 8 8 8 40 8)).
Proof.
  apply (computePositions_geometry 8 1920 1080 (mkLayout 8 8 8 40 8)).
  constructor; simpl; unfold Int.max_int; try lia.
  change ((8 + 2) `div` 3) with 3. lia.
Defined.

Lemma chained_cons {A} (R : A → A → Prop) (a : A) (l : list A) :
  chained R l → (∀ b, head l = Some b → R a b) → chained R (a :: l).
Proof.
  intros Hl Hhead [|i] c d Hc Hd; simpl in *.
  - injection Hc as <-. apply Hhead. by rewrite head_lookup.
  - by apply (Hl i).
Qed.

Lemma chained_app {A} (R : A → A → Prop) (l k : list A) :
  chained R l → chained R k →
  (∀ a b, last l = Some a → head k = Some b → R a b) →
  chained R (l ++ k).
Proof.
  intros Hl Hk Hjoin. induction l as [|c l IH]; simpl; [done|].
  apply chained_cons.
  - apply IH.
    + intros i a b Ha Hb. by apply (Hl (S i)).
    + intros a b Ha Hb. apply Hjoin; [|done].
      destruct l; [done|]. by rewrite last_cons_cons.
  - intros b Hb. destruct l as [|c' l]; simpl in *.
    + by apply Hjoin.
    + injection Hb as <-. by apply (Hl 0%nat).
Qed.

(** One row, exactly: columns one gap apart, from [x0] to the end of the
    widths. *)
Lemma rowRects_exact (layout : DesktopLayout) (y0 h x0 : Z) (widths : list Z) :
  0 <= gap layout → Forall (λ v, 0 <= v) widths → 0 <= x0 →
  x0 + sumZ widths + gap layout * Z.of_nat (length widths) <= Int.max_int →
  let row := rowRects layout y0 h x0 widths in
  chained (λ a b, y b = y a ∧ height b = height a
                  ∧ x b = x a + width a + gap layout) row
  ∧ (∀ r, head row = Some r → x r = x0 ∧ y r = y0 ∧ height r = h)
  ∧ (∀ r, last row = Some r →
       y r = y0 ∧ height r = h
       ∧ x r + width r + gap layout
         = x0 + sumZ widths + gap layout * Z.of_nat (length widths)).
Proof.
  intros Hgap Hw. revert x0.
  induction Hw as [|w widths Hw0 Hw IH]; intros x0 Hx0 Hmax; simpl.
  { split_and!; [by intros []|done|done]. }
  pose proof (sumZ_nonneg widths Hw) as Hsum.
  assert (0 <= gap layout * Z.of_nat (length widths)) as Hgl by nia.
  simpl in Hmax. rewrite Nat2Z.inj_succ in *.
  assert (Int.add x0 (Int.add w (gap layout)) = x0 + w + gap layout) as ->.
  { rewrite (add_small w) by (unfold Int.min_int, Int.max_int in *; lia).
    rewrite add_small by (unfold Int.min_int, Int.max_int in *; lia). lia. }
  destruct (IH (x0 + w + gap layout)) as (Hchain & Hhead & Hlast); [lia|lia|].
  split_and!.
  - apply chained_cons; [done|]. intros b Hb.
    destruct (Hhead b Hb) as (?&?&?). simpl. by split_and!.
  - intros r [= <-]. done.
  - intros r Hr. rewrite last_cons in Hr.
    destruct (last (rowRects _ _ _ _ widths)) as [r'|] eqn:Hr'.
    + injection Hr as <-. destruct (Hlast r' eq_refl) as (?&?&?).
      split_and!; [done|done|lia].
    + injection Hr as <-. apply last_None in Hr'.
      apply (f_equal length) in Hr'. rewrite length_rowRects in Hr'.
      destruct widths; [|done]. simpl. split_and!; [done|done|lia].
Qed.

(** The grid, exactly. *)
Lemma gridRects_exact (screenW : Z) (layout : DesktopLayout) (usableWidth : Z)
    (rowHeights : list Z) (rowIdx : nat) (y0 : Z) (rows : list Z) :
  0 <= gap layout → 0 <= marginLeft layout →
  2 * gap layout <= usableWidth →
  marginLeft layout + usableWidth + gap layout <= Int.max_int →
  marginLeft layout + usableWidth = screenW - marginRight layout →
  Forall (λ r, 1 <= r <= 3) rows →
  Forall (λ v, 0 <= v) rowHeights →
  length rowHeights = (rowIdx + length rows)%nat →
  0 <= y0 →
  y0 + sumZ (drop rowIdx rowHeights) + gap layout * Z.of_nat (length rows)
    <= Int.max_int →
  let grid := gridRects layout usableWidth rowHeights rowIdx y0 rows in
  chained (follows screenW layout) grid
  ∧ (∀ r, head grid = Some r → x r = marginLeft layout ∧ y r = y0)
  ∧ (∀ r, last grid = Some r →
       x r + width r = screenW - marginRight layout
       ∧ y r + height r + gap layout
         = y0 + sumZ (drop rowIdx rowHeights)
           + gap layout * Z.of_nat (length rows)).
Proof.
  intros Hgap Hleft Hu Hxmax Hright Hrows Hh. revert rowIdx y0.
  induction Hrows as [|r rows Hr Hrows IH]; intros rowIdx y0 Hlen Hy0 Hymax; simpl.
  { split_and!; [by intros []|done|done]. }
  simpl in Hlen, Hymax. rewrite Nat2Z.inj_succ in Hymax.
  destruct (lookup_lt_is_Some_2 rowHeights rowIdx ltac:(lia)) as [h Hlookup].
  rewrite (list_lookup_total_correct _ _ _ Hlookup).
  rewrite (drop_S _ _ _ Hlookup) in *. simpl in *.
  assert (0 <= h) as Hh0 by (by apply (Forall_lookup_1 _ _ _ _ Hh Hlookup)).
  assert (0 <= sumZ (drop (S rowIdx) rowHeights)) as Hrest
    by (apply sumZ_nonneg; by apply Forall_drop).
  assert (0 <= gap layout * Z.of_nat (length rows)) as Hgl by nia.
  assert (Int.add y0 (Int.add h (gap layout)) = y0 + h + gap layout) as ->.
  { rewrite (add_small h) by (unfold Int.min_int, Int.max_int in *; lia).
    rewrite add_small by (unfold Int.min_int, Int.max_int in *; lia). lia. }
  destruct (rowWidths_fits layout usableWidth r Hgap Hr) as [Hw Hwsum].
  { unfold Int.max_int in *. lia. }
  destruct (rowRects_exact layout y0 h (marginLeft layout)
              (rowWidths layout usableWidth r) Hgap Hw Hleft)
    as (Hrow & Hrowhead & Hrowlast).
  { rewrite Hwsum, length_rowWidths, Z2Nat.id by lia. lia. }
  rewrite Hwsum, length_rowWidths, Z2Nat.id in Hrowlast by lia.
  destruct (IH (S rowIdx) (y0 + h + gap layout))
    as (Hgrid & Hgridhead & Hgridlast); [lia|lia|lia|].
  set (row := rowRects layout y0 h (marginLeft layout)
                       (rowWidths layout usableWidth r)) in *.
  set (rest := gridRects layout usableWidth rowHeights (S rowIdx)
                         (y0 + h + gap layout) rows) in *.
  assert (row ≠ []) as Hne.
  { intros Hnil. apply (f_equal length) in Hnil. subst row.
    rewrite length_rowRects, length_rowWidths in Hnil. simpl in Hnil. lia. }
  split_and!.
  - apply chained_app; [|done|].
    + intros i a b Ha Hb. left. by apply (Hrow i).
    + intros a b Ha Hb. right.
      destruct (Hrowlast a Ha) as (?&?&?). destruct (Hgridhead b Hb) as [? ?].
      split_and!; lia.
  - intros a Ha. destruct row as [|a' row']; [done|]. simpl in Ha.
    injection Ha as <-. destruct (Hrowhead a' eq_refl) as (?&?&?). done.
  - intros a Ha. rewrite last_app in Ha.
    destruct (last rest) as [a'|] eqn:Hrest_last.
    + injection Ha as <-. destruct (Hgridlast a' eq_refl) as [? ?].
      split; lia.
    + destruct (Hrowlast a Ha) as (?&?&?).
      apply last_None in Hrest_last.
      assert (rows = []) as ->.
      { apply (f_equal length) in Hrest_last. subst rest.
        assert (Forall (λ r, 1 <= r) rows) as Hrows1
          by (eapply Forall_impl; [exact Hrows|]; simpl; lia).
        pose proof (length_gridRects layout usableWidth rowHeights (S rowIdx)
                      (y0 + h + gap layout) rows Hrows1) as Hl.
        rewrite Hrest_last in Hl. simpl in Hl.
        pose proof (length_le_sumZ rows Hrows1).
        destruct rows; [done|simpl in *; lia]. }
      simpl in *.
      assert (drop (S rowIdx) rowHeights = []) as ->
        by (apply drop_ge; lia).
      simpl. split; lia.
Qed.

(** X5.  On a layout that fits the screen the grid of [computePositions]
    is exact: the first rectangle starts at the left and top margins, each
    rectangle is followed either by the next column, of the same row and
    height and exactly one gap to its right, or, when it ends at the right
    margin, by the first column of the next row exactly one gap below, and
    the last rectangle ends at the right and bottom margins.  Nothing of the
    usable area is lost to rounding. *)
Theorem computePositions_exact (count screenW screenH : Z)
    (layout : DesktopLayout) :
  fits count screenW screenH layout →
  let rects := computePositions count screenW screenH layout in
  (∀ r, head rects = Some r → x r = marginLeft layout ∧ y r = marginTop layout)
  ∧ (∀ i a b, rects !! i = Some a → rects !! S i = Some b →
       follows screenW layout a b)
  ∧ (∀ r, last rects = Some r →
       x r + width r = screenW - marginRight layout
       ∧ y r + height r = screenH - marginBottom layout).
Proof.
  intros Hfits rects. subst rects.
  pose proof (usableWidthOf_fits _ _ _ _ Hfits) as Hwidth.
  destruct (rowHeightsOf_fits _ _ _ _ Hfits) as [Hlen Hsum].
  destruct Hfits.
  destruct (buildRows_rows count) as (Hrows & _ & HR); [done|].
  rewrite computePositions_gridRects by done.
  assert (2 * gap layout <= usableWidthOf screenW layout) as H1 by lia.
  assert (marginLeft layout + usableWidthOf screenW layout + gap layout
          <= Int.max_int) as H2 by lia.
  assert (marginLeft layout + usableWidthOf screenW layout
          = screenW - marginRight layout) as H3 by lia.
  assert (marginTop layout
          + sumZ (drop 0 (rowHeightsOf screenH layout (buildRows count)))
          + gap layout * Z.of_nat (length (buildRows count))
          <= Int.max_int) as H4 by (rewrite drop_0, Hsum, HR; lia).
  destruct (gridRects_exact screenW layout (usableWidthOf screenW layout)
              (rowHeightsOf screenH layout (buildRows count)) 0
              (marginTop layout) (buildRows count)
              fits_gap0 fits_left0 H1 H2 H3 Hrows
              (rowHeightsOf_nonneg screenH layout (buildRows count))
              Hlen fits_top0 H4) as (Hchain & Hhead & Hlast).
  split_and!; [done|done|].
  intros r Hr. destruct (Hlast r Hr) as [Hx Hy].
  rewrite drop_0, Hsum, HR in Hy. split; lia.
Qed.

Lemma computePositions_exact_witness :
  match last (computePositions 7 1366 768 (mkLayout 10 10 30 10 5)) with
  | Some r => x r + width r = 1356 ∧ y r + height r = 758
  | None => False
  end.
Proof.
  assert (fits 7 1366 768 (mkLayout 10 10 30 10 5)) as Hfits.
  { constructor; simpl; unfold Int.max_int; try lia.
    change ((7 + 2) `div` 3) with 3. lia. }
  destruct (computePositions_exact 7 1366 768 (mkLayout 10 10 30 10 5) Hfits)
    as (_ & _ & Hlast).
  destruct (last _) as [r|] eqn:Hr.
  - exact (Hlast r eq_refl).
  - vm_compute in Hr. discriminate Hr.
Defined.

(** ** Registry operations *)

Lemma of_size_length {A} (l : list A) :
  Z.of_nat (length l) <= Int.max_int →
  Int.of_size (SizeT.size l) = Z.of_nat (length l).
Proof.
  intros Hl. unfold Int.of_size, SizeT.size, SizeT.wrap, Int.max_int in *.
  rewrite Z.mod_small by lia.
  apply wrap_in_range. unfold Int.in_range, Int.min_int, Int.max_int. lia.
Qed.

Lemma stableOrder_length_le (desktop : Desktop) (current : list Window)
    (reg : Registry) :
  (length (stableOrder desktop current reg).1 <= length current)%nat.
Proof.
  apply submseteq_length, NoDup_submseteq; [apply stableOrder_NoDup|].
  intros w. apply stableOrder_elem_of.
Qed.

Lemma tileWindows_applied (screenW screenH : Z) (desktop : Desktop)
    (layout : DesktopLayout) (w0 : Window) (ws : list Window) (reg : Registry) :
  Z.of_nat (length (w0 :: ws)) <= Int.max_int →
  ((tileWindows screenW screenH desktop layout (w0 :: ws) reg).2).*1
  = (stableOrder desktop (w0 :: ws) reg).1.
Proof.
  intros Hlen. unfold tileWindows.
  pose proof (stableOrder_length_le desktop (w0 :: ws) reg) as Hle.
  destruct (stableOrder desktop (w0 :: ws) reg) as [ordered reg']. simpl in *.
  apply fst_zip.
  rewrite of_size_length by lia.
  rewrite computePositions_length by lia. lia.
Qed.

(** X6.  [tileWindows] sends a geometry request to every observed window
    and to each only once (duplicates in the observed list included), in
    the order it stores for the desktop. *)
Theorem tileWindows_every_window_once (screenW screenH : Z) (desktop : Desktop)
    (layout : DesktopLayout) (windows : list Window) (reg : Registry) :
  Z.of_nat (length windows) <= Int.max_int →
  let result := tileWindows screenW screenH desktop layout windows reg in
  NoDup (result.2).*1
  ∧ (∀ w, w ∈ (result.2).*1 ↔ w ∈ windows)
  ∧ (windows ≠ [] → result.1 !! desktop = Some (result.2).*1).
Proof.
  intros Hlen result. subst result. destruct windows as [|w0 ws].
  { simpl. split_and!; [constructor|done|done]. }
  rewrite tileWindows_applied by done. split_and!.
  - apply stableOrder_NoDup.
  - intros w. apply stableOrder_elem_of.
  - intros _. rewrite tileWindows_registry, stableOrder_registry.
    apply lookup_insert_eq.
Qed.

Lemma tileWindows_every_window_once_witness :
  NoDup ((tileWindows 1920 1080 1%N layout0 [7; 5; 7; 9]%N
                      {[1%N := [9; 4]%N]}).2).*1.
Proof.
  apply (tileWindows_every_window_once 1920 1080 1%N layout0 [7; 5; 7; 9]%N
           {[1%N := [9; 4]%N]}).
  simpl. unfold Int.max_int. lia.
Defined.

Lemma tileWindows_frame (screenW screenH : Z) (desktop g : Desktop)
    (layout : DesktopLayout) (windows : list Window) (reg : Registry) :
  g ≠ desktop →
  (tileWindows screenW screenH desktop layout windows reg).1 !! g = reg !! g.
Proof.
  intros Hg. rewrite tileWindows_registry. destruct windows as [|w0 ws].
  - by apply lookup_delete_ne.
  - rewrite stableOrder_registry. by apply lookup_insert_ne.
Qed.

Lemma moveActiveWindow_frame (screenW screenH : Z) (desktop g : Desktop)
    (cfg : Config) (forward : bool) (windows : list Window)
    (active : option Window) (windows' : list Window) (reg : Registry) :
  g ≠ desktop →
  (moveActiveWindow screenW screenH desktop cfg forward windows active
                    windows' reg).1.2 !! g = reg !! g.
Proof.
  intros Hg. destruct windows as [|w0 ws]; [by apply lookup_delete_ne|].
  assert ((stableOrder desktop (w0 :: ws) reg).2 !! g = reg !! g) as Hreg1
    by (rewrite stableOrder_registry; by apply lookup_insert_ne).
  destruct active as [a|]; cycle 1.
  { unfold moveActiveWindow.
    by destruct (stableOrder desktop (w0 :: ws) reg). }
  rewrite moveActiveWindow_unfold.
  destruct (list_find _ _) as [[i v]|]; [|done].
  destruct forward; case_bool_decide; try done;
    unfold storeAndRetile; simpl;
    rewrite tileWindows_frame, lookup_insert_ne by done; done.
Qed.

(** X7.  Desktops are independent: tiling a desktop or moving a window on
    it never changes the order stored for another desktop. *)
Theorem other_desktops_untouched (screenW screenH : Z) (desktop g : Desktop)
    (cfg : Config) (layout : DesktopLayout) (forward : bool)
    (windows : list Window) (active : option Window) (windows' : list Window)
    (reg : Registry) :
  g ≠ desktop →
  (tileWindows screenW screenH desktop layout windows reg).1 !! g = reg !! g
  ∧ (moveActiveWindow screenW screenH desktop cfg forward windows active
                      windows' reg).1.2 !! g = reg !! g.
Proof.
  intros Hg. split; [by apply tileWindows_frame|by apply moveActiveWindow_frame].
Qed.

Lemma other_desktops_untouched_witness :
  (moveActiveWindow 1920 1080 1%N config0 true [30; 20; 10]%N (Some 20%N)
                    [20; 30; 10]%N
                    {[1%N := [10; 20; 30]%N; 2%N := [40; 50]%N]}).1.2 !! 2%N
  = Some [40; 50]%N.
Proof.
  destruct (other_desktops_untouched 1920 1080 1%N 2%N config0 layout0 true
              [30; 20; 10]%N (Some 20%N) [20; 30; 10]%N
              {[1%N := [10; 20; 30]%N; 2%N := [40; 50]%N]}) as [_ Hmove].
  { done. }
  rewrite Hmove. reflexivity.
Defined.

(** X8.  [moveActiveWindow] returns [true] exactly when there is an active
    window, it is in the desktop's reconciled order, and it has a neighbour
    on the side asked for.  When it returns [false] it has sent no geometry
    request and has done nothing but reconcile the stored order. *)
Theorem moveActiveWindow_succeeds_iff (screenW screenH : Z) (desktop : Desktop)
    (cfg : Config) (forward : bool) (windows : list Window)
    (active : option Window) (windows' : list Window) (reg : Registry) :
  let result := moveActiveWindow screenW screenH desktop cfg forward windows
                                 active windows' reg in
  let ordered := (reconciled desktop windows reg).1 in
  (result.1.1 = true ↔
     ∃ a i, active = Some a ∧ ordered !! i = Some a
            ∧ if forward then (S i < length ordered)%nat else (0 < i)%nat)
  ∧ (result.1.1 = false →
     result.1.2 = (reconciled desktop windows reg).2 ∧ result.2 = []).
Proof.
  intros result ordered. subst result ordered.
  destruct windows as [|w0 ws].
  { simpl. split; [|done]. split; [done|]. by intros (a & i & _ & Hi & _). }
  change (reconciled desktop (w0 :: ws) reg)
    with (stableOrder desktop (w0 :: ws) reg).
  destruct active as [a|]; cycle 1.
  { unfold moveActiveWindow.
    destruct (stableOrder desktop (w0 :: ws) reg) as [o r1]. simpl.
    split; [|done]. split; [done|]. by intros (a & i & Ha & _). }
  rewrite moveActiveWindow_unfold.
  pose proof (stableOrder_NoDup desktop (w0 :: ws) reg) as Hnd.
  destruct (list_find _ _) as [[i v]|] eqn:Hfind.
  - apply list_find_Some in Hfind as (Hi & -> & _).
    assert (∀ j, (stableOrder desktop (w0 :: ws) reg).1 !! j = Some a → j = i)
      as Huniq by (intros j Hj; by eapply NoDup_lookup).
    pose proof (lookup_lt_Some _ _ _ Hi) as Hlt.
    destruct forward; case_bool_decide as Hedge; simpl.
    + split; [|done]. split; [done|].
      intros (a' & j & [= <-] & Hj & Hnext). apply Huniq in Hj as ->. lia.
    + split; [|done]. split; [|done]. intros _. exists a, i.
      split_and!; [done|done|lia].
    + split; [|done]. split; [done|].
      intros (a' & j & [= <-] & Hj & Hprev). apply Huniq in Hj as ->. lia.
    + split; [|done]. split; [|done]. intros _. exists a, i.
      split_and!; [done|done|lia].
  - simpl. split; [|done]. split; [done|].
    intros (a' & j & [= <-] & Hj & _).
    apply list_find_None in Hfind. rewrite Forall_forall in Hfind.
    exfalso. apply (Hfind a); [by eapply list_elem_of_lookup_2|done].
Qed.

Lemma storeAndRetile_same_members (screenW screenH : Z) (desktop : Desktop)
    (cfg : Config) (windows' order : list Window) (reg1 : Registry) :
  NoDup order → order ≠ [] → (∀ w, w ∈ windows' ↔ w ∈ order) →
  (storeAndRetile screenW screenH desktop cfg windows' order reg1).1
  = (true, <[desktop := order]> reg1).
Proof.
  intros Hnd Hne Hsame. unfold storeAndRetile. simpl. f_equal.
  rewrite tileWindows_registry.
  destruct windows' as [|w' ws'].
  { destruct order as [|o order]; [done|].
    exfalso. eapply not_elem_of_nil, Hsame. left. }
  rewrite (stableOrder_same_members desktop (w' :: ws') order); [done| |done|done].
  apply lookup_insert_eq.
Qed.

(** X9.  Moving the active window to the right and then to the left puts
    the order back: when the same windows are observed throughout, the
    second move succeeds and the registry holds the order it held before
    the first one. *)
Theorem move_right_then_left (screenW screenH : Z) (desktop : Desktop)
    (cfg : Config) (windows windows1 windows2 windows3 : list Window)
    (a b : Window) (pre post : list Window) (reg : Registry) :
  (reconciled desktop windows reg).1 = pre ++ a :: b :: post →
  (∀ w, w ∈ windows1 ↔ w ∈ windows) →
  (∀ w, w ∈ windows2 ↔ w ∈ windows) →
  (∀ w, w ∈ windows3 ↔ w ∈ windows) →
  let moved := moveActiveWindow screenW screenH desktop cfg true windows
                                (Some a) windows1 reg in
  let back := moveActiveWindow screenW screenH desktop cfg false windows2
                               (Some a) windows3 (moved.1.2) in
  moved.1 = (true, <[desktop := pre ++ b :: a :: post]> reg)
  ∧ back.1 = (true, <[desktop := pre ++ a :: b :: post]> reg).
Proof.
  intros Hordered H1 H2 H3 moved back.
  destruct windows as [|w0 ws]; [by destruct pre|]. simpl in Hordered.
  pose proof (stableOrder_NoDup desktop (w0 :: ws) reg) as Hnd.
  pose proof (stableOrder_elem_of desktop (w0 :: ws) reg) as Hmem.
  pose proof (stableOrder_registry desktop (w0 :: ws) reg) as Hreg1.
  rewrite Hordered in Hnd, Hmem, Hreg1.
  assert ((a ∉ pre) ∧ (a ≠ b)) as [Hpre Hab].
  { apply NoDup_app in Hnd as (_ & Hdisj & Hnd').
    apply NoDup_cons in Hnd' as [Hb _]. split.
    - intros Hin. apply (Hdisj a Hin). left.
    - intros ->. apply Hb. left. }
  assert (pre ++ b :: a :: post ≡ₚ pre ++ a :: b :: post) as Hperm
    by apply Permutation_app_head, perm_swap.
  assert (moved.1 = (true, <[desktop := pre ++ b :: a :: post]> reg)) as Hright.
  { subst moved.
    rewrite (move_swap_forward screenW screenH desktop cfg w0 ws a windows1
               reg pre post b Hordered Hpre).
    rewrite storeAndRetile_same_members.
    - by rewrite Hreg1, insert_insert_eq.
    - by rewrite Hperm.
    - by destruct pre.
    - intros w. by rewrite H1, <- Hmem, Hperm. }
  split; [done|]. subst back. rewrite Hright. simpl.
  destruct windows2 as [|v0 vs].
  { exfalso. eapply not_elem_of_nil, H2. left. }
  assert (stableOrder desktop (v0 :: vs)
            (<[desktop := pre ++ b :: a :: post]> reg)
          = (pre ++ b :: a :: post, <[desktop := pre ++ b :: a :: post]> reg))
    as Hsecond.
  { apply stableOrder_same_members.
    - apply lookup_insert_eq.
    - by rewrite Hperm.
    - intros w. by rewrite H2, <- Hmem, Hperm. }
  rewrite (move_swap_backward screenW screenH desktop cfg v0 vs a windows3
             _ pre post b); [|by rewrite Hsecond|done|done].
  rewrite storeAndRetile_same_members.
  - rewrite Hsecond. simpl. by rewrite insert_insert_eq.
  - done.
  - by destruct pre.
  - intros w. by rewrite H3, <- Hmem.
Qed.

Lemma move_right_then_left_witness :
  let moved := moveActiveWindow 1920 1080 1%N config0 true [30; 20; 10]%N
                                (Some 20%N) [20; 30; 10]%N
                                {[1%N := [10; 20; 30]%N]} in
  (moveActiveWindow 1920 1080 1%N config0 false [10; 30; 20]%N (Some 20%N)
                    [10; 20; 30]%N (moved.1.2)).1
  = (true, <[1%N := [10; 20; 30]%N]> {[1%N := [10; 20; 30]%N]}).
Proof.
  apply (move_right_then_left 1920 1080 1%N config0 [30; 20; 10]%N
           [20; 30; 10]%N [10; 30; 20]%N [10; 20; 30]%N 20%N 30%N [10%N] []
           {[1%N := [10; 20; 30]%N]}).
  - vm_compute. reflexivity.
  - intros w. rewrite !elem_of_cons. tauto.
  - intros w. rewrite !elem_of_cons. tauto.
  - intros w. rewrite !elem_of_cons. tauto.
Defined.

Lemma moveActiveWindow_succeeds_iff_witness :
  let result := moveActiveWindow 1920 1080 1%N config0 false [30; 20; 10]%N
                                 (Some 10%N) [30; 20; 10]%N
                                 {[1%N := [10; 20; 30]%N]} in
  result.1.2 = (reconciled 1%N [30; 20; 10]%N {[1%N := [10; 20; 30]%N]}).2
  ∧ result.2 = [].
Proof.
  destruct (moveActiveWindow_succeeds_iff 1920 1080 1%N config0 false
              [30; 20; 10]%N (Some 10%N) [30; 20; 10]%N
              {[1%N := [10; 20; 30]%N]}) as [_ Hfalse].
  apply Hfalse. vm_compute. reflexivity.
Defined.

(** ** The control loop *)

Lemma runOnce_frame (screenW screenH : Z) (cfg : Config) (desktop g : Desktop)
    (windows : list Window) (reg : Registry) :
  shouldTile g cfg = false →
  (runOnce screenW screenH cfg desktop windows reg).1 !! g = reg !! g.
Proof.
  intros Hg. unfold runOnce.
  destruct (shouldTile desktop cfg) eqn:Hd; simpl; [|done].
  apply tileWindows_frame. intros ->. congruence.
Qed.

Lemma processCommand_frame (screenW screenH : Z) (cfg : Config)
    (cmd : PendingCommand) (obs : Observed) (g : Desktop) (reg : Registry) :
  shouldTile g cfg = false →
  (processCommand screenW screenH cfg cmd obs reg).1 !! g = reg !! g.
Proof.
  intros Hg. unfold processCommand.
  destruct (shouldTile (obs_desktop obs) cfg) eqn:Hd; simpl; [|done].
  apply moveActiveWindow_frame. intros ->. congruence.
Qed.

Lemma daemonReachable_reachable (cfg : Config) (reg : Registry) :
  daemonReachable cfg reg → reachable reg.
Proof.
  induction 1 as [|screenW screenH desktop windows reg _ IH
                  |screenW screenH cmd obs reg _ IH].
  - constructor.
  - unfold runOnce. destruct (shouldTile desktop cfg); simpl; [|done].
    by constructor.
  - unfold processCommand.
    destruct (shouldTile (obs_desktop obs) cfg); simpl; [|done].
    by constructor.
Qed.

(** X10.  Through a whole run under one configuration, the registry holds
    an order only for desktops the configuration tiles, and every order it
    holds is duplicate-free and not empty: desktops left to the window
    manager never get any state. *)
Theorem daemon_registry_invariant (cfg : Config) (reg : Registry) :
  daemonReachable cfg reg →
  ∀ g order, reg !! g = Some order →
    shouldTile g cfg = true ∧ NoDup order ∧ order ≠ [].
Proof.
  intros Hreach g order Hg. split.
  - destruct (shouldTile g cfg) eqn:Htile; [done|]. exfalso.
    revert order Hg.
    induction Hreach as [|screenW screenH desktop windows reg _ IH
                         |screenW screenH cmd obs reg _ IH]; intros order Hg.
    + by rewrite lookup_empty in Hg.
    + rewrite runOnce_frame in Hg by done. by eapply IH.
    + rewrite processCommand_frame in Hg by done. by eapply IH.
  - exact (reachable_wellFormed reg (daemonReachable_reachable cfg reg Hreach)
             g order Hg).
Qed.

Lemma daemon_registry_invariant_witness :
  daemonReachable config12 {[2%N := [8; 6]%N]}
  ∧ shouldTile 2%N config12 = true.
Proof.
  assert (daemonReachable config12 {[2%N := [8; 6]%N]}) as Hreach.
  { exact (daemon_recompute config12 1920 1080 2%N [8; 6]%N _
             (daemon_command config12 1920 1080 (mkPending MoveLeft)
                (mkObserved 0%N [3; 4]%N (Some 4%N) [3; 4]%N) _
                (daemon_start config12))). }
  split; [exact Hreach|].
  exact (proj1 (daemon_registry_invariant config12 _ Hreach 2%N [8; 6]%N
                  eq_refl)).
Defined.

(** X11.  The scheduler never recomputes more often than it is notified:
    over any run of the loop, the number of debounced recomputes is at most
    the number of iterations that took a structural event, plus one when a
    due time was already pending at the start. *)
Theorem recomputes_bounded_by_notifications (cfg : Config) (schedule : option Z)
    (ticks : list Tick) :
  (length (runDaemon_loop cfg schedule ticks).2
   <= (match schedule with Some _ => 1 | None => 0 end)
      + length (notifiedTicks ticks))%nat.
Proof.
  revert schedule. induction ticks as [|tk ticks IH]; intros schedule; simpl.
  { lia. }
  unfold daemonTick, notifiedTicks. rewrite foldl_handleEvent.
  fold (notifiedTicks ticks).
  destruct (lastNotification (tick_events tk)) as [t|] eqn:Ht.
  - rewrite filter_cons_True by (by rewrite Ht). simpl.
    fold (notifiedTicks ticks). case_bool_decide.
    + specialize (IH None). destruct (runDaemon_loop cfg None ticks).
      simpl in *. lia.
    + specialize (IH (Some (t + debounce cfg))).
      destruct (runDaemon_loop cfg (Some (t + debounce cfg)) ticks).
      simpl in *. lia.
  - rewrite filter_cons_False by (rewrite Ht; by intros []).
    fold (notifiedTicks ticks). destruct schedule as [due|].
    + case_bool_decide.
      * specialize (IH None). destruct (runDaemon_loop cfg None ticks).
        simpl in *. lia.
      * specialize (IH (Some due)).
        destruct (runDaemon_loop cfg (Some due) ticks). simpl in *. lia.
    + specialize (IH None). destruct (runDaemon_loop cfg None ticks).
      simpl in *. lia.
Qed.

Lemma runDaemon_loop_pending_kept (cfg : Config) (due : Z) (ticks : list Tick) :
  is_Some (runDaemon_loop cfg (Some due) ticks).1
  ∨ (runDaemon_loop cfg (Some due) ticks).2 ≠ [].
Proof.
  revert due. induction ticks as [|tk ticks IH]; intros due; simpl.
  { left. by eexists. }
  unfold daemonTick. rewrite foldl_handleEvent.
  destruct (lastNotification (tick_events tk)) as [t|].
  - case_bool_decide.
    + right. by destruct (runDaemon_loop cfg None ticks).
    + specialize (IH (t + debounce cfg)).
      by destruct (runDaemon_loop cfg (Some (t + debounce cfg)) ticks).
  - case_bool_decide.
    + right. by destruct (runDaemon_loop cfg None ticks).
    + specialize (IH due). by destruct (runDaemon_loop cfg (Some due) ticks).
Qed.

(** X12.  No notification is lost: from an iteration that takes a
    structural event on, whatever was pending before and whatever events
    and clock values follow, either a recompute happens or a due time is
    still pending at the end of the run. *)
Theorem notification_not_lost (cfg : Config) (schedule : option Z)
    (tk : Tick) (ticks : list Tick) (t : Z) :
  lastNotification (tick_events tk) = Some t →
  is_Some (runDaemon_loop cfg schedule (tk :: ticks)).1
  ∨ (runDaemon_loop cfg schedule (tk :: ticks)).2 ≠ [].
Proof.
  intros Ht. simpl. unfold daemonTick. rewrite foldl_handleEvent, Ht.
  case_bool_decide.
  - right. by destruct (runDaemon_loop cfg None ticks).
  - pose proof (runDaemon_loop_pending_kept cfg (t + debounce cfg) ticks) as Hk.
    by destruct (runDaemon_loop cfg (Some (t + debounce cfg)) ticks).
Qed.

Lemma notification_not_lost_witness :
  is_Some (runDaemon_loop config0 None
             [mkTick [(OtherEvent, 10); (CreateNotify, 20)] 30;
              mkTick [] 80; mkTick [(OtherEvent, 120)] 130]).1
  ∨ (runDaemon_loop config0 None
       [mkTick [(OtherEvent, 10); (CreateNotify, 20)] 30;
        mkTick [] 80; mkTick [(OtherEvent, 120)] 130]).2 ≠ [].
Proof.
  apply (notification_not_lost config0 None
           (mkTick [(OtherEvent, 10); (CreateNotify, 20)] 30)
           [mkTick [] 80; mkTick [(OtherEvent, 120)] 130] 20).
  reflexivity.
Defined.

(** ** Command channel *)

Lemma trimStart_le (text : list Ascii.ascii) :
  (trimStart text <= length text)%nat.
Proof.
  induction text as [|c text IH]; simpl; [lia|]. destruct (isspace c); simpl; lia.
Qed.

Lemma trimStart_spaces (text : list Ascii.ascii) :
  Forall (λ c, isspace c) (take (trimStart text) text).
Proof.
  induction text as [|c text IH]; simpl; [constructor|].
  destruct (isspace c) eqn:Hc; simpl; constructor; [by rewrite Hc|done].
Qed.

Lemma trimStart_head (text : list Ascii.ascii) (c : Ascii.ascii) :
  head (drop (trimStart text) text) = Some c → ¬ isspace c.
Proof.
  induction text as [|c0 text IH]; simpl; [done|].
  destruct (isspace c0) eqn:Hc; simpl; [done|].
  intros [= <-]. rewrite Hc. by intros [].
Qed.

Lemma trimStart_app_spaces (ws text : list Ascii.ascii) :
  Forall (λ c, isspace c) ws →
  trimStart (ws ++ text) = (length ws + trimStart text)%nat.
Proof.
  induction 1 as [|c ws Hc Hws IH]; simpl; [done|].
  destruct (isspace c); [by rewrite IH|done].
Qed.

Lemma trimEnd_bounds (text : list Ascii.ascii) (start e : nat) :
  (start <= e)%nat →
  (start <= trimEnd text start e <= e)%nat.
Proof.
  induction e as [|e IH]; intros Hse; simpl; [lia|].
  case_bool_decide as Hlt; simpl; [|lia].
  destruct (text !! e) as [c|]; [|lia].
  destruct (isspace c); [|lia].
  specialize (IH ltac:(lia)). lia.
Qed.

Lemma trimEnd_spaces (text : list Ascii.ascii) (start e i : nat) :
  (trimEnd text start e <= i < e)%nat →
  ∃ c, text !! i = Some c ∧ isspace c.
Proof.
  induction e as [|e IH]; simpl; [lia|].
  case_bool_decide as Hlt; simpl; [|lia].
  destruct (text !! e) as [c|] eqn:Hc; [|lia].
  destruct (isspace c) eqn:Hsp; [|lia].
  intros Hi. destruct (decide (i = e)) as [->|Hne].
  - exists c. by rewrite Hsp.
  - apply IH. lia.
Qed.

Lemma trimEnd_last (text : list Ascii.ascii) (start e : nat) :
  (e <= length text)%nat → (start < trimEnd text start e)%nat →
  ∃ c, text !! (trimEnd text start e - 1)%nat = Some c ∧ ¬ isspace c.
Proof.
  induction e as [|e IH]; simpl; [lia|]. intros He.
  destruct (lookup_lt_is_Some_2 text e ltac:(lia)) as [c Hc]. rewrite Hc.
  case_bool_decide as Hlt; simpl.
  - destruct (isspace c) eqn:Hsp.
    + apply IH. lia.
    + intros _. exists c. split; [|rewrite Hsp; by intros []].
      rewrite <- Hc. f_equal. lia.
  - lia.
Qed.

Lemma trimEnd_prefix (text more : list Ascii.ascii) (start e : nat) :
  (e <= length text)%nat →
  trimEnd (text ++ more) start e = trimEnd text start e.
Proof.
  induction e as [|e IH]; simpl; [done|]. intros He.
  rewrite lookup_app_l by lia. rewrite IH by lia. done.
Qed.

Lemma trimEnd_app_spaces (text ws : list Ascii.ascii) (start : nat) :
  Forall (λ c, isspace c) ws → (start <= length text)%nat →
  trimEnd (text ++ ws) start (length text + length ws)
  = trimEnd text start (length text).
Proof.
  intros Hws Hstart. induction ws as [|c ws IH] using rev_ind.
  { by rewrite app_nil_r, Nat.add_0_r. }
  apply Forall_app in Hws as [Hws Hc]. rewrite Forall_singleton in Hc.
  rewrite length_app. simpl.
  replace (length text + (length ws + 1))%nat
    with (S (length text + length ws)) by lia.
  simpl. rewrite bool_decide_eq_true_2 by lia. simpl.
  rewrite app_assoc.
  rewrite (list_lookup_middle (text ++ ws) [] c)
    by (by rewrite length_app).
  destruct (isspace c); [|done].
  rewrite trimEnd_prefix by (rewrite length_app; lia). by apply IH.
Qed.

Lemma trimEnd_stop (text : list Ascii.ascii) (c : Ascii.ascii) (start : nat) :
  ¬ isspace c →
  trimEnd (text ++ [c]) start (length (text ++ [c])) = length (text ++ [c]).
Proof.
  intros Hc. rewrite length_app. simpl. rewrite Nat.add_1_r. simpl.
  rewrite (list_lookup_middle text [] c) by done.
  destruct (isspace c); [done|]. by rewrite andb_false_r.
Qed.

(** [trim] undoes any padding with whitespace around a text that neither
    starts nor ends with whitespace. *)
Lemma trim_padded (ws1 core ws2 : list Ascii.ascii) :
  Forall (λ c, isspace c) ws1 → Forall (λ c, isspace c) ws2 →
  (∀ c, head core = Some c → ¬ isspace c) →
  (∀ c, last core = Some c → ¬ isspace c) →
  trim (ws1 ++ core ++ ws2) = core.
Proof.
  intros H1 H2 Hhead Hlast. unfold trim.
  destruct core as [|c0 core'].
  - simpl. rewrite trimStart_app_spaces by done.
    assert (trimStart ws2 = length ws2) as ->.
    { pose proof (trimStart_app_spaces ws2 [] H2) as Hs.
      rewrite app_nil_r in Hs. simpl in Hs. lia. }
    rewrite <- length_app.
    pose proof (trimEnd_bounds (ws1 ++ ws2) (length (ws1 ++ ws2))
                  (length (ws1 ++ ws2)) ltac:(lia)) as Hb.
    replace (trimEnd _ _ _ - length (ws1 ++ ws2))%nat with 0%nat by lia.
    done.
  - assert (¬ isspace c0) as Hc0 by (by apply Hhead).
    assert (trimStart (ws1 ++ (c0 :: core') ++ ws2) = length ws1) as ->.
    { rewrite trimStart_app_spaces by done. simpl.
      destruct (isspace c0); [by destruct Hc0|lia]. }
    remember (c0 :: core') as core eqn:Hcore.
    assert (trimEnd (ws1 ++ core ++ ws2) (length ws1)
              (length (ws1 ++ core ++ ws2)) = length (ws1 ++ core)) as ->.
    { rewrite app_assoc, (length_app (ws1 ++ core)).
      rewrite trimEnd_app_spaces by (done || rewrite length_app; lia).
      destruct (last core) as [cl|] eqn:Hcl;
        [|apply last_None in Hcl; congruence].
      specialize (Hlast cl eq_refl).
      apply last_Some in Hcl as [core'' ->]. rewrite app_assoc.
      by apply trimEnd_stop. }
    rewrite drop_app_length, length_app.
    replace (length ws1 + length core - length ws1)%nat
      with (length core) by lia.
    by rewrite take_app_length.
Qed.

(** What [trim] cuts off is whitespace, and what it keeps neither starts
    nor ends with whitespace. *)
Lemma trim_decompose (text : list Ascii.ascii) :
  ∃ ws1 ws2,
    text = ws1 ++ trim text ++ ws2
    ∧ Forall (λ c, isspace c) ws1 ∧ Forall (λ c, isspace c) ws2
    ∧ (∀ c, head (trim text) = Some c → ¬ isspace c)
    ∧ (∀ c, last (trim text) = Some c → ¬ isspace c).
Proof.
  unfold trim.
  pose proof (trimStart_le text) as Hs.
  pose proof (trimEnd_bounds text (trimStart text) (length text) Hs) as He.
  set (s := trimStart text) in *.
  set (e := trimEnd text s (length text)) in *.
  exists (take s text), (drop e text). split_and!.
  - rewrite <- (take_drop s text) at 1. f_equal.
    rewrite <- (take_drop (e - s) (drop s text)) at 1. f_equal.
    rewrite drop_drop. f_equal. lia.
  - apply trimStart_spaces.
  - apply Forall_lookup. intros i c Hi. rewrite lookup_drop in Hi.
    pose proof (lookup_lt_Some _ _ _ Hi) as Hlt.
    destruct (trimEnd_spaces text s (length text) (e + i)) as (c' & Hc' & Hsp);
      [subst e; lia|]. congruence.
  - intros c Hc. apply (trimStart_head text c).
    destruct (e - s)%nat as [|n] eqn:Hn; [by rewrite take_0 in Hc|].
    fold s. destruct (drop s text); [done|]. by simpl in Hc.
  - intros c Hc. rewrite last_lookup in Hc.
    rewrite length_take, length_drop in Hc.
    destruct (decide (s < e)%nat) as [Hlt|Hge]; cycle 1.
    { replace (e - s)%nat with 0%nat in Hc by lia. by rewrite take_0 in Hc. }
    rewrite lookup_take_lt, lookup_drop in Hc by lia.
    destruct (trimEnd_last text s (length text)) as (c' & Hc' & Hsp);
      [lia|done|].
    fold e in Hc'.
    replace (s + Nat.pred ((e - s) `min` (length text - s)))%nat
      with (e - 1)%nat in Hc by lia.
    congruence.
Qed.

(** X13.  [trim] keeps exactly the text between the leading and the
    trailing whitespace: what it removes on either side is whitespace only,
    what it returns neither starts nor ends with whitespace, and trimming
    again changes nothing. *)
Theorem trim_strips_whitespace (text : list Ascii.ascii) :
  (∃ ws1 ws2,
     text = ws1 ++ trim text ++ ws2
     ∧ Forall (λ c, isspace c) ws1 ∧ Forall (λ c, isspace c) ws2)
  ∧ (∀ c, head (trim text) = Some c → ¬ isspace c)
  ∧ (∀ c, last (trim text) = Some c → ¬ isspace c)
  ∧ trim (trim text) = trim text.
Proof.
  destruct (trim_decompose text) as (ws1 & ws2 & Htext & H1 & H2 & Hhead & Hlast).
  split_and!; [by exists ws1, ws2|done|done|].
  pose proof (trim_padded [] (trim text) [] ltac:(constructor)
                ltac:(constructor) Hhead Hlast) as Hidem.
  by rewrite app_nil_r in Hidem.
Qed.

Lemma trim_strips_whitespace_witness :
  head (trim (String.list_ascii_of_string "  move-left "))
  = Some (Ascii.ascii_of_nat 109)
  ∧ ¬ isspace (Ascii.ascii_of_nat 109).
Proof.
  destruct (trim_strips_whitespace (String.list_ascii_of_string "  move-left "))
    as (_ & Hhead & _ & _).
  assert (head (trim (String.list_ascii_of_string "  move-left "))
          = Some (Ascii.ascii_of_nat 109)) as Hm by (vm_compute; reflexivity).
  split; [exact Hm|exact (Hhead _ Hm)].
Defined.

Lemma parseCommandString_Some (text : list Ascii.ascii) (ty : CommandType) :
  parseCommandString text = Some ty ↔ text = commandToSend ty.
Proof.
  unfold parseCommandString. split.
  - repeat case_decide; intros [= <-]; done.
  - intros ->. by destruct ty.
Qed.

Lemma commandToSend_edges (ty : CommandType) :
  (∀ c, head (commandToSend ty) = Some c → ¬ isspace c)
  ∧ (∀ c, last (commandToSend ty) = Some c → ¬ isspace c).
Proof. destruct ty; split; intros c [= <-]; by vm_compute. Qed.

Lemma parse_trim_Some (text : list Ascii.ascii) (ty : CommandType) :
  parseCommandString (trim text) = Some ty ↔
  ∃ ws1 ws2, Forall (λ c, isspace c) ws1 ∧ Forall (λ c, isspace c) ws2
             ∧ text = ws1 ++ commandToSend ty ++ ws2.
Proof.
  rewrite parseCommandString_Some. split.
  - intros Htrim.
    destruct (trim_decompose text) as (ws1 & ws2 & Htext & H1 & H2 & _).
    exists ws1, ws2. by rewrite <- Htrim.
  - intros (ws1 & ws2 & H1 & H2 & ->).
    destruct (commandToSend_edges ty) as [Hhead Hlast].
    by apply trim_padded.
Qed.

(** X14.  The listener queues the command [ty] exactly for the messages
    that are its token surrounded by whitespace (up to the first NUL byte),
    and leaves the queue as it is for every other message. *)
Theorem listener_accepts_exactly (data : list Ascii.ascii)
    (queue : CommandQueue) :
  (∀ ty, commandListenerStep data queue = queue ++ [mkPending ty]
         ↔ messageFor data ty)
  ∧ ((∀ ty, ¬ messageFor data ty) → commandListenerStep data queue = queue).
Proof.
  assert (∀ ty, messageFor data ty
                ↔ parseCommandString (trim (c_str data)) = Some ty) as Hmsg.
  { intros ty. symmetry. apply parse_trim_Some. }
  assert (data = [] → parseCommandString (trim (c_str data)) = None) as Hnil.
  { by intros ->. }
  unfold commandListenerStep, pushCommand. split.
  - intros ty. rewrite Hmsg. destruct data as [|c data'].
    + rewrite Hnil by done. split; [|done].
      intros Heq. apply (f_equal length) in Heq.
      rewrite length_app in Heq. simpl in Heq. lia.
    + destruct (parseCommandString _) as [ty'|]; split.
      * intros Heq. by apply app_inv_head in Heq as [= ->].
      * by intros [= ->].
      * intros Heq. apply (f_equal length) in Heq.
        rewrite length_app in Heq. simpl in Heq. lia.
      * done.
  - intros Hnone. destruct data as [|c data']; [done|].
    destruct (parseCommandString _) as [ty'|]; [|done].
    exfalso. by apply (Hnone ty'), Hmsg.
Qed.

Lemma listener_accepts_exactly_witness :
  commandListenerStep
    (String.list_ascii_of_string "not-a-command") [mkPending MoveRight]
  = [mkPending MoveRight].
Proof.
  apply (listener_accepts_exactly
           (String.list_ascii_of_string "not-a-command") [mkPending MoveRight]).
  intros ty Hmsg.
  apply (proj1 (listener_accepts_exactly
                  (String.list_ascii_of_string "not-a-command") []))
    in Hmsg.
  destruct ty; vm_compute in Hmsg; discriminate Hmsg.
Defined.

(** X15.  The command channel end to end: when the clients send the
    payloads of the commands [tys], one per connection, the listener queues
    exactly those commands behind what was queued, in the order sent, and
    [pullCommands] hands them out in that order and leaves the queue
    empty. *)
Theorem command_channel_fifo (tys : list CommandType) (queue : CommandQueue) :
  pullCommands
    (foldl (λ q ty,
              commandListenerStep (sendIpcCommand_payload (commandToSend ty)) q)
           queue tys)
  = (queue ++ (mkPending <$> tys), []).
Proof.
  unfold pullCommands. f_equal. revert queue.
  induction tys as [|ty tys IH]; intros queue; simpl.
  - by rewrite app_nil_r.
  - rewrite IH.
    assert (commandListenerStep (sendIpcCommand_payload (commandToSend ty)) queue
            = queue ++ [mkPending ty]) as -> by (by destruct ty).
    by rewrite <- app_assoc.
Qed.

(** ** Window collection *)

Lemma getWindowDesktop_Some (prop : option (list N)) (d : N) :
  getWindowDesktop prop = Some d ↔
  (∃ others, prop = Some (d :: others)) ∧ d ≠ kDesktopSticky.
Proof.
  unfold getWindowDesktop. destruct prop as [[|v others]|].
  - split; [done|]. by intros [[? [=]] _].
  - case_decide as Hsticky; split.
    + done.
    + intros [[others' [= -> _]] Hne]. done.
    + intros [= <-]. split; [by eexists|done].
    + by intros [[others' [= -> _]] _].
  - split; [done|]. by intros [[? [=]] _].
Qed.

Lemma elem_of_collectWindows (server : Window → WindowState) (desktop : Desktop)
    (clientList : list Window) (w : Window) :
  w ∈ collectWindows server desktop clientList
  ↔ w ∈ clientList ∧ eligible server desktop w.
Proof.
  induction clientList as [|win rest IH]; simpl.
  { split; [by intros ?%not_elem_of_nil|by intros [?%not_elem_of_nil _]]. }
  assert (w ∈ win :: collectWindows server desktop rest
          ↔ (w = win ∨ (w ∈ rest ∧ eligible server desktop w))) as Hkeep
    by (rewrite elem_of_cons, IH; done).
  assert (¬ eligible server desktop win →
          (w ∈ collectWindows server desktop rest
           ↔ w ∈ win :: rest ∧ eligible server desktop w)) as Hskip.
  { intros Hnot. rewrite IH, elem_of_cons. split; [naive_solver|].
    intros [[->|?] ?]; [done|by split]. }
  unfold eligible in *.
  destruct (ws_dockOrDesktop (server win)) eqn:Hdock.
  { apply Hskip. by intros [? _]. }
  destruct (getWindowDesktop _) as [d|] eqn:Hd; cycle 1.
  { apply Hskip. intros (_ & Hprop & Hne & _).
    assert (getWindowDesktop (ws_desktopProp (server win)) = Some desktop)
      as Hsome by (by apply getWindowDesktop_Some).
    congruence. }
  apply getWindowDesktop_Some in Hd as [[others Hprop] Hsticky].
  case_decide as Hdesk; cycle 1.
  { apply Hskip. intros (_ & [others' Hprop'] & _). congruence. }
  subst d.
  destruct (ws_mapState (server win)) as [[]|] eqn:Hmap;
    try (apply Hskip; by intros (_ & _ & _ & [=])).
  rewrite Hkeep, elem_of_cons. split.
  - intros [->|[? ?]]; [|by split; [right|]].
    split; [by left|]. rewrite Hdock, Hprop, Hmap. split_and!; eauto.
  - intros [[->|?] ?]; [by left|by right].
Qed.

Lemma collectWindows_sublist (server : Window → WindowState) (desktop : Desktop)
    (clientList : list Window) :
  sublist (collectWindows server desktop clientList) clientList.
Proof.
  induction clientList as [|win rest IH]; simpl; [constructor|].
  destruct (ws_dockOrDesktop (server win)); [by constructor|].
  destruct (getWindowDesktop _); [|by constructor].
  case_decide; [|by constructor].
  destruct (ws_mapState (server win)) as [[]|]; by constructor.
Qed.

(** X16.  What [collectWindows] returns for a desktop is the eligible
    windows of the client list, in the order of that list, with no window
    more often than the list has it: docks and desktop windows, windows of
    other desktops or without a desktop, sticky windows, and windows that
    are not viewable or whose attributes cannot be read are left out. *)
Theorem collectWindows_eligible_only (server : Window → WindowState)
    (desktop : Desktop) (clientList : list Window) :
  sublist (collectWindows server desktop clientList) clientList
  ∧ (∀ w, w ∈ collectWindows server desktop clientList
          ↔ w ∈ clientList ∧ eligible server desktop w)
  ∧ (NoDup clientList → NoDup (collectWindows server desktop clientList)).
Proof.
  split_and!.
  - apply collectWindows_sublist.
  - apply elem_of_collectWindows.
  - intros Hnd. eapply sublist_NoDup; [done|apply collectWindows_sublist].
Qed.

(** X17.  One recompute, from the client list to the requests sent: the
    windows [tileWindows] moves are exactly the eligible windows of the
    client list, each of them once.  A dock, a window of another desktop, a
    sticky or a hidden window is never moved. *)
Theorem recompute_moves_eligible_windows (screenW screenH : Z)
    (server : Window → WindowState) (desktop : Desktop) (layout : DesktopLayout)
    (clientList : list Window) (reg : Registry) :
  Z.of_nat (length clientList) <= Int.max_int →
  let moved := ((tileWindows screenW screenH desktop layout
                   (collectWindows server desktop clientList) reg).2).*1 in
  NoDup moved
  ∧ (∀ w, w ∈ moved ↔ w ∈ clientList ∧ eligible server desktop w).
Proof.
  intros Hlen moved. subst moved.
  pose proof (sublist_length _ _ (collectWindows_sublist server desktop clientList))
    as Hle.
  destruct (collectWindows server desktop clientList) as [|w0 ws] eqn:Hcollect.
  - simpl. split; [constructor|]. intros w.
    rewrite <- elem_of_collectWindows, Hcollect. done.
  - rewrite tileWindows_applied by lia. split.
    + apply stableOrder_NoDup.
    + intros w. rewrite stableOrder_elem_of, <- Hcollect.
      apply elem_of_collectWindows.
Qed.

Lemma collectWindows_eligible_only_witness :
  NoDup (collectWindows sampleServer 1%N [14; 13; 12; 11; 10; 9]%N).
Proof.
  apply (collectWindows_eligible_only sampleServer 1%N
           [14; 13; 12; 11; 10; 9]%N).
  apply (bool_decide_unpack _). by vm_compute.
Defined.

Lemma recompute_moves_eligible_windows_witness :
  11%N ∉ ((tileWindows 1920 1080 1%N layout0
             (collectWindows sampleServer 1%N [14; 13; 12; 11; 10; 9]%N)
             ∅).2).*1.
Proof.
  destruct (recompute_moves_eligible_windows 1920 1080 sampleServer 1%N layout0
              [14; 13; 12; 11; 10; 9]%N ∅) as [_ Hmoved].
  { simpl. unfold Int.max_int. lia. }
  intros Hin. apply Hmoved in Hin as [_ [Hdock _]]. discriminate Hdock.
Defined.

(** ** More on the layout calculator and the policy *)

Lemma distribute_negative (total slots : Z) :
  Int.min_int <= total < 0 → 0 < slots <= Int.max_int →
  distribute total slots = (λ _, total ÷ slots) <$> seqZ 0 slots.
Proof.
  unfold Int.min_int, Int.max_int. intros Ht Hs. unfold distribute.
  rewrite bool_decide_eq_false_2 by lia.
  pose proof (Z.quot_rem' total slots) as Hqr.
  pose proof (Z.rem_nonpos total slots ltac:(lia) ltac:(lia)) as Hr.
  pose proof (Z.rem_bound_abs total slots ltac:(lia)) as Hrabs.
  assert (Z.rem total slots > - slots) as Hrlo by lia.
  assert (total ÷ slots <= 0) as Hq0
    by (destruct (decide (total ÷ slots <= 0)); [done|nia]).
  assert (total <= slots * (total ÷ slots) <= 0) as Hprod by nia.
  assert (total <= total ÷ slots <= 0) as Hq by nia.
  assert (Int.div total slots = total ÷ slots) as ->.
  { apply wrap_in_range. unfold Int.in_range, Int.min_int, Int.max_int. lia. }
  assert (Int.mul (total ÷ slots) slots = total ÷ slots * slots) as ->.
  { apply wrap_in_range. unfold Int.in_range, Int.min_int, Int.max_int. lia. }
  assert (Int.sub total (total ÷ slots * slots) = Z.rem total slots) as ->.
  { unfold Int.sub. rewrite wrap_in_range;
      unfold Int.in_range, Int.min_int, Int.max_int; lia. }
  apply list_fmap_ext. intros i j Hj%lookup_seqZ.
  rewrite bool_decide_eq_false_2 by lia.
  unfold Int.add. rewrite Z.add_0_r.
  apply wrap_in_range. unfold Int.in_range, Int.min_int, Int.max_int. lia.
Qed.

(** X18.  [distribute] is balanced for every [int] total: an earlier slot
    never gets less than a later one, and never more than one unit more. *)
Theorem distribute_balanced (total slots : Z) (i j : nat) (vi vj : Z) :
  Int.in_range total → 0 < slots <= Int.max_int →
  (i <= j)%nat →
  distribute total slots !! i = Some vi →
  distribute total slots !! j = Some vj →
  vj <= vi <= vj + 1.
Proof.
  unfold Int.in_range. intros Ht Hs Hij.
  destruct (decide (0 <= total)) as [Hpos|Hneg].
  - rewrite distribute_nonneg by lia.
    rewrite !list_lookup_fmap.
    intros Hi Hj.
    destruct (seqZ 0 slots !! i) as [ki|] eqn:Hki; [|done].
    destruct (seqZ 0 slots !! j) as [kj|] eqn:Hkj; [|done].
    apply lookup_seqZ in Hki as [-> _]. apply lookup_seqZ in Hkj as [-> _].
    simpl in *. injection Hi as <-. injection Hj as <-.
    repeat case_bool_decide; lia.
  - rewrite distribute_negative by lia.
    rewrite !list_lookup_fmap.
    intros Hi Hj.
    destruct (seqZ 0 slots !! i); [|done]. destruct (seqZ 0 slots !! j); [|done].
    simpl in *. injection Hi as <-. injection Hj as <-. lia.
Qed.

Lemma distribute_balanced_witness :
  ∃ vi vj, distribute 1000 7 !! 2%nat = Some vi
           ∧ distribute 1000 7 !! 6%nat = Some vj
           ∧ vj <= vi <= vj + 1.
Proof.
  exists 143, 142. split; [reflexivity|]. split; [reflexivity|].
  apply (distribute_balanced 1000 7 2 6 143 142);
    unfold Int.in_range, Int.min_int, Int.max_int; try lia; reflexivity.
Defined.

Lemma defaultTiledDesktops_nonempty (total : option N) :
  defaultTiledDesktops total ≠ ∅.
Proof.
  intros Hempty.
  pose proof (elem_of_defaultTiledDesktops total) as Hdef.
  rewrite Hempty in Hdef. destruct total as [t|].
  - case_bool_decide.
    + apply (not_elem_of_empty (C:=gset N) 1%N), Hdef. lia.
    + by apply (not_elem_of_empty (C:=gset N) 0%N), Hdef.
  - by apply (not_elem_of_empty (C:=gset N) 0%N), Hdef.
Qed.

(** X19.  After startup the set of tiled desktops is never empty, so a
    desktop is tiled exactly when it is in the set; and a set given
    explicitly is used as it is, whatever the number of desktops: exactly
    the desktops listed are tiled. *)
Theorem startup_explicit_desktops (cfg : Config) (total : option N) (g : Desktop) :
  tiledDesktops (startupConfig cfg total) ≠ ∅
  ∧ (shouldTile g (startupConfig cfg total) = true
     ↔ g ∈ tiledDesktops (startupConfig cfg total))
  ∧ (tiledDesktops cfg ≠ ∅ →
     startupConfig cfg total = cfg
     ∧ (shouldTile g (startupConfig cfg total) = true ↔ g ∈ tiledDesktops cfg)).
Proof.
  assert (tiledDesktops (startupConfig cfg total) ≠ ∅) as Hne.
  { unfold startupConfig. case_bool_decide; simpl; [|done].
    apply defaultTiledDesktops_nonempty. }
  assert (shouldTile g (startupConfig cfg total) = true
          ↔ g ∈ tiledDesktops (startupConfig cfg total)) as Hiff.
  { unfold shouldTile. rewrite orb_true_iff, !bool_decide_eq_true. naive_solver. }
  split_and!; [done|done|].
  intros Hcfg.
  assert (startupConfig cfg total = cfg) as Heq
    by (unfold startupConfig; by rewrite bool_decide_eq_false_2).
  split; [done|]. by rewrite Hiff, Heq.
Qed.

Lemma startup_explicit_desktops_witness :
  shouldTile 0%N (startupConfig config12 (Some 4%N)) = true ↔ 0%N ∈ ({[1%N; 2%N]} : gset N).
Proof.
  destruct (startup_explicit_desktops config12 (Some 4%N) 0%N) as (_ & _ & Hexp).
  apply Hexp. simpl. set_solver.
Defined.

Lemma processCommand_not_tiled (screenW screenH : Z) (cfg : Config)
    (cmd : PendingCommand) (obs : Observed) (reg : Registry) :
  shouldTile (obs_desktop obs) cfg = false →
  processCommand screenW screenH cfg cmd obs reg = (reg, []).
Proof. intros Hd. unfold processCommand. by rewrite Hd. Qed.

(** X20.  Commands and recomputes on a desktop that is not tiled are
    ignored: while the current desktop is not a tiled one, no recompute and
    no number of queued commands changes the registry or sends a request. *)
Theorem not_tiled_desktop_ignored (screenW screenH : Z) (cfg : Config)
    (desktop : Desktop) (windows : list Window)
    (commands : list (PendingCommand * Observed)) (reg : Registry) :
  shouldTile desktop cfg = false →
  Forall (λ co, obs_desktop co.2 = desktop) commands →
  runOnce screenW screenH cfg desktop windows reg = (reg, [])
  ∧ processPendingCommands screenW screenH cfg commands reg = (reg, []).
Proof.
  intros Hd Hcmds. split.
  - unfold runOnce. by rewrite Hd.
  - induction Hcmds as [|[cmd obs] commands Hobs _ IH]; simpl; [done|].
    simpl in Hobs. rewrite processCommand_not_tiled by (by rewrite Hobs).
    by rewrite IH.
Qed.

Lemma not_tiled_desktop_ignored_witness :
  processPendingCommands 1920 1080 config12
    [(mkPending MoveLeft, mkObserved 0%N [5; 6]%N (Some 6%N) [5; 6]%N);
     (mkPending MoveRight, mkObserved 0%N [5; 6]%N (Some 6%N) [5; 6]%N)]
    {[1%N := [7; 8]%N]}
  = ({[1%N := [7; 8]%N]}, []).
Proof.
  apply (not_tiled_desktop_ignored 1920 1080 config12 0%N []).
  - reflexivity.
  - repeat constructor.
Defined.

(** ** Option parsing *)

Lemma getline_chars_fields (c : Ascii.ascii) (l : list Ascii.ascii) :
  fieldsOf (c :: l)
  = (getline_chars (c :: l)).1 :: streamFields (getline_chars (c :: l)).2.
Proof.
  revert c. induction l as [|c' l IH]; intros c; simpl.
  - by case_decide.
  - case_decide; [done|]. specialize (IH c'). simpl in IH. rewrite IH.
    by destruct (decide (c' = comma)); [|destruct (getline_chars l)].
Qed.

Lemma getline_fields (ss : Stream) :
  match getline ss with
  | None => streamFields ss = []
  | Some (token, ss') => streamFields ss = token :: streamFields ss'
  end.
Proof.
  destruct ss as [[|c l]|]; simpl; try done.
  pose proof (getline_chars_fields c l) as Hf. simpl in Hf.
  by destruct (decide (c = comma)); [|destruct (getline_chars l)].
Qed.

Lemma getline_None (ss : Stream) : getline ss = None ↔ streamFields ss = [].
Proof.
  pose proof (getline_fields ss) as Hg.
  destruct (getline ss) as [[token ss']|]; [|done].
  rewrite Hg. done.
Qed.

Section parsing_facts.
Variable stoi : list Ascii.ascii → option Z.
Variable stoul : list Ascii.ascii → option N.

Lemma readValues_inr (n : nat) (ss ss' : Stream) (values values' : list Z) :
  readValues stoi n ss values = inr (values', ss') →
  ∃ fs vs, values' = values ++ vs
           ∧ Forall2 (λ f v, stoi f = Some v) fs vs
           ∧ (length fs <= n)%nat
           ∧ streamFields ss = fs ++ streamFields ss'
           ∧ ((length fs < n)%nat → streamFields ss' = []).
Proof.
  revert ss values. induction n as [|n IH]; intros ss values; simpl.
  - intros [= <- <-]. exists [], []. rewrite app_nil_r.
    split_and!; [done|constructor|done|done|simpl; lia].
  - pose proof (getline_fields ss) as Hg.
    destruct (getline ss) as [[token ss1]|].
    + destruct (stoi token) as [v|] eqn:Hv; [|done]. intros Hrest.
      apply IH in Hrest as (fs & vs & -> & Hfs & Hlen & Hfields & Hshort).
      exists (token :: fs), (v :: vs). rewrite <- app_assoc.
      split_and!; [done|by constructor|simpl; lia| |simpl; intros; apply Hshort; lia].
      rewrite Hg, Hfields. done.
    + intros [= <- <-]. exists [], []. rewrite app_nil_r.
      split_and!; [done|constructor|simpl; lia|done|done].
Qed.

Lemma readValues_ok (n : nat) (ss : Stream) (values : list Z)
    (fs : list (list Ascii.ascii)) (vs : list Z) (rest : list (list Ascii.ascii)) :
  Forall2 (λ f v, stoi f = Some v) fs vs →
  streamFields ss = fs ++ rest →
  (length fs = n ∨ ((length fs < n)%nat ∧ rest = [])) →
  ∃ ss', readValues stoi n ss values = inr (values ++ vs, ss')
         ∧ streamFields ss' = rest.
Proof.
  intros Hfs. revert n ss values.
  induction Hfs as [|f v fs vs Hv Hfs IH]; intros n ss values Hfields Hn.
  - destruct n as [|n]; simpl.
    + exists ss. by rewrite app_nil_r.
    + destruct Hn as [Hn|[_ ->]]; [done|]. simpl in Hfields.
      apply getline_None in Hfields. rewrite Hfields.
      exists None. by rewrite app_nil_r.
  - destruct n as [|n]; [simpl in Hn; lia|]. simpl.
    pose proof (getline_fields ss) as Hg. rewrite Hfields in Hg.
    destruct (getline ss) as [[token ss1]|]; [|done].
    simpl in Hg. injection Hg as <- Hrest. rewrite Hv.
    destruct (IH n ss1 (values ++ [v])) as (ss' & Hread & Hss');
      [done|simpl in Hn; destruct Hn as [?|[? ->]]; [left|right]; by auto with lia|].
    exists ss'. rewrite Hread, <- app_assoc. done.
Qed.

End parsing_facts.

Lemma getline_smaller (ss ss' : Stream) (token : list Ascii.ascii) :
  getline ss = Some (token, ss') → (streamSize ss' < streamSize ss)%nat.
Proof.
  destruct ss as [[|c l]|]; simpl; try done.
  assert (∀ l c, (streamSize (getline_chars (c :: l)).2 < S (S (length l)))%nat)
    as Hlen.
  { clear. induction l as [|c' l IH]; intros c; simpl.
    - case_decide; simpl; lia.
    - case_decide; simpl; [lia|]. specialize (IH c'). simpl in IH.
      destruct (decide (c' = comma)); simpl in *; [lia|].
      destruct (getline_chars l); simpl in *. lia. }
  specialize (Hlen l c). simpl in Hlen. intros Hg.
  destruct (decide (c = comma)); [by injection Hg as <- <-|].
  destruct (getline_chars l). simpl in Hlen. by injection Hg as <- <-.
Qed.

Lemma fieldsOf_app_comma (f rest : list Ascii.ascii) :
  comma ∉ f → fieldsOf (f ++ comma :: rest) = f :: fieldsOf rest.
Proof.
  induction f as [|c f IH]; intros Hf; cbn [app fieldsOf].
  - by case_decide.
  - apply not_elem_of_cons in Hf as [Hc Hf].
    case_decide; [by subst|]. by rewrite IH.
Qed.

Lemma fieldsOf_token (f : list Ascii.ascii) :
  comma ∉ f → f ≠ [] → fieldsOf f = [f].
Proof.
  induction f as [|c f IH]; intros Hf Hne; [done|]. cbn [fieldsOf].
  apply not_elem_of_cons in Hf as [Hc Hf]. case_decide; [by subst|].
  destruct f as [|c' f]; [done|]. by rewrite IH.
Qed.

Lemma replaceColons_app (a b : list Ascii.ascii) :
  replaceColons (a ++ b) = replaceColons a ++ replaceColons b.
Proof. apply fmap_app. Qed.

Lemma replaceColons_separator (c : Ascii.ascii) (rest : list Ascii.ascii) :
  isSeparator c → replaceColons (c :: rest) = comma :: replaceColons rest.
Proof.
  unfold replaceColons. intros [-> | ->]; rewrite fmap_cons; by case_decide.
Qed.

Lemma replaceColons_plain (f : list Ascii.ascii) :
  plainToken f → replaceColons f = f.
Proof.
  intros [_ Hf]. unfold replaceColons.
  induction f as [|c f IH]; [done|]. apply not_elem_of_cons in Hf as [Hc Hf].
  rewrite fmap_cons. case_decide; [by subst|]. by rewrite IH.
Qed.

Section parsing_results.
Variable stoi : list Ascii.ascii → option Z.
Variable stoul : list Ascii.ascii → option N.

Lemma parseLayoutSpec_of_fields (spec f0 f1 f2 f3 f4 : list Ascii.ascii)
    (v0 v1 v2 v3 v4 : Z) :
  fieldsOf (replaceColons spec) = [f0; f1; f2; f3; f4] →
  stoi f0 = Some v0 → stoi f1 = Some v1 → stoi f2 = Some v2 →
  stoi f3 = Some v3 → stoi f4 = Some v4 →
  parseLayoutSpec stoi spec
  = inr {| marginTop := v0; marginRight := v1; marginBottom := v2;
           marginLeft := v3; gap := v4 |}.
Proof.
  intros Hfields H0 H1 H2 H3 H4. unfold parseLayoutSpec.
  destruct (readValues_ok stoi 5 (Some (replaceColons spec)) []
              [f0; f1; f2; f3; f4] [v0; v1; v2; v3; v4] [])
    as (ss' & -> & Hss').
  - by repeat constructor.
  - done.
  - by left.
  - simpl. apply getline_None in Hss'. by rewrite Hss'.
Qed.

Lemma parseDesktopList_loop_fields (fuel : nat) (ss : Stream) (result : gset N) :
  (streamSize ss <= fuel)%nat →
  parseDesktopList_loop stoul fuel ss result
  = list_to_set (omap stoul (filter (λ t, t ≠ []) (streamFields ss))) ∪ result.
Proof.
  clear stoi.
  revert ss result. induction fuel as [|fuel IH]; intros ss result Hfuel.
  { destruct ss; simpl in *; [lia|set_solver]. }
  simpl.
  pose proof (getline_fields ss) as Hg.
  pose proof (getline_smaller ss) as Hsmaller.
  destruct (getline ss) as [[token ss']|].
  - specialize (Hsmaller ss' token eq_refl). rewrite Hg.
    case_decide as Htoken.
    + rewrite filter_cons_False by (by intros ?). apply IH. lia.
    + rewrite filter_cons_True by done. simpl.
      destruct (stoul token) as [desktop|]; rewrite IH by lia; simpl;
        set_solver.
  - rewrite Hg. simpl. set_solver.
Qed.

Lemma parseDesktopList_fields (value : list Ascii.ascii) :
  parseDesktopList stoul value
  = list_to_set (omap stoul (filter (λ t, t ≠ []) (fieldsOf value))).
Proof.
  clear stoi.
  unfold parseDesktopList. rewrite parseDesktopList_loop_fields by (simpl; lia).
  simpl. set_solver.
Qed.

Lemma fields_of_joinFields (tokens : list (list Ascii.ascii)) :
  Forall (λ t, comma ∉ t) tokens →
  filter (λ t, t ≠ []) (fieldsOf (joinFields tokens))
  = filter (λ t, t ≠ []) tokens.
Proof.
  induction 1 as [|t tokens Ht Htokens IH]; [done|].
  destruct tokens as [|t' tokens].
  - simpl. destruct (decide (t = [])) as [->|Hne]; [done|].
    by rewrite fieldsOf_token.
  - change (joinFields (t :: t' :: tokens))
      with (t ++ comma :: joinFields (t' :: tokens)).
    rewrite fieldsOf_app_comma by done. rewrite !(filter_cons _ t).
    by rewrite IH.
Qed.

End parsing_results.

Section parsing_theorems.
Variable stoi : list Ascii.ascii → option Z.
Variable stoul : list Ascii.ascii → option N.

Lemma readValues_inl (n : nat) (ss : Stream) (values : list Z) (e : LayoutError) :
  readValues stoi n ss values = inl e →
  ∃ token, e = InvalidValue token
           ∧ token ∈ take n (streamFields ss) ∧ stoi token = None.
Proof.
  revert ss values. induction n as [|n IH]; intros ss values; simpl; [done|].
  pose proof (getline_fields ss) as Hg.
  destruct (getline ss) as [[token ss']|]; [|done]. rewrite Hg.
  destruct (stoi token) as [v|] eqn:Hv.
  - intros (token' & -> & Hin & Hnone)%IH. exists token'.
    split_and!; [done| |done]. simpl. by right.
  - intros [= <-]. exists token. split_and!; [done| |done]. simpl. by left.
Qed.

(** X21. [parseLayoutSpec] returns a layout exactly when the text, with
    every ':' read as ',', splits into five fields that [std::stoi] all
    accepts; the five numbers are then the top, right, bottom and left
    margins and the gap, in this order. An empty piece after a last
    separator is no field. *)
Theorem parseLayoutSpec_accepts (spec : list Ascii.ascii) (layout : DesktopLayout) :
  parseLayoutSpec stoi spec = inr layout
  ↔ ∃ f0 f1 f2 f3 f4 v0 v1 v2 v3 v4,
      fieldsOf (replaceColons spec) = [f0; f1; f2; f3; f4]
      ∧ stoi f0 = Some v0 ∧ stoi f1 = Some v1 ∧ stoi f2 = Some v2
      ∧ stoi f3 = Some v3 ∧ stoi f4 = Some v4
      ∧ layout = {| marginTop := v0; marginRight := v1; marginBottom := v2;
                    marginLeft := v3; gap := v4 |}.
Proof.
  split.
  - unfold parseLayoutSpec.
    destruct (readValues stoi 5 (Some (replaceColons spec)) [])
      as [e|[values' ss']] eqn:Hread; [done|].
    destruct values' as [|v0 [|v1 [|v2 [|v3 [|v4 [|]]]]]]; try done.
    destruct (getline ss') as [|] eqn:Hg; [done|]. intros [= <-].
    apply readValues_inr in Hread
      as (fs & vs & Hvals & Hfs & Hlen & Hfields & Hshort).
    simpl in Hvals. subst vs. apply getline_None in Hg.
    rewrite Hg, app_nil_r in Hfields. simpl in Hfields.
    pose proof (Forall2_length _ _ _ Hfs) as Hfive.
    destruct fs as [|f0 [|f1 [|f2 [|f3 [|f4 [|]]]]]]; try done.
    repeat (apply Forall2_cons_1 in Hfs as [? Hfs]).
    by exists f0, f1, f2, f3, f4, v0, v1, v2, v3, v4.
  - intros (f0 & f1 & f2 & f3 & f4 & v0 & v1 & v2 & v3 & v4
            & Hfields & H0 & H1 & H2 & H3 & H4 & ->).
    by apply (parseLayoutSpec_of_fields stoi spec f0 f1 f2 f3 f4).
Qed.

(** X22. When [parseLayoutSpec] throws "Invalid value", the reported text is
    one of the first five fields and [std::stoi] rejects it; when it throws
    "must contain 5 integers", the text does not have exactly five fields. *)
Theorem parseLayoutSpec_rejects (spec : list Ascii.ascii) (e : LayoutError) :
  parseLayoutSpec stoi spec = inl e →
  match e with
  | InvalidValue token =>
      token ∈ take 5 (fieldsOf (replaceColons spec)) ∧ stoi token = None
  | WrongFieldCount => length (fieldsOf (replaceColons spec)) ≠ 5%nat
  end.
Proof.
  unfold parseLayoutSpec.
  destruct (readValues stoi 5 (Some (replaceColons spec)) [])
    as [e'|[values' ss']] eqn:Hread.
  - intros [= <-]. by apply readValues_inl in Hread as (token & -> & Hin & Hnone).
  - apply readValues_inr in Hread
      as (fs & vs & Hvals & Hfs & Hlen & Hfields & Hshort).
    simpl in Hvals, Hfields. subst vs.
    pose proof (Forall2_length _ _ _ Hfs) as Hsame.
    pose proof (getline_fields ss') as Hg.
    assert (length values' ≠ 5%nat
            ∨ (length values' = 5%nat ∧ streamFields ss' ≠ [])
            → length (fieldsOf (replaceColons spec)) ≠ 5%nat) as Hcount.
    { rewrite Hfields, length_app. intros [Hne|[Hfive Hmore]].
      - rewrite Hshort by lia. simpl. lia.
      - destruct (streamFields ss'); [done|]. simpl. lia. }
    destruct values' as [|v0 [|v1 [|v2 [|v3 [|v4 [|]]]]]];
      try (intros [= <-]; apply Hcount; left; simpl; lia).
    destruct (getline ss') as [[token ss'']|]; [|done].
    intros [= <-]. apply Hcount. right. by rewrite Hg.
Qed.

(** X23. [parseDesktopList] returns exactly the numbers that [std::stoul]
    reads from the non-empty fields of the comma-separated text: empty
    fields and fields that do not parse are skipped, and nothing else is
    added. *)
Theorem parseDesktopList_members (value : list Ascii.ascii) (desktop : N) :
  desktop ∈ parseDesktopList stoul value
  ↔ ∃ token, token ∈ fieldsOf value ∧ token ≠ []
             ∧ stoul token = Some desktop.
Proof.
  rewrite parseDesktopList_fields, elem_of_list_to_set, list_elem_of_omap.
  split.
  - intros (token & [Hne Hin]%list_elem_of_filter & Hparse). by exists token.
  - intros (token & Hin & Hne & Hparse). exists token.
    by rewrite list_elem_of_filter.
Qed.

(** X24. For texts without a comma written one after the other with commas
    between them, [parseDesktopList] returns the numbers of those that are
    not empty and parse; order, repetitions, empty entries and a comma at
    the end make no difference. *)
Theorem parseDesktopList_joined (tokens : list (list Ascii.ascii)) :
  Forall (λ t, comma ∉ t) tokens →
  parseDesktopList stoul (joinFields tokens)
  = list_to_set (omap stoul (filter (λ t, t ≠ []) tokens)).
Proof.
  intros Htokens. rewrite parseDesktopList_fields.
  by rewrite fields_of_joinFields.
Qed.

(** X25. Five numbers written with any mix of ':' and ',' between them are
    read by [parseLayoutSpec] as top, right, bottom, left, gap, whether or
    not one more separator follows the last number. *)
Theorem parseLayoutSpec_separators (t r b l g : list Ascii.ascii)
    (s1 s2 s3 s4 s5 : Ascii.ascii) (vt vr vb vl vg : Z) :
  Forall isSeparator [s1; s2; s3; s4; s5] →
  Forall plainToken [t; r; b; l; g] →
  g ≠ [] →
  stoi t = Some vt → stoi r = Some vr → stoi b = Some vb →
  stoi l = Some vl → stoi g = Some vg →
  let layout := {| marginTop := vt; marginRight := vr; marginBottom := vb;
                   marginLeft := vl; gap := vg |} in
  parseLayoutSpec stoi (t ++ s1 :: r ++ s2 :: b ++ s3 :: l ++ s4 :: g)
  = inr layout
  ∧ parseLayoutSpec stoi
      (t ++ s1 :: r ++ s2 :: b ++ s3 :: l ++ s4 :: g ++ [s5])
    = inr layout.
Proof.
  intros Hseps Htokens Hg Ht Hr Hb Hl Hgap layout.
  repeat (apply Forall_cons_1 in Hseps as [? Hseps]).
  repeat (apply Forall_cons_1 in Htokens as [? Htokens]).
  assert (∀ f, plainToken f → comma ∉ f) as Hcomma by (by intros f [??]).
  split; apply (parseLayoutSpec_of_fields stoi _ t r b l g); try done.
  - repeat (rewrite replaceColons_app, replaceColons_separator,
              replaceColons_plain by done).
    rewrite replaceColons_plain by done.
    rewrite !fieldsOf_app_comma by auto. by rewrite fieldsOf_token by auto.
  - repeat (rewrite replaceColons_app, replaceColons_separator,
              replaceColons_plain by done).
    rewrite !fieldsOf_app_comma by auto. done.
Qed.

End parsing_theorems.

Lemma parseLayoutSpec_rejects_witness :
  let spec := String.list_ascii_of_string "8,x,3" in
  let token := String.list_ascii_of_string "x" in
  parseLayoutSpec sampleStoi spec = inl (InvalidValue token)
  ∧ token ∈ take 5 (fieldsOf (replaceColons spec))
  ∧ sampleStoi token = None.
Proof.
  split; [by vm_compute|].
  apply (parseLayoutSpec_rejects sampleStoi
           (String.list_ascii_of_string "8,x,3")
           (InvalidValue (String.list_ascii_of_string "x"))).
  by vm_compute.
Defined.

Lemma parseDesktopList_joined_witness :
  let tokens := String.list_ascii_of_string
                  <$> ["2"; ""; "1"; "x"; "2"; ""]%string in
  Forall (λ t, comma ∉ t) tokens
  ∧ parseDesktopList sampleStoul (joinFields tokens) = {[1%N; 2%N]}.
Proof.
  assert (Forall (λ t, comma ∉ t)
            (String.list_ascii_of_string
               <$> ["2"; ""; "1"; "x"; "2"; ""]%string)) as Htokens.
  { repeat constructor; apply (bool_decide_unpack _); by vm_compute. }
  split; [done|].
  rewrite (parseDesktopList_joined sampleStoul _ Htokens).
  apply (bool_decide_unpack _). by vm_compute.
Defined.

Lemma parseLayoutSpec_separators_witness :
  let text := String.list_ascii_of_string in
  parseLayoutSpec sampleStoi (text "8,8:32,8:4")
  = inr {| marginTop := 8; marginRight := 8; marginBottom := 32;
           marginLeft := 8; gap := 4 |}
  ∧ parseLayoutSpec sampleStoi (text "8,8:32,8:4,")
    = inr {| marginTop := 8; marginRight := 8; marginBottom := 32;
             marginLeft := 8; gap := 4 |}.
Proof.
  pose (text := String.list_ascii_of_string).
  apply (parseLayoutSpec_separators sampleStoi
           (text "8") (text "8") (text "32") (text "8") (text "4")
           comma colon comma colon comma 8 8 32 8 4).
  - repeat constructor; by vm_compute; auto.
  - repeat constructor; apply (bool_decide_unpack _); by vm_compute.
  - done.
  - done.
  - done.
  - done.
  - done.
  - done.
Defined.

(** ** Command line *)

Section command_line_facts.
Variable stoi : list Ascii.ascii → option Z.
Variable stoul : list Ascii.ascii → option N.

Local Ltac option_read :=
  let Hp := fresh "Hp" in
  intros Hp; eexists _, _;
  split_and!;
    [ | exact Hp | reflexivity | reflexivity
      | first [ left; split; reflexivity
              | right; split; [reflexivity|];
                first [ exists MoveLeft; reflexivity
                      | exists MoveRight; reflexivity ] ] ];
  cbn [length]; lia.

Local Ltac option_value rest :=
  destruct rest as [|? rest]; [discriminate|];
  cbn [app]; unfold parseIntArg; cbv zeta;
  repeat match goal with
         | |- context [stoi ?t] => destruct (stoi t)
         | |- context [stoul ?t] => destruct (stoul t)
         | |- context [find_char ?c ?t] => destruct (find_char c t)
         | |- context [parseLayoutSpec ?f ?t] => destruct (parseLayoutSpec f t)
         end;
  first [discriminate | option_read].

(** One turn of the loop of [parseArgs]: the option read, with its value if
    it takes one, gives a configuration from which the rest is read; no
    turn touches the quiet interval, and the command to send is left or set
    to the token of a command. *)
Lemma parseArgs_loop_cons (arg : string) (rest b : list string)
    (cfg cfg' : Options) :
  parseArgs_loop stoi stoul (arg :: rest) cfg = Parsed cfg' →
  ∃ rest' cfg1,
    (length rest' <= length rest)%nat
    ∧ parseArgs_loop stoi stoul rest' cfg1 = Parsed cfg'
    ∧ parseArgs_loop stoi stoul (arg :: rest ++ b) cfg
      = parseArgs_loop stoi stoul (rest' ++ b) cfg1
    ∧ debounce (tiling cfg1) = debounce (tiling cfg)
    ∧ ((sendCommand cfg1 = sendCommand cfg
        ∧ opt_commandToSend cfg1 = opt_commandToSend cfg)
       ∨ (sendCommand cfg1 = true
          ∧ ∃ ty, opt_commandToSend cfg1 = commandToSend ty)).
Proof.
  cbn [parseArgs_loop].
  destruct (decide (arg = "--daemon")); [option_read|].
  destruct (decide (arg = "--tile-desktops")); [option_value rest|].
  destruct (decide (arg = "--margin-x")); [option_value rest|].
  destruct (decide (arg = "--margin-left")); [option_value rest|].
  destruct (decide (arg = "--margin-right")); [option_value rest|].
  destruct (decide (arg = "--margin-top")); [option_value rest|].
  destruct (decide (arg = "--margin-bottom")); [option_value rest|].
  destruct (decide (arg = "--gap")); [option_value rest|].
  destruct (decide (arg = "--desktop-default-config")); [option_value rest|].
  destruct (decide (arg = "--command-socket")); [option_value rest|].
  destruct (decide (arg = "--move-left")); [option_read|].
  destruct (decide (arg = "--move-right")); [option_read|].
  destruct (decide (arg = "--desktop-config")); [option_value rest|].
  destruct (decide (arg = "--help" ∨ arg = "-h")); discriminate.
Qed.

Lemma parseArgs_loop_app (a b : list string) (cfg cfg' : Options) :
  parseArgs_loop stoi stoul a cfg = Parsed cfg' →
  parseArgs_loop stoi stoul (a ++ b) cfg = parseArgs_loop stoi stoul b cfg'.
Proof.
  remember (length a) as n eqn:Hn. revert a cfg Hn.
  induction (lt_wf n) as [n _ IH]. intros a cfg -> Hparsed.
  destruct a as [|arg rest].
  - cbn [parseArgs_loop] in Hparsed. by injection Hparsed as ->.
  - destruct (parseArgs_loop_cons arg rest b cfg cfg' Hparsed)
      as (rest' & cfg1 & Hlen & Hrest & Happ & _).
    rewrite <- app_comm_cons, Happ.
    apply (IH (length rest')); [cbn [length]; lia|reflexivity|exact Hrest].
Qed.

Lemma parseArgs_loop_command (a : list string) (cfg cfg' : Options) :
  (sendCommand cfg = true → ∃ ty, opt_commandToSend cfg = commandToSend ty) →
  parseArgs_loop stoi stoul a cfg = Parsed cfg' →
  sendCommand cfg' = true → ∃ ty, opt_commandToSend cfg' = commandToSend ty.
Proof.
  remember (length a) as n eqn:Hn. revert a cfg Hn.
  induction (lt_wf n) as [n _ IH]. intros a cfg -> Hcfg Hparsed.
  destruct a as [|arg rest].
  - cbn [parseArgs_loop] in Hparsed. by injection Hparsed as <-.
  - destruct (parseArgs_loop_cons arg rest [] cfg cfg' Hparsed)
      as (rest' & cfg1 & Hlen & Hrest & _ & _ & Hcommand).
    apply (IH (length rest')) with rest' cfg1;
      [cbn [length]; lia|reflexivity| |exact Hrest].
    destruct Hcommand as [[Hsame Htoken]|[_ Hty]]; [|by intros _].
    rewrite Hsame, Htoken. exact Hcfg.
Qed.

Lemma parseArgs_loop_debounce (a : list string) (cfg cfg' : Options) (ms : Z) :
  debounce (tiling cfg) = ms →
  parseArgs_loop stoi stoul a cfg = Parsed cfg' →
  debounce (tiling cfg') = ms.
Proof.
  remember (length a) as n eqn:Hn. revert a cfg Hn.
  induction (lt_wf n) as [n _ IH]. intros a cfg -> Hcfg Hparsed.
  destruct a as [|arg rest].
  - cbn [parseArgs_loop] in Hparsed. by injection Hparsed as <-.
  - destruct (parseArgs_loop_cons arg rest [] cfg cfg' Hparsed)
      as (rest' & cfg1 & Hlen & Hrest & _ & Hms & _).
    apply (IH (length rest')) with rest' cfg1;
      [cbn [length]; lia|reflexivity| |exact Hrest].
    by rewrite Hms.
Qed.

Lemma find_char_first (c : Ascii.ascii) (pre post : list Ascii.ascii) :
  c ∉ pre → find_char c (pre ++ c :: post) = Some (length pre).
Proof.
  induction pre as [|a pre IH]; intros Hpre; cbn [app find_char length].
  - by case_decide.
  - apply not_elem_of_cons in Hpre as [Hne Hpre].
    case_decide; [by subst|]. by rewrite IH.
Qed.

Lemma substr_after (c : Ascii.ascii) (pre post : list Ascii.ascii) :
  drop (S (length pre)) (pre ++ c :: post) = post.
Proof. induction pre as [|a pre IH]; [done|exact IH]. Qed.

End command_line_facts.

Section command_line_theorems.
Variable stoi : list Ascii.ascii → option Z.
Variable stoul : list Ascii.ascii → option N.

(** X26. [parseArgs] reads the options from left to right: when the first
    arguments are a complete list of options, the arguments after them are
    read starting from the configuration those give, so that what a later
    option sets replaces what an earlier one set. *)
Theorem parseArgs_left_to_right (argv0 : string) (a b : list string)
    (cfg : Options) :
  parseArgs stoi stoul (argv0 :: a) = Parsed cfg →
  parseArgs stoi stoul (argv0 :: a ++ b) = parseArgs_loop stoi stoul b cfg.
Proof. unfold parseArgs. cbn [tail]. apply parseArgs_loop_app. Qed.

(** X27. After any complete list of options, [--desktop-config N:spec]
    splits its value at the first ':', and afterwards [layoutForDesktop]
    gives desktop [N] the layout [parseLayoutSpec] reads from [spec], gives
    every other desktop the layout it had, and the set of tiled desktops is
    the same. *)
Theorem desktop_config_overrides (argv0 value : string) (a : list string)
    (cfg : Options) (deskStr spec : list Ascii.ascii) (desk : N)
    (layout : DesktopLayout) :
  parseArgs stoi stoul (argv0 :: a) = Parsed cfg →
  String.list_ascii_of_string value = deskStr ++ colon :: spec →
  colon ∉ deskStr →
  stoul deskStr = Some desk →
  parseLayoutSpec stoi spec = inr layout →
  ∃ cfg',
    parseArgs stoi stoul (argv0 :: a ++ ["--desktop-config"; value]) = Parsed cfg'
    ∧ layoutForDesktop (tiling cfg') desk = layout
    ∧ (∀ d, d ≠ desk → layoutForDesktop (tiling cfg') d
                       = layoutForDesktop (tiling cfg) d)
    ∧ tiledDesktops (tiling cfg') = tiledDesktops (tiling cfg).
Proof.
  intros Hparsed Hvalue Hcolon Hdesk Hlayout.
  exists (set_tiling (set_perDesktop desk layout) cfg). split_and!.
  - unfold parseArgs in *. cbn [tail] in *.
    rewrite (parseArgs_loop_app stoi stoul a _ _ cfg Hparsed).
    cbn [parseArgs_loop]. repeat (case_decide; [discriminate|]).
    rewrite decide_True by done.
    rewrite Hvalue, find_char_first by done. cbv zeta.
    rewrite take_app_length, substr_after.
    by rewrite Hdesk, Hlayout.
  - unfold layoutForDesktop. simpl. by rewrite lookup_insert_eq.
  - intros d Hd. unfold layoutForDesktop. simpl.
    by rewrite lookup_insert_ne.
  - done.
Qed.

(** X28. A command [main] hands to [sendIpcCommand] is always one a
    listening daemon understands: its token is that of a [CommandType], the
    daemon was not asked for in the same call, and the listener that reads
    the payload queues exactly this command. *)
Theorem main_sends_known_command (argv : list string) (display : bool)
    (total : option N) (socket : string) (token : list Ascii.ascii) :
  main stoi stoul argv display total = SendIpc socket token →
  ∃ cfg ty,
    parseArgs stoi stoul argv = Parsed cfg
    ∧ daemon cfg = false
    ∧ token = commandToSend ty
    ∧ ∀ queue, commandListenerStep (sendIpcCommand_payload token) queue
               = queue ++ [mkPending ty].
Proof.
  unfold main.
  destruct (parseArgs stoi stoul argv) as [cfg| |] eqn:Hparsed; try done.
  destruct (sendCommand cfg) eqn:Hsend.
  - destruct (daemon cfg) eqn:Hdaemon; [done|]. intros [= <- <-].
    destruct (parseArgs_loop_command stoi stoul (tail argv) defaultOptions cfg)
      as [ty Hty]; [done|done|done|].
    exists cfg, ty. split_and!; [done|done|done|].
    intros queue. rewrite Hty. by destruct ty.
  - by destruct (negb display), (daemon cfg).
Qed.

(** X29. Whenever [main] starts tiling, once or as a daemon, it needed the
    display, no [--move-*] option was given, the set of tiled desktops is
    not empty, and the quiet interval is the built-in 200 ms, which no
    option changes. *)
Theorem main_tiles_some_desktop (argv : list string) (display : bool)
    (total : option N) (cfg : Config) :
  main stoi stoul argv display total = StartDaemon cfg
  ∨ main stoi stoul argv display total = StartOnce cfg →
  display = true
  ∧ tiledDesktops cfg ≠ ∅
  ∧ debounce cfg = 200
  ∧ ∃ opts, parseArgs stoi stoul argv = Parsed opts
            ∧ sendCommand opts = false
            ∧ cfg = startupConfig (tiling opts) total.
Proof.
  unfold main.
  destruct (parseArgs stoi stoul argv) as [opts| |] eqn:Hparsed;
    [|by intros [|]..].
  pose proof (parseArgs_loop_debounce stoi stoul (tail argv) defaultOptions
                opts 200 eq_refl Hparsed) as Hms.
  destruct (sendCommand opts) eqn:Hsend.
  { destruct (daemon opts); by intros [|]. }
  destruct display; [|by intros [|]]. simpl.
  assert (cfg = startupConfig (tiling opts) total →
          true = true ∧ tiledDesktops cfg ≠ ∅ ∧ debounce cfg = 200
          ∧ ∃ opts0, Parsed opts = Parsed opts0 ∧ sendCommand opts0 = false
                     ∧ cfg = startupConfig (tiling opts0) total) as Hgoal.
  { intros ->. split_and!; [done| | |by exists opts].
    - unfold startupConfig. case_bool_decide as Hempty; simpl; [|done].
      apply defaultTiledDesktops_nonempty.
    - unfold startupConfig. by case_bool_decide. }
  destruct (daemon opts); intros [[= <-]|[= <-]]; by apply Hgoal.
Qed.

End command_line_theorems.

Lemma parseArgs_left_to_right_witness :
  parseArgs sampleStoi sampleStoul
    ("wmtiler" :: ["--gap"; "8"] ++ ["--gap"; "4"; "--daemon"])
  = parseArgs_loop sampleStoi sampleStoul ["--gap"; "4"; "--daemon"]
      (set_tiling (set_defaults (set_gap 8)) defaultOptions).
Proof.
  apply (parseArgs_left_to_right sampleStoi sampleStoul "wmtiler"
           ["--gap"; "8"] ["--gap"; "4"; "--daemon"]).
  by vm_compute.
Defined.

Lemma desktop_config_overrides_witness :
  ∃ cfg',
    parseArgs sampleStoi sampleStoul
      ("wmtiler" :: ["--tile-desktops"; "1,2"] ++ ["--desktop-config"; "2:8:8,32,8:4"])
    = Parsed cfg'
    ∧ layoutForDesktop (tiling cfg') 2%N = mkLayout 8 8 8 32 4
    ∧ tiledDesktops (tiling cfg') = {[1%N; 2%N]}.
Proof.
  destruct (desktop_config_overrides sampleStoi sampleStoul
              "wmtiler" "2:8:8,32,8:4" ["--tile-desktops"; "1,2"]
              (set_tiling (set_tiledDesktops {[1%N; 2%N]}) defaultOptions)
              (String.list_ascii_of_string "2")
              (String.list_ascii_of_string "8:8,32,8:4")
              2%N (mkLayout 8 8 8 32 4))
    as (cfg' & Hparsed & Hlayout & _ & Htiled).
  - by vm_compute.
  - done.
  - apply (bool_decide_unpack _). by vm_compute.
  - done.
  - by vm_compute.
  - by exists cfg'.
Defined.

Lemma main_sends_known_command_witness :
  ∃ cfg ty,
    parseArgs sampleStoi sampleStoul
      ["wmtiler"; "--command-socket"; "/tmp/w.sock"; "--move-right"]
    = Parsed cfg
    ∧ daemon cfg = false
    ∧ String.list_ascii_of_string "move-right" = commandToSend ty
    ∧ commandListenerStep
        (sendIpcCommand_payload (String.list_ascii_of_string "move-right")) []
      = [] ++ [mkPending ty].
Proof.
  destruct (main_sends_known_command sampleStoi sampleStoul
              ["wmtiler"; "--command-socket"; "/tmp/w.sock"; "--move-right"]
              false None "/tmp/w.sock"
              (String.list_ascii_of_string "move-right"))
    as (cfg & ty & Hparsed & Hdaemon & Hty & Hqueue).
  - by vm_compute.
  - exists cfg, ty. split_and!; [done|done|done|apply Hqueue].
Defined.

Lemma main_tiles_some_desktop_witness :
  let cfg := mkConfig (mkLayout 0 0 0 0 0) (mkLayout 0 0 0 0 0) false ∅
                      {[1%N; 2%N; 3%N]} 200 in
  main sampleStoi sampleStoul ["wmtiler"; "--daemon"] true (Some 4%N)
  = StartDaemon cfg
  ∧ tiledDesktops cfg ≠ ∅ ∧ debounce cfg = 200.
Proof.
  assert (main sampleStoi sampleStoul ["wmtiler"; "--daemon"] true (Some 4%N)
          = StartDaemon (mkConfig (mkLayout 0 0 0 0 0) (mkLayout 0 0 0 0 0)
                                  false ∅ {[1%N; 2%N; 3%N]} 200)) as Hmain.
  { by vm_compute. }
  split; [exact Hmain|].
  destruct (main_tiles_some_desktop sampleStoi sampleStoul
              ["wmtiler"; "--daemon"] true (Some 4%N) _ (or_introl Hmain))
    as (_ & Hne & Hms & _).
  by split.
Defined.
